(** * CBUtilLib: the sorted-array dictionaries and their value iterators

    A shallow embedding of [IntDict.c], [IntDictVIt.c], [StrDict.c],
    [StrDictVIt.c], [Stricmp.c] and of the part of [StringBuff.c] that the
    string dictionary calls, followed by the properties of the bisect
    engine, the search cache, insertion, growth and the iterators.

    Conventions of the embedding.
    - [size_t] values are natural numbers; the one platform constant the
      code tests, [SIZE_MAX], is a parameter ([SizeT]).  Every increment in
      the embedded functions is guarded by the loop or branch condition in
      front of it; the decrements that only an [assert] protects are written
      with their wrap-around ([size_dec]).
    - A C function that updates [*dict] takes the dictionary and returns the
      new dictionary next to its result.
    - A pointer into [dict->array] is the index of the slot it points at.
    - [realloc] is part of the environment: the caller of the model supplies
      its outcome ([realloc_result]).
    - An [assert] is a precondition: it appears as a hypothesis of the
      theorems (and as a premise of the reachability relations), not in the
      functions. *)

From Stdlib Require Import ZArith Lia Ascii String.
From stdpp Require Import base list strings.

(** ** Pointers, sizes and the allocator *)

(** [void *]: an address, [NULL] being address 0. *)
Definition voidp : Type := N.
Bind Scope N_scope with voidp.
Definition NULL : voidp := 0%N.

(** [<stdint.h>]'s [SIZE_MAX]. *)
Class SizeT : Type := { SIZE_MAX : nat }.

(** [--n] on a [size_t]. *)
Definition size_dec `{SizeT} (n : nat) : nat :=
  match n with
  | 0 => SIZE_MAX
  | S m => m
  end.

(** [a + b] and [a * b] on [size_t], where the code does not guard them. *)
Definition size_add `{SizeT} (a b : nat) : nat := (a + b) mod (SIZE_MAX + 1).
Definition size_mul `{SizeT} (a b : nat) : nat := (a * b) mod (SIZE_MAX + 1).

(** Outcome of one [realloc] call: failure, or success together with the
    (indeterminate) contents of the storage beyond the old block. *)
Inductive realloc_result (A : Type) : Type :=
| ReallocFail
| ReallocOk (fresh : list A).
Arguments ReallocFail {A}.
Arguments ReallocOk {A} fresh.

(** [realloc(old, n * sizeof(A))] for [n > 0]: the old contents are kept (cut
    to [n] elements), the rest comes from the environment.  The request is
    counted in elements. *)
Definition realloc {A : Type} `{Inhabited A} (old : option (list A)) (n : nat)
    (env : realloc_result A) : option (list A) :=
  match env with
  | ReallocFail => None
  | ReallocOk fresh => Some (resize n inhabitant (default [] old ++ fresh))
  end.

(** ** The C library's [bsearch]

    [bsearch(key, base, nmemb, size, compar)] is not part of the repository.
    It is modelled as the midpoint loop of the common implementations: the
    comparison function receives the state it may update (here: the
    dictionary, passed as [key]) and the index of the element it is shown. *)
Fixpoint bsearch_loop {St : Type} (compar : St → nat → Z * St) (fuel : nat)
    (st : St) (l u : nat) : option nat * St :=
  match fuel with
  | 0 => (None, st)
  | S fuel' =>
      if l <? u then
        let idx := (l + u) / 2 in
        let '(c, st') := compar st idx in
        if (c <? 0)%Z then bsearch_loop compar fuel' st' l idx
        else if (0 <? c)%Z then bsearch_loop compar fuel' st' (idx + 1) u
        else (Some idx, st')
      else (None, st)
  end.

Definition bsearch {St : Type} (compar : St → nat → Z * St) (st : St)
    (nmemb : nat) : option nat * St :=
  bsearch_loop compar nmemb st 0 nmemb.

(** ** Loops shared by both dictionaries *)

(** [do { ++index; } while (index < nitems && low(index));] *)
Fixpoint scan_forward (low : nat → bool) (nitems : nat) (fuel : nat)
    (index : nat) : nat :=
  let index' := index + 1 in
  match fuel with
  | 0 => index'
  | S fuel' =>
      if (index' <? nitems) && low index'
      then scan_forward low nitems fuel' index'
      else index'
  end.

(** [while (index > 0 && high(index - 1)) { --index; }] *)
Fixpoint scan_backward (high : nat → bool) (index : nat) : nat :=
  match index with
  | 0 => 0
  | S prev => if high prev then scan_backward high prev else index
  end.

(** [while (index < nitems && low_or_equal(index)) { ++index; }] *)
Fixpoint scan_right (le : nat → bool) (nitems : nat) (fuel : nat)
    (index : nat) : nat :=
  match fuel with
  | 0 => index
  | S fuel' =>
      if (index <? nitems) && le index
      then scan_right le nitems fuel' (index + 1)
      else index
  end.

(** [for (i = nitems; i > ins_index; --i) { array[i] = array[i - 1]; }] *)
Fixpoint shift_up {A : Type} `{Inhabited A} (array : list A)
    (ins_index : nat) (i : nat) : list A :=
  match i with
  | 0 => array
  | S prev =>
      if ins_index <? i
      then shift_up (<[i := array !!! prev]> array) ins_index prev
      else array
  end.

(** [for (i = index; i < nitems; ++i) { array[i] = array[i + 1]; }] *)
Fixpoint shift_down {A : Type} `{Inhabited A} (array : list A)
    (nitems : nat) (fuel : nat) (i : nat) : list A :=
  match fuel with
  | 0 => array
  | S fuel' =>
      if i <? nitems
      then shift_down (<[i := array !!! (i + 1)]> array) nitems fuel' (i + 1)
      else array
  end.

(** ** Vocabulary of the specification *)

(** [b] is where [low] turns from true to false on the slots [0 .. n-1]. *)
Definition partition_point (low : nat → bool) (n b : nat) : Prop :=
  b ≤ n ∧ (∀ i, i < b → low i = true) ∧ (∀ i, b ≤ i → i < n → low i = false).

(** [i] is the first position of [l] whose element satisfies [P], or the
    length of [l] if there is none. *)
Definition first_position {A : Type} `{Inhabited A} (P : A → bool)
    (l : list A) (i : nat) : Prop :=
  i ≤ length l ∧ (∀ j, j < i → P (l !!! j) = false)
  ∧ (i < length l → P (l !!! i) = true).

(** [l] with [x] put in front of position [i]. *)
Definition insert_at {A : Type} (i : nat) (x : A) (l : list A) : list A :=
  take i l ++ x :: drop i l.

(** The elements of [l] that a loop visiting them in order, counting from
    [count], does not select. *)
Fixpoint unselected {A : Type} (selected : nat → bool) (count : nat)
    (l : list A) : list A :=
  match l with
  | [] => []
  | x :: rest =>
      if selected count then unselected selected (count + 1) rest
      else x :: unselected selected (count + 1) rest
  end.

(** ** [IntDict.h], [IntDict.c], [IntDictVIt.c] *)
Module IntDict.

Definition IntDictKey : Type := Z.
Bind Scope Z_scope with IntDictKey.

Record IntDictItem : Type := {
  key : IntDictKey;
  value : voidp;
}.

#[global] Instance IntDictItem_inhabited : Inhabited IntDictItem :=
  populate {| key := 0%Z; value := NULL |}.

Record IntDict : Type := {
  nalloc : nat;
  nitems : nat;
  sought_key : IntDictKey;
  array : option (list IntDictItem);
  candidate : option nat;
}.

Definition set_candidate (c : option nat) (dict : IntDict) : IntDict :=
  {| nalloc := nalloc dict; nitems := nitems dict;
     sought_key := sought_key dict; array := array dict; candidate := c |}.

Definition set_sought_key (k : IntDictKey) (dict : IntDict) : IntDict :=
  {| nalloc := nalloc dict; nitems := nitems dict;
     sought_key := k; array := array dict; candidate := candidate dict |}.

Definition ArrayInitSize : nat := 4.
Definition ArrayGrowthFactor : nat := 2.

(** [*dict = (IntDict){0};] *)
Definition intdict_init : IntDict :=
  {| nalloc := 0; nitems := 0; sought_key := 0%Z; array := None;
     candidate := None |}.

(** [array[index]] for the array [dict->array] points at (nothing to read
    when it is null). *)
Definition slots (dict : IntDict) : list IntDictItem :=
  default [] (array dict).

(** [compare_key_n_item(key, item)]: [key] is the dictionary itself, [item]
    points at slot [item] of its array. *)
Definition compare_key_n_item (dict : IntDict) (item : nat) : Z * IntDict :=
  let dict' := set_candidate (Some item) dict in
  let candidate_key := key (slots dict !!! item) in
  if (sought_key dict <? candidate_key)%Z then ((-1)%Z, dict')
  else if (sought_key dict >? candidate_key)%Z then (1%Z, dict')
  else (0%Z, dict').

Definition intdict_bisect_left (dict : IntDict) (k : IntDictKey)
    : nat * IntDict :=
  match array dict with
  | None => (0, dict)
  | Some array =>
      if 0 <? nitems dict then
        let dict1 :=
          match candidate dict with
          | Some _ =>
              if (sought_key dict =? k)%Z then dict
              else set_candidate None dict
          | None => dict
          end in
        let dict2 :=
          match candidate dict1 with
          | None =>
              snd (bsearch compare_key_n_item (set_sought_key k dict1)
                     (nitems dict1))
          | Some _ => dict1
          end in
        match candidate dict2 with
        | Some c =>
            if (key (array !!! c) <? k)%Z then
              (scan_forward (λ i, (key (array !!! i) <? k)%Z)
                 (nitems dict2) (nitems dict2) c, dict2)
            else
              (scan_backward (λ i, (key (array !!! i) >=? k)%Z) c, dict2)
        | None => (0, dict2)
        end
      else (0, dict)
  end.

Definition intdict_bisect_right (dict : IntDict) (k : IntDictKey)
    : nat * IntDict :=
  match array dict with
  | None => (0, dict)
  | Some array =>
      let '(index, dict1) := intdict_bisect_left dict k in
      (scan_right (λ i, (key (array !!! i) <=? k)%Z)
         (nitems dict1) (nitems dict1) index, dict1)
  end.

(** The result is [(found, pos)]; [pos] is what the call stores through a
    non-null [pos] pointer, [None] when it stores nothing. *)
Definition intdict_find (dict : IntDict) (k : IntDictKey)
    : bool * option nat * IntDict :=
  let '(index, dict1) := intdict_bisect_left dict k in
  match array dict1 with
  | None => (false, None, dict1)
  | Some array =>
      if (nitems dict1 <=? index) || negb (key (array !!! index) =? k)%Z
      then (false, None, dict1)
      else (true, Some index, dict1)
  end.

(** [while (array[index].key == key && array[index].value != value &&
           index + 1 < dict->nitems) { ++index; }] *)
Fixpoint find_specific_loop (array : list IntDictItem) (k : IntDictKey)
    (v : voidp) (nitems : nat) (fuel : nat) (index : nat) : nat :=
  match fuel with
  | 0 => index
  | S fuel' =>
      if (key (array !!! index) =? k)%Z
         && negb (value (array !!! index) =? v)%N
         && (index + 1 <? nitems)
      then find_specific_loop array k v nitems fuel' (index + 1)
      else index
  end.

Definition intdict_find_specific (dict : IntDict) (k : IntDictKey)
    (v : voidp) : bool * option nat * IntDict :=
  match array dict with
  | None => (false, None, dict)
  | Some array =>
      let '(index0, dict1) := intdict_bisect_left dict k in
      if nitems dict1 <=? index0 then (false, None, dict1)
      else if negb (key (array !!! index0) =? k)%Z then (false, None, dict1)
      else
        let index :=
          find_specific_loop array k v (nitems dict1) (nitems dict1) index0 in
        if negb (key (array !!! index) =? k)%Z
           || negb (value (array !!! index) =? v)%N
        then (false, None, dict1)
        else (true, Some index, dict1)
  end.

Section WithSizeT.
Context `{SizeT}.

Definition intdict_remove_at (dict : IntDict) (index : nat) : IntDict :=
  match array dict with
  | None => dict
  | Some array =>
      let nitems' := size_dec (nitems dict) in
      {| nalloc := nalloc dict;
         nitems := nitems';
         sought_key := sought_key dict;
         array := Some (shift_down array nitems' (nitems' - index) index);
         candidate := None |}
  end.

Definition intdict_remove_value_at (dict : IntDict) (index : nat)
    : voidp * IntDict :=
  let v :=
    match array dict with
    | Some array => value (array !!! index)
    | None => NULL
    end in
  (v, intdict_remove_at dict index).

(** The capacity asked of [realloc] when the array is full. *)
Definition new_size (nalloc : nat) : nat :=
  if 0 <? nalloc then
    if nalloc <? SIZE_MAX / ArrayGrowthFactor
    then nalloc * ArrayGrowthFactor
    else SIZE_MAX
  else ArrayInitSize.

(** The result is [(success, index)], [index] being what the call stores
    through a non-null [index] pointer. *)
Definition intdict_insert (dict : IntDict) (k : IntDictKey) (v : voidp)
    (env : realloc_result IntDictItem) : bool * option nat * IntDict :=
  let '(ins_index, dict1) := intdict_bisect_left dict k in
  let n := nitems dict1 in
  let grown : option IntDict :=
    if n =? nalloc dict1 then
      if nalloc dict1 =? SIZE_MAX then None
      else
        match realloc (array dict1) (new_size (nalloc dict1)) env with
        | None => None
        | Some new_array =>
            Some {| nalloc := new_size (nalloc dict1);
                    nitems := nitems dict1;
                    sought_key := sought_key dict1;
                    array := Some new_array;
                    candidate := candidate dict1 |}
        end
    else Some dict1 in
  match grown with
  | None => (false, None, dict1)
  | Some dict2 =>
      match array dict2 with
      | None => (false, None, dict2)
      | Some array =>
          let shifted := shift_up array ins_index n in
          (true, Some ins_index,
           {| nalloc := nalloc dict2;
              nitems := nitems dict2 + 1;
              sought_key := sought_key dict2;
              array := Some (<[ins_index := {| key := k; value := v |}]>
                               shifted);
              candidate := None |})
      end
  end.

End WithSizeT.

(** *** Inline functions of [IntDict.h] *)

Definition intdict_count (dict : IntDict) : nat := nitems dict.

Definition intdict_get_key_at (dict : IntDict) (index : nat) : IntDictKey :=
  key (slots dict !!! index).

Definition intdict_get_value_at (dict : IntDict) (index : nat) : voidp :=
  value (slots dict !!! index).

Definition intdict_find_value (dict : IntDict) (k : IntDictKey)
    : voidp * option nat * IntDict :=
  match intdict_find dict k with
  | (true, Some pos, dict1) => (intdict_get_value_at dict1 pos, Some pos, dict1)
  | (_, _, dict1) => (NULL, None, dict1)
  end.

Section WithSizeT.
Context `{SizeT}.

Definition intdict_remove (dict : IntDict) (k : IntDictKey)
    : bool * option nat * IntDict :=
  match intdict_find dict k with
  | (true, Some pos, dict1) => (true, Some pos, intdict_remove_at dict1 pos)
  | (_, _, dict1) => (false, None, dict1)
  end.

Definition intdict_remove_value (dict : IntDict) (k : IntDictKey)
    : voidp * option nat * IntDict :=
  match intdict_find dict k with
  | (true, Some pos, dict1) =>
      let '(v, dict2) := intdict_remove_value_at dict1 pos in
      (v, Some pos, dict2)
  | (_, _, dict1) => (NULL, None, dict1)
  end.

Definition intdict_remove_specific (dict : IntDict) (k : IntDictKey)
    (v : voidp) : bool * option nat * IntDict :=
  match intdict_find_specific dict k v with
  | (true, Some pos, dict1) => (true, Some pos, intdict_remove_at dict1 pos)
  | (_, _, dict1) => (false, None, dict1)
  end.

End WithSizeT.

(** *** The value iterator ([IntDictVIt.c])

    [iter->dict] is a borrowed pointer: the dictionary it points at is
    passed next to the iterator, and handed back when the call changes
    it. *)
Record IntDictVIter : Type := {
  next_index : nat;
  end_ : nat;
}.

Definition intdictviter_advance (iter : IntDictVIter) (dict : IntDict)
    : voidp * IntDictVIter :=
  if next_index iter <? end_ iter then
    (intdict_get_value_at dict (next_index iter),
     {| next_index := next_index iter + 1; end_ := end_ iter |})
  else (NULL, iter).

(** The initializers of the compound literal are evaluated in the order
    they are written. *)
Definition intdictviter_init (dict : IntDict) (min_key max_key : IntDictKey)
    : voidp * IntDictVIter * IntDict :=
  let '(first, dict1) := intdict_bisect_left dict min_key in
  let '(last, dict2) := intdict_bisect_right dict1 max_key in
  let iter := {| next_index := first; end_ := last |} in
  let '(v, iter') := intdictviter_advance iter dict2 in
  (v, iter', dict2).

Definition intdictviter_all_init (dict : IntDict)
    : voidp * IntDictVIter :=
  let iter := {| next_index := 0; end_ := intdict_count dict |} in
  intdictviter_advance iter dict.

Definition intdictviter_remove `{SizeT} (iter : IntDictVIter)
    (dict : IntDict) : nat * IntDictVIter * IntDict :=
  let end' := size_dec (end_ iter) in
  let index := size_dec (next_index iter) in
  (index, {| next_index := index; end_ := end' |},
   intdict_remove_at dict index).

(** *** Specification-level definitions *)

(** The entries the dictionary holds, in index order. *)
Definition entries (dict : IntDict) : list IntDictItem :=
  take (nitems dict) (slots dict).

(** The ordering the [assert]s at the end of [intdict_insert] and
    [intdict_remove_at] check. *)
Definition sorted (dict : IntDict) : Prop :=
  ∀ i, i + 1 < nitems dict →
       (key (slots dict !!! i) ≤ key (slots dict !!! S i))%Z.

(** Representation invariant. *)
Record wf `{SizeT} (dict : IntDict) : Prop := {
  wf_nitems : nitems dict ≤ nalloc dict;
  wf_nalloc : nalloc dict ≤ SIZE_MAX;
  wf_array :
    match array dict with
    | Some array => length array = nalloc dict
    | None => nalloc dict = 0
    end;
  wf_candidate : ∀ c, candidate dict = Some c → c < nitems dict;
  wf_sorted : sorted dict;
}.

(** Two dictionaries with the same array, count and capacity; they can
    differ in the search cache only. *)
Definition same_store (dict dict' : IntDict) : Prop :=
  nalloc dict = nalloc dict' ∧ nitems dict = nitems dict'
  ∧ array dict = array dict'.

(** The cache as the first half of [intdict_bisect_left] leaves it: the
    cached candidate is kept for an equal key, otherwise [bsearch] records
    the last slot it probes. *)
Definition refreshed (dict : IntDict) (k : IntDictKey) : IntDict :=
  let dict1 :=
    match candidate dict with
    | Some _ =>
        if (sought_key dict =? k)%Z then dict else set_candidate None dict
    | None => dict
    end in
  match candidate dict1 with
  | None =>
      snd (bsearch compare_key_n_item (set_sought_key k dict1) (nitems dict1))
  | Some _ => dict1
  end.

(** The local linear correction of [intdict_bisect_left], started at slot
    [c] of an array holding [n] items. *)
Definition correct_from (array : list IntDictItem) (n : nat) (k : IntDictKey)
    (c : nat) : nat :=
  if (key (array !!! c) <? k)%Z then
    scan_forward (λ i, (key (array !!! i) <? k)%Z) n n c
  else
    scan_backward (λ i, (key (array !!! i) >=? k)%Z) c.

(** The search with the cache disabled: the cached candidate is dropped,
    so that the full binary search always runs. *)
Definition intdict_bisect_left_uncached (dict : IntDict) (k : IntDictKey)
    : nat * IntDict :=
  intdict_bisect_left (set_candidate None dict) k.

Definition intdict_bisect_right_uncached (dict : IntDict) (k : IntDictKey)
    : nat * IntDict :=
  intdict_bisect_right (set_candidate None dict) k.

Definition intdict_find_uncached (dict : IntDict) (k : IntDictKey)
    : bool * option nat * IntDict :=
  intdict_find (set_candidate None dict) k.

(** The calls a client can make, and what a call hands back. *)
Inductive op : Type :=
| BisectLeft (k : IntDictKey)
| BisectRight (k : IntDictKey)
| Find (k : IntDictKey)
| FindSpecific (k : IntDictKey) (v : voidp)
| Insert (k : IntDictKey) (v : voidp) (env : realloc_result IntDictItem)
| RemoveAt (index : nat)
| RemoveValueAt (index : nat)
| Remove (k : IntDictKey)
| RemoveSpecific (k : IntDictKey) (v : voidp).

Inductive outcome : Type :=
| Index (i : nat)
| Found (success : bool) (pos : option nat)
| Value (v : voidp)
| Done.

Section WithSizeT.
Context `{SizeT}.

(** When [intdict_insert] cannot grow a full array: the capacity is the
    largest there is, or the allocator fails. *)
Definition insert_refused (dict : IntDict)
    (env : realloc_result IntDictItem) : Prop :=
  nitems dict = nalloc dict
  ∧ (nalloc dict = SIZE_MAX ∨ env = ReallocFail).


(** One call; [None] when the call violates its [assert(index <
    dict->nitems)]. *)
Definition step (dict : IntDict) (o : op) : option (outcome * IntDict) :=
  match o with
  | BisectLeft k =>
      let '(i, dict') := intdict_bisect_left dict k in Some (Index i, dict')
  | BisectRight k =>
      let '(i, dict') := intdict_bisect_right dict k in Some (Index i, dict')
  | Find k =>
      let '(found, pos, dict') := intdict_find dict k in
      Some (Found found pos, dict')
  | FindSpecific k v =>
      let '(found, pos, dict') := intdict_find_specific dict k v in
      Some (Found found pos, dict')
  | Insert k v env =>
      let '(ok, pos, dict') := intdict_insert dict k v env in
      Some (Found ok pos, dict')
  | RemoveAt index =>
      if index <? nitems dict then Some (Done, intdict_remove_at dict index)
      else None
  | RemoveValueAt index =>
      if index <? nitems dict then
        let '(v, dict') := intdict_remove_value_at dict index in
        Some (Value v, dict')
      else None
  | Remove k =>
      let '(found, pos, dict') := intdict_remove dict k in
      Some (Found found pos, dict')
  | RemoveSpecific k v =>
      let '(found, pos, dict') := intdict_remove_specific dict k v in
      Some (Found found pos, dict')
  end.

(** The same call with the cache disabled. *)
Definition step_uncached (dict : IntDict) (o : op)
    : option (outcome * IntDict) :=
  step (set_candidate None dict) o.

Fixpoint run (stepf : IntDict → op → option (outcome * IntDict))
    (dict : IntDict) (ops : list op) : option (list outcome * IntDict) :=
  match ops with
  | [] => Some ([], dict)
  | o :: rest =>
      match stepf dict o with
      | None => None
      | Some (out, dict') =>
          match run stepf dict' rest with
          | None => None
          | Some (outs, dict'') => Some (out :: outs, dict'')
          end
      end
  end.

(** The dictionaries a client can obtain. *)
Inductive reachable : IntDict → Prop :=
| reachable_init : reachable intdict_init
| reachable_step dict o out dict' :
    reachable dict → step dict o = Some (out, dict') → reachable dict'.

(** The loop of the iterator tests:
    [for (value = intdictviter_all_init(&iter, &dict); value != NULL;
          value = intdictviter_advance(&iter), ++count)
     { if (selected(count)) intdictviter_remove(&iter); }];
    the result lists the values the loop body saw. *)
Fixpoint iterate_from (selected : nat → bool) (fuel : nat) (v : voidp)
    (iter : IntDictVIter) (dict : IntDict) (count : nat)
    : list voidp * IntDictVIter * IntDict :=
  match fuel with
  | 0 => ([], iter, dict)
  | S fuel' =>
      if (v =? NULL)%N then ([], iter, dict)
      else
        let '(iter1, dict1) :=
          if selected count then
            let '(_, iter', dict') := intdictviter_remove iter dict in
            (iter', dict')
          else (iter, dict) in
        let '(v', iter2) := intdictviter_advance iter1 dict1 in
        let '(seen, iter3, dict3) :=
          iterate_from selected fuel' v' iter2 dict1 (count + 1) in
        (v :: seen, iter3, dict3)
  end.

Definition iterate_all (selected : nat → bool) (dict : IntDict)
    : list voidp * IntDictVIter * IntDict :=
  let '(v, iter) := intdictviter_all_init dict in
  iterate_from selected (nitems dict + 1) v iter dict 0.

End WithSizeT.

(** *** [intdict_destroy]

    The destructor is a function of the client: it is handed the key, the
    value and [arg], and what it does is a change of the client's own state
    [C], which [arg] points at.  The array is freed afterwards, so that no
    dictionary is handed back. *)
Fixpoint destroy_loop {C : Type} (destructor : IntDictKey → voidp → C → C)
    (array : list IntDictItem) (nitems : nat) (fuel : nat) (i : nat)
    (arg : C) : C :=
  match fuel with
  | 0 => arg
  | S fuel' =>
      if i <? nitems then
        destroy_loop destructor array nitems fuel' (i + 1)
          (destructor (key (array !!! i)) (value (array !!! i)) arg)
      else arg
  end.

Definition intdict_destroy {C : Type} (dict : IntDict)
    (destructor : option (IntDictKey → voidp → C → C)) (arg : C) : C :=
  match destructor, array dict with
  | Some destructor, Some array =>
      destroy_loop destructor array (nitems dict) (nitems dict) 0 arg
  | _, _ => arg
  end.

(** *** Loops of the clients *)

Section WithSizeT.
Context `{SizeT}.

(** A client's loop over a range of keys, in the shape of the loops of
    the iterator tests:
    [for (value = intdictviter_init(&iter, &dict, min_key, max_key);
          value != NULL;
          value = intdictviter_advance(&iter), ++count)
     { if (selected(count)) intdictviter_remove(&iter); }]. *)
Definition iterate_range (selected : nat → bool) (dict : IntDict)
    (min_key max_key : IntDictKey) : list voidp * IntDictVIter * IntDict :=
  let '(v, iter, dict') := intdictviter_init dict min_key max_key in
  iterate_from selected (nitems dict' + 1) v iter dict' 0.

End WithSizeT.

End IntDict.

(** ** Characters and C strings *)

#[global] Instance ascii_inhabited : Inhabited ascii := populate Ascii.zero.

(** A character as the [int] an (unsigned) [char] converts to. *)
Definition char_code (c : ascii) : Z := Z.of_N (N_of_ascii c).

(** [<ctype.h>]'s [toupper] in the "C" locale. *)
Definition toupper (c : Z) : Z :=
  if (97 <=? c)%Z && (c <=? 122)%Z then (c - 32)%Z else c.

(** A [string] stands for the characters in front of the terminator of a C
    string.  [deref s] is [*s] (the terminator once the characters are used
    up) and [advance s] is [s + 1]. *)
Definition deref (s : string) : Z :=
  match s with
  | EmptyString => 0%Z
  | String c _ => char_code c
  end.

Definition advance (s : string) : string :=
  match s with
  | EmptyString => EmptyString
  | String _ rest => rest
  end.

(** [<string.h>]'s [strlen]. *)
Fixpoint strlen (s : string) : nat :=
  match s with
  | EmptyString => 0
  | String c rest => if (char_code c =? 0)%Z then 0 else S (strlen rest)
  end.

(** [Stricmp.c]:
    [do { i = *s1++, j = *s2++; i = toupper(i); j = toupper(j); }
     while (i && i == j); return (i - j);] *)
Fixpoint stricmp (s1 s2 : string) : Z :=
  let i := toupper (deref s1) in
  let j := toupper (deref s2) in
  match s1 with
  | String _ rest1 =>
      if negb (i =? 0)%Z && (i =? j)%Z
      then stricmp rest1 (advance s2)
      else (i - j)%Z
  | EmptyString => (i - j)%Z
  end.

(** The characters [stricmp] compares: those in front of the terminator,
    each through [toupper]. *)
Fixpoint upper_codes (s : string) : list Z :=
  match s with
  | EmptyString => []
  | String c rest =>
      if (char_code c =? 0)%Z then []
      else toupper (char_code c) :: upper_codes rest
  end.

(** A non-null [char const *] of the caller: where it points and the string
    stored there. *)
Record charp : Type := {
  address : N;
  text : string;
}.

#[global] Instance charp_inhabited : Inhabited charp :=
  populate {| address := 0%N; text := EmptyString |}.

(** ** [StringBuff.h], [StringBuff.c]: what the string dictionary calls *)
Module StringBuff.

Record StringBuffer : Type := {
  buffer_size : nat;
  string_len : nat;
  buffer : option (list ascii);
  undo_len : nat;
  undo_char : ascii;
}.

Definition GROWTH_FACTOR : nat := 2.

(** The C string that starts at [chars[0]]. *)
Fixpoint cstring_at (chars : list ascii) : string :=
  match chars with
  | [] => EmptyString
  | c :: rest =>
      if (char_code c =? 0)%Z then EmptyString else String c (cstring_at rest)
  end.

(** [memcpy(dest + offset, src, n)] for [n <= strlen(src)]. *)
Fixpoint memcpy (dest : list ascii) (offset : nat) (src : string) (n : nat)
    {struct n} : list ascii :=
  match n with
  | 0 => dest
  | S n' =>
      match src with
      | String c rest => memcpy (<[offset := c]> dest) (offset + 1) rest n'
      | EmptyString => dest
      end
  end.

Definition set_undo_len (len : nat) (b : StringBuffer) : StringBuffer :=
  {| buffer_size := buffer_size b; string_len := string_len b;
     buffer := buffer b; undo_len := len; undo_char := undo_char b |}.

Definition set_buffer_chars (chars : list ascii) (b : StringBuffer)
    : StringBuffer :=
  {| buffer_size := buffer_size b; string_len := string_len b;
     buffer := Some chars; undo_len := undo_len b; undo_char := undo_char b |}.

(** [stringbuffer_init]; [undo_char] is left as it was. *)
Definition stringbuffer_init (b : StringBuffer) : StringBuffer :=
  {| buffer_size := 0; string_len := 0; buffer := None; undo_len := 0;
     undo_char := undo_char b |}.

Section WithSizeT.
Context `{SizeT}.

Definition realloc_buffer (b : StringBuffer) (new_size : nat)
    (env : realloc_result ascii) : bool * StringBuffer :=
  if new_size =? 0 then
    (true,
     {| buffer_size := 0; string_len := string_len b; buffer := None;
        undo_len := undo_len b; undo_char := undo_char b |})
  else
    match realloc (buffer b) new_size env with
    | Some new_buffer =>
        (true,
         {| buffer_size := new_size; string_len := string_len b;
            buffer := Some new_buffer;
            undo_len := undo_len b; undo_char := undo_char b |})
    | None => (false, b)
    end.

Definition ensure_size (b : StringBuffer) (min_size : nat)
    (env : realloc_result ascii) : bool * StringBuffer :=
  if buffer_size b <? min_size then
    realloc_buffer b
      (Nat.max min_size (size_mul (buffer_size b) GROWTH_FACTOR)) env
  else (true, b).

Definition set_len (b : StringBuffer) (new_len : nat) : StringBuffer :=
  match buffer b with
  | Some chars =>
      {| buffer_size := buffer_size b; string_len := new_len;
         buffer := Some (<[new_len := Ascii.zero]> chars);
         undo_len := string_len b; undo_char := chars !!! new_len |}
  | None =>
      {| buffer_size := buffer_size b; string_len := new_len;
         buffer := None;
         undo_len := string_len b; undo_char := undo_char b |}
  end.

(** The result is [(free_ptr, *min_size, buffer)], [free_ptr] being an
    offset into [buffer->buffer]. *)
Definition stringbuffer_prepare_append (b : StringBuffer) (min_size : nat)
    (env : realloc_result ascii) : option nat * nat * StringBuffer :=
  let size := if 0 <? min_size then min_size else 1 in
  let '(ok, b1) := ensure_size b (size_add (string_len b) size) env in
  match ok, buffer b1 with
  | true, Some _ =>
      (Some (string_len b1), buffer_size b1 - string_len b1, b1)
  | _, _ => (None, 0, b1)
  end.

Definition stringbuffer_finish_append (b : StringBuffer) (n : nat)
    : StringBuffer :=
  set_len b (size_add (string_len b) n).

Definition stringbuffer_append (b : StringBuffer) (tail : string) (n : nat)
    (env : realloc_result ascii) : bool * StringBuffer :=
  let tail_len := if 0 <? n then strlen tail else 0 in
  let extra_chars := Nat.min tail_len n in
  if 0 <? extra_chars then
    match stringbuffer_prepare_append b (size_add extra_chars 1) env with
    | (Some free_ptr, _, b1) =>
        let chars := memcpy (default [] (buffer b1)) free_ptr tail
                       extra_chars in
        (true, stringbuffer_finish_append (set_buffer_chars chars b1)
                 extra_chars)
    | (None, _, b1) => (false, b1)
    end
  else (true, set_undo_len (string_len b) b).

Definition stringbuffer_append_all (b : StringBuffer) (tail : string)
    (env : realloc_result ascii) : bool * StringBuffer :=
  stringbuffer_append b tail SIZE_MAX env.

Definition stringbuffer_truncate (b : StringBuffer) (len : nat)
    : StringBuffer :=
  if len <? string_len b then set_len b len
  else set_undo_len (string_len b) b.

End WithSizeT.

(** The string [stringbuffer_get_pointer(buffer)] points at: the buffer's
    own storage, or the literal [""] while nothing is allocated. *)
Definition stringbuffer_get_pointer (b : StringBuffer) : string :=
  match buffer b with
  | Some chars => cstring_at chars
  | None => EmptyString
  end.

(** [StringBuff.h]'s [stringbuffer_get_length]. *)
Definition stringbuffer_get_length (b : StringBuffer) : nat := string_len b.

(** [stringbuffer_undo].  Nothing is stored while there is no storage (the
    C code would store through a null pointer). *)
Definition stringbuffer_undo (b : StringBuffer) : StringBuffer :=
  let buffer' :=
    if undo_len b <? string_len b then
      (λ chars, <[undo_len b := Ascii.zero]> chars) <$> buffer b
    else if string_len b <? undo_len b then
      (λ chars, <[string_len b := undo_char b]> chars) <$> buffer b
    else buffer b in
  {| buffer_size := buffer_size b; string_len := undo_len b;
     buffer := buffer'; undo_len := undo_len b; undo_char := undo_char b |}.

Section WithSizeT.
Context `{SizeT}.

(** [stringbuffer_append_separated]; [s] is the offset of the place
    [stringbuffer_prepare_append] returns. *)
Definition stringbuffer_append_separated (b : StringBuffer) (sep : ascii)
    (tail : string) (env : realloc_result ascii) : bool * StringBuffer :=
  let tail_len := strlen tail in
  match stringbuffer_prepare_append b (size_add tail_len 2) env with
  | (Some s, _, b1) =>
      let chars :=
        memcpy (<[s := sep]> (default [] (buffer b1))) (s + 1) tail
          tail_len in
      (true, stringbuffer_finish_append (set_buffer_chars chars b1)
               (size_add 1 tail_len))
  | (None, _, b1) => (false, b1)
  end.

(** [stringbuffer_minimize]; [env] answers its [realloc], if there is
    one. *)
Definition stringbuffer_minimize (b : StringBuffer)
    (env : realloc_result ascii) : StringBuffer :=
  let min_size :=
    if 0 <? string_len b then size_add (string_len b) 1 else 0 in
  let b1 := set_undo_len (string_len b) b in
  if min_size <? buffer_size b1 then (realloc_buffer b1 min_size env).2
  else b1.

End WithSizeT.

(** *** Specification-level definitions *)

(** The buffer holds the string [s], terminated, in storage of the size it
    records; without storage it holds the empty string. *)
Definition holds `{SizeT} (b : StringBuffer) (s : list ascii) : Prop :=
  buffer_size b ≤ SIZE_MAX
  ∧ string_len b = length s
  ∧ Forall (λ c, c ≠ Ascii.zero) s
  ∧ match buffer b with
    | Some chars =>
        length chars = buffer_size b ∧ length s < buffer_size b
        ∧ take (length s) chars = s ∧ chars !!! length s = Ascii.zero
    | None => buffer_size b = 0 ∧ s = []
    end.

(** The characters of the C string [tail], up to its terminator. *)
Fixpoint chars_of (tail : string) : list ascii :=
  match tail with
  | EmptyString => []
  | String c rest =>
      if (char_code c =? 0)%Z then [] else c :: chars_of rest
  end.

End StringBuff.

(** ** [StrDict.h], [StrDict.c], [StrDictVIt.c] *)
Module StrDict.
Import StringBuff.

Record StrDictItem : Type := {
  key : charp;
  value : voidp;
}.

#[global] Instance StrDictItem_inhabited : Inhabited StrDictItem :=
  populate {| key := inhabitant; value := NULL |}.

(** What [dict->sought_key] can hold: null, the pointer
    [stringbuffer_get_pointer(&dict->buffer)] returned, or a pointer of the
    caller. *)
Inductive sought_ptr : Type :=
| SoughtNull
| SoughtBuffer
| SoughtCaller (p : charp).

Record StrDict : Type := {
  nalloc : nat;
  nitems : nat;
  buffer : StringBuffer;
  sought_key : sought_ptr;
  array : option (list StrDictItem);
  candidate : option nat;
}.

Definition set_candidate (c : option nat) (dict : StrDict) : StrDict :=
  {| nalloc := nalloc dict; nitems := nitems dict; buffer := buffer dict;
     sought_key := sought_key dict; array := array dict; candidate := c |}.

Definition set_sought_key (p : sought_ptr) (dict : StrDict) : StrDict :=
  {| nalloc := nalloc dict; nitems := nitems dict; buffer := buffer dict;
     sought_key := p; array := array dict; candidate := candidate dict |}.

Definition set_buffer (b : StringBuffer) (dict : StrDict) : StrDict :=
  {| nalloc := nalloc dict; nitems := nitems dict; buffer := b;
     sought_key := sought_key dict; array := array dict;
     candidate := candidate dict |}.

Definition ArrayInitSize : nat := 4.
Definition ArrayGrowthFactor : nat := 2.

(** [*dict = (StrDict){0}; stringbuffer_init(&dict->buffer);] *)
Definition strdict_init : StrDict :=
  {| nalloc := 0; nitems := 0;
     buffer := stringbuffer_init
                 {| buffer_size := 0; string_len := 0; StringBuff.buffer := None;
                    undo_len := 0; undo_char := Ascii.zero |};
     sought_key := SoughtNull; array := None; candidate := None |}.

Definition slots (dict : StrDict) : list StrDictItem :=
  default [] (array dict).

(** The string read through [STRING_OR_NULL(dict->sought_key)]. *)
Definition sought_text (dict : StrDict) : string :=
  match sought_key dict with
  | SoughtNull => EmptyString
  | SoughtBuffer => stringbuffer_get_pointer (buffer dict)
  | SoughtCaller p => text p
  end.

(** [dict->sought_key == key]; the buffer's storage is not the caller's. *)
Definition sought_key_is (dict : StrDict) (k : charp) : bool :=
  match sought_key dict with
  | SoughtCaller p => (address p =? address k)%N
  | SoughtBuffer | SoughtNull => false
  end.

Definition compare_key_n_item (dict : StrDict) (item : nat) : Z * StrDict :=
  let dict' := set_candidate (Some item) dict in
  (stricmp (sought_text dict) (text (key (slots dict !!! item))), dict').

Section WithSizeT.
Context `{SizeT}.

(** The part of [strdict_bisect_left] in front of its last [if]: the search
    with the cache as the search leaves it. *)
Definition bisect_left_search (dict : StrDict) (k : charp)
    (env : realloc_result ascii) : nat * StrDict :=
  match array dict with
  | None => (0, dict)
  | Some array =>
      if 0 <? nitems dict then
        let dict1 :=
          match candidate dict with
          | Some _ =>
              if (stricmp (sought_text dict) (text k) =? 0)%Z then dict
              else set_candidate None dict
          | None => dict
          end in
        let dict2 :=
          match candidate dict1 with
          | None =>
              let truncated := stringbuffer_truncate (buffer dict1) 0 in
              let '(copied, buffer') :=
                stringbuffer_append_all truncated (text k) env in
              let dict1' :=
                set_sought_key
                  (if copied then SoughtBuffer else SoughtCaller k)
                  (set_buffer buffer' dict1) in
              snd (bsearch compare_key_n_item dict1' (nitems dict1'))
          | Some _ => dict1
          end in
        match candidate dict2 with
        | Some c =>
            if (stricmp (text (key (array !!! c))) (text k) <? 0)%Z then
              (scan_forward
                 (λ i, (stricmp (text (key (array !!! i))) (text k) <? 0)%Z)
                 (nitems dict2) (nitems dict2) c, dict2)
            else
              (scan_backward
                 (λ i, (stricmp (text (key (array !!! i))) (text k) >=? 0)%Z)
                 c, dict2)
        | None => (0, dict2)
        end
      else (0, dict)
  end.

(** [if (dict->sought_key == key) { dict->sought_key = NULL;
    dict->candidate = NULL; }], executed when [dict->array] is not null and
    [dict->nitems > 0]. *)
Definition forget_borrowed_key (dict : StrDict) (k : charp) : StrDict :=
  match array dict with
  | None => dict
  | Some _ =>
      if 0 <? nitems dict then
        if sought_key_is dict k
        then set_candidate None (set_sought_key SoughtNull dict)
        else dict
      else dict
  end.

Definition strdict_bisect_left (dict : StrDict) (k : charp)
    (env : realloc_result ascii) : nat * StrDict :=
  let '(index, dict') := bisect_left_search dict k env in
  (index, forget_borrowed_key dict' k).

Definition strdict_bisect_right (dict : StrDict) (k : charp)
    (env : realloc_result ascii) : nat * StrDict :=
  match array dict with
  | None => (0, dict)
  | Some array =>
      let '(index, dict1) := strdict_bisect_left dict k env in
      (scan_right
         (λ i, (stricmp (text (key (array !!! i))) (text k) <=? 0)%Z)
         (nitems dict1) (nitems dict1) index, dict1)
  end.

Definition strdict_find (dict : StrDict) (k : charp)
    (env : realloc_result ascii) : bool * option nat * StrDict :=
  let '(index, dict1) := strdict_bisect_left dict k env in
  match array dict1 with
  | None => (false, None, dict1)
  | Some array =>
      if (nitems dict1 <=? index)
         || negb (stricmp (text (key (array !!! index))) (text k) =? 0)%Z
      then (false, None, dict1)
      else (true, Some index, dict1)
  end.

(** [while (diff == 0 && array[index].value != value &&
           index + 1 < dict->nitems)
     { ++index; diff = stricmp(array[index].key, key); }]; the result is
    [(index, diff)]. *)
Fixpoint find_specific_loop (array : list StrDictItem) (k : charp)
    (v : voidp) (nitems : nat) (fuel : nat) (index : nat) (diff : Z)
    : nat * Z :=
  match fuel with
  | 0 => (index, diff)
  | S fuel' =>
      if (diff =? 0)%Z
         && negb (value (array !!! index) =? v)%N
         && (index + 1 <? nitems)
      then find_specific_loop array k v nitems fuel' (index + 1)
             (stricmp (text (key (array !!! (index + 1)))) (text k))
      else (index, diff)
  end.

Definition strdict_find_specific (dict : StrDict) (k : charp) (v : voidp)
    (env : realloc_result ascii) : bool * option nat * StrDict :=
  match array dict with
  | None => (false, None, dict)
  | Some array =>
      let '(index0, dict1) := strdict_bisect_left dict k env in
      if nitems dict1 <=? index0 then (false, None, dict1)
      else
        let diff0 := stricmp (text (key (array !!! index0))) (text k) in
        if negb (diff0 =? 0)%Z then (false, None, dict1)
        else
          let '(index, diff) :=
            find_specific_loop array k v (nitems dict1) (nitems dict1)
              index0 diff0 in
          if negb (diff =? 0)%Z || negb (value (array !!! index) =? v)%N
          then (false, None, dict1)
          else (true, Some index, dict1)
  end.

Definition strdict_remove_at (dict : StrDict) (index : nat) : StrDict :=
  match array dict with
  | None => dict
  | Some array =>
      let nitems' := size_dec (nitems dict) in
      {| nalloc := nalloc dict;
         nitems := nitems';
         buffer := buffer dict;
         sought_key := sought_key dict;
         array := Some (shift_down array nitems' (nitems' - index) index);
         candidate := None |}
  end.

Definition strdict_remove_value_at (dict : StrDict) (index : nat)
    : voidp * StrDict :=
  let v :=
    match array dict with
    | Some array => value (array !!! index)
    | None => NULL
    end in
  (v, strdict_remove_at dict index).

Definition new_size (nalloc : nat) : nat :=
  if 0 <? nalloc then
    if nalloc <? SIZE_MAX / ArrayGrowthFactor
    then nalloc * ArrayGrowthFactor
    else SIZE_MAX
  else ArrayInitSize.

(** [benv] answers the [realloc] of the key buffer, [env] that of the
    array. *)
Definition strdict_insert (dict : StrDict) (k : charp) (v : voidp)
    (benv : realloc_result ascii) (env : realloc_result StrDictItem)
    : bool * option nat * StrDict :=
  let '(ins_index, dict1) := strdict_bisect_left dict k benv in
  let n := nitems dict1 in
  let grown : option StrDict :=
    if n =? nalloc dict1 then
      if nalloc dict1 =? SIZE_MAX then None
      else
        match realloc (array dict1) (new_size (nalloc dict1)) env with
        | None => None
        | Some new_array =>
            Some {| nalloc := new_size (nalloc dict1);
                    nitems := nitems dict1;
                    buffer := buffer dict1;
                    sought_key := sought_key dict1;
                    array := Some new_array;
                    candidate := candidate dict1 |}
        end
    else Some dict1 in
  match grown with
  | None => (false, None, dict1)
  | Some dict2 =>
      match array dict2 with
      | None => (false, None, dict2)
      | Some array =>
          let shifted := shift_up array ins_index n in
          (true, Some ins_index,
           {| nalloc := nalloc dict2;
              nitems := nitems dict2 + 1;
              buffer := buffer dict2;
              sought_key := sought_key dict2;
              array := Some (<[ins_index := {| key := k; value := v |}]>
                               shifted);
              candidate := None |})
      end
  end.

End WithSizeT.

(** *** Inline functions of [StrDict.h] *)

Definition strdict_count (dict : StrDict) : nat := nitems dict.

Definition strdict_get_key_at (dict : StrDict) (index : nat) : charp :=
  key (slots dict !!! index).

Definition strdict_get_value_at (dict : StrDict) (index : nat) : voidp :=
  value (slots dict !!! index).

(** *** The value iterator ([StrDictVIt.c]) *)
Record StrDictVIter : Type := {
  next_index : nat;
  end_ : nat;
}.

Definition strdictviter_advance (iter : StrDictVIter) (dict : StrDict)
    : voidp * StrDictVIter :=
  if next_index iter <? end_ iter then
    (strdict_get_value_at dict (next_index iter),
     {| next_index := next_index iter + 1; end_ := end_ iter |})
  else (NULL, iter).

Section WithSizeT.
Context `{SizeT}.

(** [env1] and [env2] answer the buffer [realloc] of the first and of the
    second bisect call. *)
Definition strdictviter_init (dict : StrDict) (min_key max_key : charp)
    (env1 env2 : realloc_result ascii) : voidp * StrDictVIter * StrDict :=
  let '(first, dict1) := strdict_bisect_left dict min_key env1 in
  let '(last, dict2) := strdict_bisect_right dict1 max_key env2 in
  let iter := {| next_index := first; end_ := last |} in
  let '(v, iter') := strdictviter_advance iter dict2 in
  (v, iter', dict2).

Definition strdictviter_all_init (dict : StrDict) : voidp * StrDictVIter :=
  let iter := {| next_index := 0; end_ := strdict_count dict |} in
  strdictviter_advance iter dict.

Definition strdictviter_remove (iter : StrDictVIter) (dict : StrDict)
    : nat * StrDictVIter * StrDict :=
  let end' := size_dec (end_ iter) in
  let index := size_dec (next_index iter) in
  (index, {| next_index := index; end_ := end' |},
   strdict_remove_at dict index).

End WithSizeT.

(** *** Specification-level definitions *)

Definition entries (dict : StrDict) : list StrDictItem :=
  take (nitems dict) (slots dict).

(** The ordering the [assert]s at the end of [strdict_insert] and
    [strdict_remove_at] check. *)
Definition sorted (dict : StrDict) : Prop :=
  ∀ i, i + 1 < nitems dict →
       (stricmp (text (key (slots dict !!! i)))
                (text (key (slots dict !!! S i))) ≤ 0)%Z.


(** Representation invariant, as it holds between calls. *)
Record wf `{SizeT} (dict : StrDict) : Prop := {
  wf_nitems : nitems dict ≤ nalloc dict;
  wf_nalloc : nalloc dict ≤ SIZE_MAX;
  wf_array :
    match array dict with
    | Some array => length array = nalloc dict
    | None => nalloc dict = 0
    end;
  wf_candidate :
    ∀ c, candidate dict = Some c →
         c < nitems dict ∧ sought_key dict = SoughtBuffer;
  wf_sought : ∀ p, sought_key dict ≠ SoughtCaller p;
  wf_sorted : sorted dict;
}.

Definition same_store (dict dict' : StrDict) : Prop :=
  nalloc dict = nalloc dict' ∧ nitems dict = nitems dict'
  ∧ array dict = array dict'.


(** The local linear correction of [strdict_bisect_left], started at slot
    [c] of an array holding [n] items. *)
Definition correct_from (array : list StrDictItem) (n : nat) (k : charp)
    (c : nat) : nat :=
  if (stricmp (text (key (array !!! c))) (text k) <? 0)%Z then
    scan_forward
      (λ i, (stricmp (text (key (array !!! i))) (text k) <? 0)%Z) n n c
  else
    scan_backward
      (λ i, (stricmp (text (key (array !!! i))) (text k) >=? 0)%Z) c.

Section WithSizeT.
Context `{SizeT}.

(** The cache as the first half of [strdict_bisect_left] leaves it. *)
Definition refreshed (dict : StrDict) (k : charp)
    (env : realloc_result ascii) : StrDict :=
  let dict1 :=
    match candidate dict with
    | Some _ =>
        if (stricmp (sought_text dict) (text k) =? 0)%Z then dict
        else set_candidate None dict
    | None => dict
    end in
  match candidate dict1 with
  | None =>
      let truncated := stringbuffer_truncate (buffer dict1) 0 in
      let '(copied, buffer') :=
        stringbuffer_append_all truncated (text k) env in
      let dict1' :=
        set_sought_key (if copied then SoughtBuffer else SoughtCaller k)
          (set_buffer buffer' dict1) in
      snd (bsearch compare_key_n_item dict1' (nitems dict1'))
  | Some _ => dict1
  end.

(** [strdict_bisect_left] does not reuse the cached candidate for [k]. *)
Definition cache_miss (dict : StrDict) (k : charp) : bool :=
  match candidate dict with
  | Some _ => negb (stricmp (sought_text dict) (text k) =? 0)%Z
  | None => true
  end.

(** The defensive copy of [k] that [strdict_bisect_left] attempts on a
    cache miss. *)
Definition copy_key (dict : StrDict) (k : charp)
    (env : realloc_result ascii) : bool * StringBuffer :=
  stringbuffer_append_all (stringbuffer_truncate (buffer dict) 0) (text k)
    env.

(** The search with the cache disabled. *)
Definition strdict_bisect_left_uncached (dict : StrDict) (k : charp)
    (env : realloc_result ascii) : nat * StrDict :=
  strdict_bisect_left (set_candidate None dict) k env.

Definition strdict_bisect_right_uncached (dict : StrDict) (k : charp)
    (env : realloc_result ascii) : nat * StrDict :=
  strdict_bisect_right (set_candidate None dict) k env.

Definition strdict_find_uncached (dict : StrDict) (k : charp)
    (env : realloc_result ascii) : bool * option nat * StrDict :=
  strdict_find (set_candidate None dict) k env.

Definition insert_refused (dict : StrDict)
    (env : realloc_result StrDictItem) : Prop :=
  nitems dict = nalloc dict
  ∧ (nalloc dict = SIZE_MAX ∨ env = ReallocFail).

(** The calls a client can make, with the allocator's answers. *)
Inductive op : Type :=
| BisectLeft (k : charp) (benv : realloc_result ascii)
| BisectRight (k : charp) (benv : realloc_result ascii)
| Find (k : charp) (benv : realloc_result ascii)
| FindSpecific (k : charp) (v : voidp) (benv : realloc_result ascii)
| Insert (k : charp) (v : voidp) (benv : realloc_result ascii)
    (env : realloc_result StrDictItem)
| RemoveAt (index : nat)
| RemoveValueAt (index : nat).

Inductive outcome : Type :=
| Index (i : nat)
| Found (success : bool) (pos : option nat)
| Value (v : voidp)
| Done.

(** One call; [None] when the call violates its [assert(index <
    dict->nitems)]. *)
Definition step (dict : StrDict) (o : op) : option (outcome * StrDict) :=
  match o with
  | BisectLeft k benv =>
      let '(i, dict') := strdict_bisect_left dict k benv in
      Some (Index i, dict')
  | BisectRight k benv =>
      let '(i, dict') := strdict_bisect_right dict k benv in
      Some (Index i, dict')
  | Find k benv =>
      let '(found, pos, dict') := strdict_find dict k benv in
      Some (Found found pos, dict')
  | FindSpecific k v benv =>
      let '(found, pos, dict') := strdict_find_specific dict k v benv in
      Some (Found found pos, dict')
  | Insert k v benv env =>
      let '(ok, pos, dict') := strdict_insert dict k v benv env in
      Some (Found ok pos, dict')
  | RemoveAt index =>
      if index <? nitems dict then Some (Done, strdict_remove_at dict index)
      else None
  | RemoveValueAt index =>
      if index <? nitems dict then
        let '(v, dict') := strdict_remove_value_at dict index in
        Some (Value v, dict')
      else None
  end.

(** The dictionaries a client can obtain. *)
Inductive reachable : StrDict → Prop :=
| reachable_init : reachable strdict_init
| reachable_step dict o out dict' :
    reachable dict → step dict o = Some (out, dict') → reachable dict'.

End WithSizeT.

(** *** Further inline functions of [StrDict.h] *)

Section WithSizeT.
Context `{SizeT}.

Definition strdict_find_value (dict : StrDict) (k : charp)
    (env : realloc_result ascii) : voidp * option nat * StrDict :=
  match strdict_find dict k env with
  | (true, Some pos, dict1) => (strdict_get_value_at dict1 pos, Some pos, dict1)
  | (_, _, dict1) => (NULL, None, dict1)
  end.

Definition strdict_remove (dict : StrDict) (k : charp)
    (env : realloc_result ascii) : bool * option nat * StrDict :=
  match strdict_find dict k env with
  | (true, Some pos, dict1) => (true, Some pos, strdict_remove_at dict1 pos)
  | (_, _, dict1) => (false, None, dict1)
  end.

Definition strdict_remove_value (dict : StrDict) (k : charp)
    (env : realloc_result ascii) : voidp * option nat * StrDict :=
  match strdict_find dict k env with
  | (true, Some pos, dict1) =>
      let '(v, dict2) := strdict_remove_value_at dict1 pos in
      (v, Some pos, dict2)
  | (_, _, dict1) => (NULL, None, dict1)
  end.

Definition strdict_remove_specific (dict : StrDict) (k : charp) (v : voidp)
    (env : realloc_result ascii) : bool * option nat * StrDict :=
  match strdict_find_specific dict k v env with
  | (true, Some pos, dict1) => (true, Some pos, strdict_remove_at dict1 pos)
  | (_, _, dict1) => (false, None, dict1)
  end.

End WithSizeT.

(** *** [strdict_destroy]

    The destructor is a function of the client, as for the integer
    dictionary; the key buffer and the array are freed afterwards, so
    that no dictionary is handed back. *)
Fixpoint destroy_loop {C : Type} (destructor : charp → voidp → C → C)
    (array : list StrDictItem) (nitems : nat) (fuel : nat) (i : nat)
    (arg : C) : C :=
  match fuel with
  | 0 => arg
  | S fuel' =>
      if i <? nitems then
        destroy_loop destructor array nitems fuel' (i + 1)
          (destructor (key (array !!! i)) (value (array !!! i)) arg)
      else arg
  end.

Definition strdict_destroy {C : Type} (dict : StrDict)
    (destructor : option (charp → voidp → C → C)) (arg : C) : C :=
  match destructor, array dict with
  | Some destructor, Some array =>
      destroy_loop destructor array (nitems dict) (nitems dict) 0 arg
  | _, _ => arg
  end.

(** *** Loops of the tests ([StrDicTest.c]) *)

(** The destructor of the tests, [record_callbacks]: it appends what it is
    called with to the array [callbacks]. *)
Definition record_callbacks (k : charp) (v : voidp)
    (callbacks : list (charp * voidp)) : list (charp * voidp) :=
  callbacks ++ [(k, v)].

(** test39:
    [for (value = strdictviter_init(&iter, &dict, min_key, max_key);
          value != NULL; value = strdictviter_advance(&iter))
     { got_values[vcount++] = value; }]; the result is [got_values]. *)
Fixpoint collect_from (fuel : nat) (v : voidp) (iter : StrDictVIter)
    (dict : StrDict) : list voidp :=
  match fuel with
  | 0 => []
  | S fuel' =>
      if (v =? NULL)%N then []
      else
        let '(v', iter') := strdictviter_advance iter dict in
        v :: collect_from fuel' v' iter' dict
  end.

Section WithSizeT.
Context `{SizeT}.

Definition collect_range (dict : StrDict) (min_key max_key : charp)
    (env1 env2 : realloc_result ascii) : list voidp * StrDict :=
  let '(v, iter, dict') := strdictviter_init dict min_key max_key env1 env2 in
  (collect_from (nitems dict' + 1) v iter dict', dict').

(** test40:
    [for (value = strdictviter_all_init(&iter, &dict); value != NULL;
          value = strdictviter_advance(&iter), ++count)
     { if (selected(count)) strdictviter_remove(&iter); }]; the result
    lists the values the loop body saw. *)
Fixpoint iterate_from (selected : nat → bool) (fuel : nat) (v : voidp)
    (iter : StrDictVIter) (dict : StrDict) (count : nat)
    : list voidp * StrDictVIter * StrDict :=
  match fuel with
  | 0 => ([], iter, dict)
  | S fuel' =>
      if (v =? NULL)%N then ([], iter, dict)
      else
        let '(iter1, dict1) :=
          if selected count then
            let '(_, iter', dict') := strdictviter_remove iter dict in
            (iter', dict')
          else (iter, dict) in
        let '(v', iter2) := strdictviter_advance iter1 dict1 in
        let '(seen, iter3, dict3) :=
          iterate_from selected fuel' v' iter2 dict1 (count + 1) in
        (v :: seen, iter3, dict3)
  end.

Definition iterate_all (selected : nat → bool) (dict : StrDict)
    : list voidp * StrDictVIter * StrDict :=
  let '(v, iter) := strdictviter_all_init dict in
  iterate_from selected (nitems dict + 1) v iter dict 0.

End WithSizeT.

End StrDict.

(** ** A platform and dictionaries to run the model on *)
Module Samples.

(** A platform whose [size_t] has 16 bits. *)
Definition size16 : SizeT := {| SIZE_MAX := 2 ^ 16 - 1 |}.

(** The integer dictionary after inserting the keys 5, 3 and 7. *)
Definition int_calls : list IntDict.op :=
  [IntDict.Insert 5%Z 11%N (ReallocOk []); IntDict.Insert 3%Z 12%N (ReallocOk []);
   IntDict.Insert 7%Z 13%N (ReallocOk [])].

Definition int_sample : IntDict.IntDict :=
  {| IntDict.nalloc := 4;
     IntDict.nitems := 3;
     IntDict.sought_key := 7%Z;
     IntDict.array :=
       Some [ {| IntDict.key := 3%Z; IntDict.value := 12%N |};
              {| IntDict.key := 5%Z; IntDict.value := 11%N |};
              {| IntDict.key := 7%Z; IntDict.value := 13%N |};
              {| IntDict.key := 0%Z; IntDict.value := NULL |} ];
     IntDict.candidate := None |}.

Definition int_outs : list IntDict.outcome :=
  [IntDict.Found true (Some 0); IntDict.Found true (Some 0);
   IntDict.Found true (Some 2)].

(** [int_sample] after a search for the key 5: the cache names slot 1. *)
Definition int_warm : IntDict.IntDict :=
  {| IntDict.nalloc := 4;
     IntDict.nitems := 3;
     IntDict.sought_key := 5%Z;
     IntDict.array := IntDict.array int_sample;
     IntDict.candidate := Some 1 |}.



(** An integer dictionary holding the key 1 only. *)
Definition int_single : IntDict.IntDict :=
  {| IntDict.nalloc := 4;
     IntDict.nitems := 1;
     IntDict.sought_key := 1%Z;
     IntDict.array :=
       Some [ {| IntDict.key := 1%Z; IntDict.value := 10%N |};
              {| IntDict.key := 0%Z; IntDict.value := NULL |};
              {| IntDict.key := 0%Z; IntDict.value := NULL |};
              {| IntDict.key := 0%Z; IntDict.value := NULL |} ];
     IntDict.candidate := None |}.

(** An integer dictionary whose first entry has a null value. *)
Definition int_null_value : IntDict.IntDict :=
  {| IntDict.nalloc := 4;
     IntDict.nitems := 2;
     IntDict.sought_key := 2%Z;
     IntDict.array :=
       Some [ {| IntDict.key := 1%Z; IntDict.value := NULL |};
              {| IntDict.key := 2%Z; IntDict.value := 20%N |};
              {| IntDict.key := 0%Z; IntDict.value := NULL |};
              {| IntDict.key := 0%Z; IntDict.value := NULL |} ];
     IntDict.candidate := None |}.

Definition key_at (a : N) (s : string) : charp :=
  {| address := a; text := s |}.

(** The string dictionary of the tests after inserting "bison" and
    "Aardvark". *)
Definition str_calls : list StrDict.op :=
  [StrDict.Insert (key_at 100%N "bison") 11%N (ReallocOk []) (ReallocOk []);
   StrDict.Insert (key_at 200%N "Aardvark") 12%N (ReallocOk []) (ReallocOk [])].

Definition str_sample : StrDict.StrDict :=
  {| StrDict.nalloc := 4;
     StrDict.nitems := 2;
     StrDict.buffer :=
       {| StringBuff.buffer_size := 9;
          StringBuff.string_len := 8;
          StringBuff.buffer :=
            Some (list_ascii_of_string "Aardvark" ++ [Ascii.zero]);
          StringBuff.undo_len := 0;
          StringBuff.undo_char := Ascii.zero |};
     StrDict.sought_key := StrDict.SoughtBuffer;
     StrDict.array :=
       Some [ {| StrDict.key := key_at 200%N "Aardvark"; StrDict.value := 12%N |};
              {| StrDict.key := key_at 100%N "bison"; StrDict.value := 11%N |};
              {| StrDict.key := inhabitant; StrDict.value := NULL |};
              {| StrDict.key := inhabitant; StrDict.value := NULL |} ];
     StrDict.candidate := None |}.

(** A string dictionary whose first entry has a null value. *)
Definition str_null_value : StrDict.StrDict :=
  {| StrDict.nalloc := 4;
     StrDict.nitems := 2;
     StrDict.buffer := StrDict.buffer str_sample;
     StrDict.sought_key := StrDict.SoughtBuffer;
     StrDict.array :=
       Some [ {| StrDict.key := key_at 200%N "Aardvark";
                 StrDict.value := NULL |};
              {| StrDict.key := key_at 100%N "bison"; StrDict.value := 11%N |};
              {| StrDict.key := inhabitant; StrDict.value := NULL |};
              {| StrDict.key := inhabitant; StrDict.value := NULL |} ];
     StrDict.candidate := None |}.

(** [int_sample] after inserting the key 4 in front of the key 5. *)
Definition int_inserted : IntDict.IntDict :=
  {| IntDict.nalloc := 4;
     IntDict.nitems := 4;
     IntDict.sought_key := 4%Z;
     IntDict.array :=
       Some [ {| IntDict.key := 3%Z; IntDict.value := 12%N |};
              {| IntDict.key := 4%Z; IntDict.value := 15%N |};
              {| IntDict.key := 5%Z; IntDict.value := 11%N |};
              {| IntDict.key := 7%Z; IntDict.value := 13%N |} ];
     IntDict.candidate := None |}.

(** The destructor of a client that counts the entries and adds up their
    keys. *)
Definition count_and_sum (k : IntDict.IntDictKey) (v : voidp)
    (acc : nat * Z) : nat * Z :=
  (acc.1 + 1, (acc.2 + k)%Z).

(** The key buffer of [str_sample]: it holds "Aardvark". *)
Definition buffer_sample : StringBuff.StringBuffer :=
  StrDict.buffer str_sample.

(** [str_sample] after inserting "camel" behind "bison". *)
Definition str_inserted : StrDict.StrDict :=
  {| StrDict.nalloc := 4;
     StrDict.nitems := 3;
     StrDict.buffer :=
       {| StringBuff.buffer_size := 9;
          StringBuff.string_len := 5;
          StringBuff.buffer :=
            Some (list_ascii_of_string "camel" ++ [Ascii.zero]
                  ++ list_ascii_of_string "rk" ++ [Ascii.zero]);
          StringBuff.undo_len := 0;
          StringBuff.undo_char := "a"%char |};
     StrDict.sought_key := StrDict.SoughtBuffer;
     StrDict.array :=
       Some [ {| StrDict.key := key_at 200%N "Aardvark";
                 StrDict.value := 12%N |};
              {| StrDict.key := key_at 100%N "bison"; StrDict.value := 11%N |};
              {| StrDict.key := key_at 300%N "camel"; StrDict.value := 13%N |};
              {| StrDict.key := inhabitant; StrDict.value := NULL |} ];
     StrDict.candidate := None |}.

End Samples.

(** * Properties of the shared loops *)

Ltac case_test :=
  match goal with
  | |- context [if ?b then _ else _] =>
      lazymatch type of b with
      | bool => let E := fresh "E" in destruct b eqn:E
      end
  end.

Ltac bool_to_prop :=
  repeat match goal with
  | H : (_ && _) = true |- _ => apply andb_true_iff in H; destruct H
  | H : (_ && _) = false |- _ => apply andb_false_iff in H
  | H : (_ || _) = true |- _ => apply orb_true_iff in H
  | H : (_ || _) = false |- _ => apply orb_false_iff in H; destruct H
  | H : negb _ = true |- _ => apply negb_true_iff in H
  | H : negb _ = false |- _ => apply negb_false_iff in H
  | H : (_ <? _) = true |- _ => apply Nat.ltb_lt in H
  | H : (_ <? _) = false |- _ => apply Nat.ltb_ge in H
  | H : (_ <=? _) = true |- _ => apply Nat.leb_le in H
  | H : (_ <=? _) = false |- _ => apply Nat.leb_gt in H
  | H : (_ =? _) = true |- _ => apply Nat.eqb_eq in H
  | H : (_ =? _) = false |- _ => apply Nat.eqb_neq in H
  | H : (_ <? _)%Z = true |- _ => apply Z.ltb_lt in H
  | H : (_ <? _)%Z = false |- _ => apply Z.ltb_ge in H
  | H : (_ <=? _)%Z = true |- _ => apply Z.leb_le in H
  | H : (_ <=? _)%Z = false |- _ => apply Z.leb_gt in H
  | H : (_ >=? _)%Z = true |- _ => rewrite Z.geb_leb in H
  | H : (_ >=? _)%Z = false |- _ => rewrite Z.geb_leb in H
  | H : (_ >? _)%Z = true |- _ => rewrite Z.gtb_ltb in H
  | H : (_ >? _)%Z = false |- _ => rewrite Z.gtb_ltb in H
  | H : (_ =? _)%Z = true |- _ => apply Z.eqb_eq in H
  | H : (_ =? _)%Z = false |- _ => apply Z.eqb_neq in H
  | H : (_ =? _)%N = true |- _ => apply N.eqb_eq in H
  | H : (_ =? _)%N = false |- _ => apply N.eqb_neq in H
  end.

Section Scans.
Variable low : nat → bool.
Variable n : nat.

Lemma partition_point_unique (b1 b2 : nat) :
  partition_point low n b1 → partition_point low n b2 → b1 = b2.
Proof.
  intros (Hn1 & Hlo1 & Hhi1) (Hn2 & Hlo2 & Hhi2).
  destruct (Nat.lt_trichotomy b1 b2) as [Hlt | [Heq | Hgt]]; [| done |].
  - pose proof (Hlo2 b1 Hlt) as Ht.
    rewrite (Hhi1 b1) in Ht by lia. discriminate.
  - pose proof (Hlo1 b2 Hgt) as Ht.
    rewrite (Hhi2 b2) in Ht by lia. discriminate.
Qed.

(** The forward scan stops at the first slot above [c] that is not low. *)
Lemma scan_forward_stops (fuel c : nat) :
  n ≤ fuel + c + 1 →
  let r := scan_forward low n fuel c in
  c < r ∧ (r ≤ n ∨ r = c + 1)
  ∧ (∀ i, c < i → i < r → low i = true)
  ∧ (r < n → low r = false).
Proof.
  revert c. induction fuel as [| fuel IH]; intros c Hfuel; simpl.
  - repeat split; intros; lia.
  - case_test.
    + bool_to_prop.
      destruct (IH (c + 1)) as (Hlt & Hle & Hlow & Hstop); [lia |].
      split; [lia |]. split; [lia |]. split; [| done].
      intros i Hci Hir. destruct (decide (i = c + 1)) as [-> | Hne]; [done |].
      apply Hlow; lia.
    + repeat split; intros; try lia.
      bool_to_prop. destruct E as [E | E]; [| done].
        bool_to_prop. lia.
Qed.

(** The backward scan stops at the first slot below which a low one sits. *)
Lemma scan_backward_stops (high : nat → bool) (c : nat) :
  let r := scan_backward high c in
  r ≤ c
  ∧ (∀ i, r ≤ i → i < c → high i = true)
  ∧ (∀ p, r = S p → high p = false).
Proof.
  induction c as [| c IH]; simpl.
  - repeat split; intros; lia.
  - case_test.
    + destruct IH as (Hle & Hhigh & Hstop).
      repeat split; [lia | | done].
      intros i Hri Hic. destruct (decide (i = c)) as [-> | Hne]; [done |].
      apply Hhigh; lia.
    + repeat split; [lia | intros; lia |].
      intros p [= <-]. done.
Qed.

Lemma scan_right_stops (le : nat → bool) (fuel index : nat) :
  n ≤ fuel + index →
  let r := scan_right le n fuel index in
  index ≤ r ∧ (r ≤ n ∨ r = index)
  ∧ (∀ i, index ≤ i → i < r → le i = true)
  ∧ (r < n → le r = false).
Proof.
  revert index. induction fuel as [| fuel IH]; intros index Hfuel; simpl.
  - repeat split; intros; lia.
  - case_test.
    + bool_to_prop.
      destruct (IH (index + 1)) as (Hlt & Hle & Hlow & Hstop); [lia |].
      split; [lia |]. split; [lia |]. split; [| done].
      intros i Hci Hir. destruct (decide (i = index)) as [-> | Hne]; [done |].
      apply Hlow; lia.
    + repeat split; intros; try lia.
      bool_to_prop. destruct E as [E | E]; [| done].
        bool_to_prop. lia.
Qed.

(** On a sorted array [low] is downward closed. *)
Hypothesis low_closed : ∀ i j, i ≤ j → j < n → low j = true → low i = true.

Lemma scan_forward_partition (c : nat) :
  c < n → low c = true →
  partition_point low n (scan_forward low n n c).
Proof.
  intros Hc Hlow.
  destruct (scan_forward_stops n c) as (Hlt & Hle & Hbelow & Hstop); [lia |].
  set (r := scan_forward low n n c) in *.
  split; [lia |]. split.
  - intros i Hi. destruct (decide (i ≤ c)) as [Hic | Hic].
    + by apply (low_closed i c).
    + apply Hbelow; lia.
  - intros i Hri Hin.
    destruct (low i) eqn:Hi; [| done].
    rewrite (low_closed r i) in Hstop by done.
    discriminate Hstop. lia.
Qed.

Lemma scan_backward_partition (high : nat → bool) (c : nat) :
  (∀ i, high i = negb (low i)) →
  c < n → low c = false →
  partition_point low n (scan_backward high c).
Proof.
  intros Hhigh Hc Hlow.
  destruct (scan_backward_stops high c) as (Hle & Habove & Hstop).
  set (r := scan_backward high c) in *.
  assert (Hr : low r = false).
  { destruct (decide (r = c)) as [-> | Hne]; [done |].
    specialize (Habove r). rewrite Hhigh in Habove.
    apply negb_true_iff, Habove; lia. }
  split; [lia |]. split.
  - intros i Hi. destruct r as [| p]; [lia |].
    specialize (Hstop p eq_refl). rewrite Hhigh in Hstop.
    apply negb_false_iff in Hstop.
    by apply (low_closed i p); [lia | lia |].
  - intros i Hri Hin.
    destruct (low i) eqn:Hi; [| done].
    rewrite (low_closed r i) in Hr by done. discriminate.
Qed.

(** From the boundary of [low], the right scan reaches that of [le]. *)
Lemma scan_right_partition (le : nat → bool) (b : nat) :
  (∀ i, low i = true → le i = true) →
  (∀ i j, i ≤ j → j < n → le j = true → le i = true) →
  partition_point low n b →
  partition_point le n (scan_right le n n b).
Proof.
  intros Himp Hclosed (Hbn & Hbelow & Habove).
  destruct (scan_right_stops le n b) as (Hlt & Hle & Hmid & Hstop); [lia |].
  set (r := scan_right le n n b) in *.
  split; [lia |]. split.
  - intros i Hi. destruct (decide (i < b)) as [Hib | Hib].
    + apply Himp, Hbelow, Hib.
    + apply Hmid; lia.
  - intros i Hri Hin.
    destruct (le i) eqn:Hi; [| done].
    rewrite (Hclosed r i) in Hstop by done.
    discriminate Hstop. lia.
Qed.

End Scans.

(** ** Arrays *)
Section Arrays.
Context {A : Type} `{Inhabited A}.

Lemma list_eq_total (l1 l2 : list A) :
  length l1 = length l2 →
  (∀ i, i < length l1 → l1 !!! i = l2 !!! i) →
  l1 = l2.
Proof.
  intros Hlen Hall. apply list_eq. intros i.
  destruct (decide (i < length l1)) as [Hi | Hi].
  - rewrite !list_lookup_lookup_total_lt by lia. f_equal. by apply Hall.
  - rewrite !lookup_ge_None_2 by lia. done.
Qed.

Lemma shift_up_length (array : list A) (ins_index i : nat) :
  length (shift_up array ins_index i) = length array.
Proof.
  revert array. induction i as [| p IH]; intros array; simpl; [done |].
  case_test; [| done]. by rewrite IH, length_insert.
Qed.

(** Slots [ins_index + 1 .. i] receive their left neighbour. *)
Lemma shift_up_lookup (array : list A) (ins_index i j : nat) :
  i < length array →
  shift_up array ins_index i !!! j =
    if decide (ins_index < j ∧ j ≤ i) then array !!! (j - 1) else array !!! j.
Proof.
  revert array. induction i as [| p IH]; intros array Hi; simpl.
  - case_decide; first [done | lia].
  - case_test; bool_to_prop.
    + rewrite IH by (rewrite length_insert; lia).
      rewrite !list_lookup_total_insert.
      repeat case_decide; try lia; try done.
      all: f_equal; lia.
    + clear IH. case_decide; first [done | lia].
Qed.

Lemma shift_down_length (array : list A) (nitems fuel i : nat) :
  length (shift_down array nitems fuel i) = length array.
Proof.
  revert array i. induction fuel as [| fuel IH]; intros array i; simpl;
    [done |].
  case_test; [| done]. by rewrite IH, length_insert.
Qed.

(** Slots [i .. nitems - 1] receive their right neighbour. *)
Lemma shift_down_lookup (array : list A) (nitems fuel i j : nat) :
  nitems ≤ length array → nitems ≤ fuel + i →
  shift_down array nitems fuel i !!! j =
    if decide (i ≤ j ∧ j < nitems) then array !!! (j + 1) else array !!! j.
Proof.
  revert array i. induction fuel as [| fuel IH]; intros array i Hn Hfuel;
    simpl.
  - case_decide; first [done | lia].
  - case_test; bool_to_prop.
    + rewrite IH by (rewrite ?length_insert; lia).
      rewrite !list_lookup_total_insert.
      repeat case_decide; try lia; try done.
      all: f_equal; lia.
    + clear IH. case_decide; first [done | lia].
Qed.

(** The array after the loop of the insert functions and the store into
    the slot it freed. *)
Lemma shift_up_insert_lookup (array : list A) (ins_index n j : nat) (x : A) :
  n < length array → ins_index ≤ n →
  <[ins_index := x]> (shift_up array ins_index n) !!! j =
    if decide (j < ins_index) then array !!! j
    else if decide (j = ins_index) then x
    else if decide (j ≤ n) then array !!! (j - 1)
    else array !!! j.
Proof.
  intros Hn Hins.
  rewrite list_lookup_total_insert, shift_up_length, shift_up_lookup by done.
  repeat case_decide; try lia; done.
Qed.

Lemma shift_up_insert_take (array : list A) (ins_index n : nat) (x : A) :
  n < length array → ins_index ≤ n →
  take (S n) (<[ins_index := x]> (shift_up array ins_index n)) =
    insert_at ins_index x (take n array).
Proof.
  intros Hn Hins. unfold insert_at. apply list_eq_total.
  - rewrite length_app. cbn [length].
    rewrite !length_take, length_drop, length_insert, shift_up_length,
      length_take. lia.
  - intros i Hi.
    rewrite length_take, length_insert, shift_up_length in Hi.
    rewrite lookup_total_take_lt by lia.
    rewrite shift_up_insert_lookup by done.
    destruct (decide (i < ins_index)) as [Hlt | Hge].
    + rewrite lookup_total_app_l by (rewrite !length_take; lia).
      by rewrite !lookup_total_take_lt by lia.
    + rewrite lookup_total_app_r by (rewrite !length_take; lia).
      rewrite !length_take.
      replace (ins_index `min` (n `min` length array)) with ins_index by lia.
      destruct (decide (i = ins_index)) as [-> | Hne].
      * by rewrite Nat.sub_diag.
      * rewrite decide_True by lia.
        rewrite lookup_total_cons_ne_0 by lia.
        rewrite lookup_total_drop, lookup_total_take_lt by lia.
        f_equal. lia.
Qed.

(** The array after the loop of the remove functions. *)
Lemma shift_down_take (array : list A) (n index : nat) :
  n < length array → index ≤ n →
  take n (shift_down array n (n - index) index) =
    delete index (take (S n) array).
Proof.
  intros Hn Hindex. apply list_eq_total.
  - rewrite length_delete
      by (apply lookup_lt_is_Some; rewrite length_take; lia).
    rewrite !length_take, shift_down_length. lia.
  - intros i Hi. rewrite length_take, shift_down_length in Hi.
    rewrite lookup_total_take_lt by lia.
    rewrite shift_down_lookup by lia.
    rewrite list_lookup_total_delete.
    repeat case_decide; try lia.
    all: rewrite lookup_total_take_lt by lia; f_equal; lia.
Qed.

(** Counting the elements in front of a boundary. *)
Lemma filter_length_boundary (P : A → Prop) `{∀ x, Decision (P x)}
    (l : list A) (b : nat) :
  b ≤ length l →
  (∀ i, i < b → P (l !!! i)) →
  (∀ i, b ≤ i → i < length l → ¬ P (l !!! i)) →
  length (filter P l) = b.
Proof.
  revert b. induction l as [| x l IH]; intros b Hb Hbelow Habove.
  - simpl in Hb. by replace b with 0 by lia.
  - destruct b as [| b].
    + rewrite filter_cons_False by (apply (Habove 0); simpl; lia).
      apply IH; [lia | intros; lia |].
      intros i _ Hi. apply (Habove (S i)); simpl; lia.
    + rewrite filter_cons_True by (apply (Hbelow 0); lia).
      simpl. f_equal. apply IH; [simpl in Hb; lia | |].
      * intros i Hi. apply (Hbelow (S i)); lia.
      * intros i Hbi Hi. apply (Habove (S i)); simpl; lia.
Qed.

End Arrays.

(** ** [bsearch] *)

Lemma midpoint_bounds (l u : nat) : l < u → l ≤ (l + u) / 2 ∧ (l + u) / 2 < u.
Proof.
  intros Hlu. split.
  - apply Nat.div_le_lower_bound; lia.
  - apply Nat.Div0.div_lt_upper_bound; lia.
Qed.

Section Bsearch.
Context {St : Type}.
Variable compar : St → nat → Z * St.

(** The fuel [bsearch] starts with is enough: more changes nothing. *)
Lemma bsearch_loop_fuel (fuel fuel' : nat) (st : St) (l u : nat) :
  u - l ≤ fuel → u - l ≤ fuel' →
  bsearch_loop compar fuel st l u = bsearch_loop compar fuel' st l u.
Proof.
  revert fuel' st l u.
  induction fuel as [| fuel IH]; intros fuel' st l u Hf Hf'.
  - destruct fuel' as [| fuel']; cbn [bsearch_loop]; [done |].
    case_test; [bool_to_prop; lia | done].
  - destruct fuel' as [| fuel']; cbn [bsearch_loop].
    + case_test; [bool_to_prop; lia | done].
    + case_test; [| done]. bool_to_prop.
      destruct (midpoint_bounds l u) as [Hlo Hhi]; [done |].
      destruct (compar st ((l + u) / 2)) as [c st'].
      repeat case_test; try done; apply IH; lia.
Qed.

(** Whatever every comparison keeps, the search keeps; whatever every
    comparison establishes holds once one element has been probed. *)
Lemma bsearch_loop_invariant (Inv Probed : St → Prop) (n : nat) :
  (∀ st idx, idx < n → Inv st →
             Inv (compar st idx).2 ∧ Probed (compar st idx).2) →
  ∀ fuel st l u,
    u ≤ n → Inv st → Probed st ∨ (l < u ∧ 0 < fuel) →
    Inv (bsearch_loop compar fuel st l u).2
    ∧ Probed (bsearch_loop compar fuel st l u).2.
Proof.
  intros Hstep fuel.
  induction fuel as [| fuel IH]; intros st l u Hu Hinv Hprobed;
    cbn [bsearch_loop].
  - destruct Hprobed as [Hp | Hp]; [done | lia].
  - case_test; bool_to_prop.
    + destruct (midpoint_bounds l u) as [Hlo Hhi]; [done |].
      destruct (Hstep st ((l + u) / 2)) as [Hinv' Hprobed']; [lia | done |].
      destruct (compar st ((l + u) / 2)) as [c st']. cbn [snd] in *.
      repeat case_test; cbn [snd]; [apply IH | apply IH |]; auto with lia.
    + cbn [snd]. destruct Hprobed as [Hp | Hp]; [done | lia].
Qed.

Lemma bsearch_invariant (Inv Probed : St → Prop) (n : nat) (st : St) :
  (∀ st idx, idx < n → Inv st →
             Inv (compar st idx).2 ∧ Probed (compar st idx).2) →
  0 < n → Inv st →
  Inv (bsearch compar st n).2 ∧ Probed (bsearch compar st n).2.
Proof.
  intros Hstep Hn Hinv. unfold bsearch.
  apply (bsearch_loop_invariant Inv Probed n); auto with lia.
Qed.

End Bsearch.

(** * The integer dictionary *)
Module IntDictFacts.
Import IntDict.

Ltac lia_or_congruence :=
  repeat split; first [lia | congruence].

Section WithSizeT.
Context `{SizeT}.

Implicit Types (dict : IntDict) (k : IntDictKey) (v : voidp).

(** ** The array is ordered *)

Lemma sorted_le dict (i j : nat) :
  sorted dict → i ≤ j → j < nitems dict →
  (key (slots dict !!! i) ≤ key (slots dict !!! j))%Z.
Proof.
  intros Hsorted Hij Hj. induction j as [| j IH].
  - replace i with 0 by lia. lia.
  - destruct (decide (i = S j)) as [-> | Hne]; [lia |].
    etrans; [apply IH; lia |]. apply Hsorted. lia.
Qed.

Lemma below_closed dict k (i j : nat) :
  sorted dict → i ≤ j → j < nitems dict →
  (key (slots dict !!! j) <? k)%Z = true →
  (key (slots dict !!! i) <? k)%Z = true.
Proof.
  intros Hsorted Hij Hj Hlow. bool_to_prop. apply Z.ltb_lt.
  pose proof (sorted_le dict i j Hsorted Hij Hj). lia.
Qed.

Lemma not_above_closed dict k (i j : nat) :
  sorted dict → i ≤ j → j < nitems dict →
  (key (slots dict !!! j) <=? k)%Z = true →
  (key (slots dict !!! i) <=? k)%Z = true.
Proof.
  intros Hsorted Hij Hj Hlow. bool_to_prop. apply Z.leb_le.
  pose proof (sorted_le dict i j Hsorted Hij Hj). lia.
Qed.

(** ** The search cache *)

Lemma same_store_refl dict : same_store dict dict.
Proof. done. Qed.

Lemma same_store_trans dict1 dict2 dict3 :
  same_store dict1 dict2 → same_store dict2 dict3 → same_store dict1 dict3.
Proof. intros (? & ? & ?) (? & ? & ?). repeat split; congruence. Qed.

Lemma same_store_sym dict1 dict2 :
  same_store dict1 dict2 → same_store dict2 dict1.
Proof. intros (? & ? & ?). done. Qed.

Lemma same_store_slots dict dict' :
  same_store dict dict' → slots dict' = slots dict.
Proof. intros (_ & _ & Harr). unfold slots. by rewrite Harr. Qed.

Lemma same_store_sorted dict dict' :
  same_store dict dict' → sorted dict → sorted dict'.
Proof.
  intros Hsame Hsorted i Hi. rewrite (same_store_slots _ _ Hsame).
  destruct Hsame as (_ & Hn & _). apply Hsorted. lia.
Qed.

(** Every comparison leaves the store and the sought key alone and records
    the slot it was shown. *)
Lemma compare_key_n_item_effect dict (item : nat) :
  let dict' := (compare_key_n_item dict item).2 in
  same_store dict dict' ∧ sought_key dict' = sought_key dict
  ∧ candidate dict' = Some item.
Proof.
  unfold compare_key_n_item. repeat case_test; done.
Qed.

Lemma bsearch_effect dict :
  0 < nitems dict →
  let dict' := (bsearch compare_key_n_item dict (nitems dict)).2 in
  same_store dict dict' ∧ sought_key dict' = sought_key dict
  ∧ ∃ c, candidate dict' = Some c ∧ c < nitems dict.
Proof.
  intros Hn.
  destruct (bsearch_invariant compare_key_n_item
              (λ st, same_store dict st ∧ sought_key st = sought_key dict)
              (λ st, ∃ c, candidate st = Some c ∧ c < nitems dict)
              (nitems dict) dict) as [[Hsame Hkey] Hc]; [| done | done |].
  - intros st idx Hidx [Hsame Hkey].
    destruct (compare_key_n_item_effect st idx) as (Hsame' & Hkey' & Hcand).
    split; [split |].
    + by eapply same_store_trans.
    + congruence.
    + by exists idx.
  - done.
Qed.

(** After the first half of [intdict_bisect_left] the cache names the key
    and a slot that holds an item. *)
Lemma refreshed_effect dict k :
  wf dict → 0 < nitems dict →
  same_store dict (refreshed dict k) ∧ sought_key (refreshed dict k) = k
  ∧ ∃ c, candidate (refreshed dict k) = Some c ∧ c < nitems dict.
Proof.
  intros Hwf Hn. unfold refreshed.
  assert (Hsearch : ∀ dict1,
    same_store dict dict1 →
    let dict2 := (bsearch compare_key_n_item (set_sought_key k dict1)
                    (nitems dict1)).2 in
    same_store dict dict2 ∧ sought_key dict2 = k
    ∧ ∃ c, candidate dict2 = Some c ∧ c < nitems dict).
  { intros dict1 Hsame.
    destruct (bsearch_effect (set_sought_key k dict1))
      as (Hsame' & Hkey & c & Hc & Hlt).
    { destruct Hsame as (_ & Hn1 & _). cbn. lia. }
    cbn [set_sought_key nitems sought_key] in *.
    split; [| split].
    - eapply same_store_trans; [| exact Hsame'].
      destruct Hsame as (? & ? & ?). done.
    - done.
    - exists c. destruct Hsame as (_ & -> & _). done. }
  destruct (candidate dict) as [c0 |] eqn:Hcand.
  - case_test; bool_to_prop.
    + rewrite Hcand. split; [done |]. split; [done |].
      exists c0. split; [done |]. by apply (wf_candidate dict).
    + cbn [set_candidate candidate]. by apply Hsearch.
  - rewrite Hcand. by apply Hsearch.
Qed.

Lemma bisect_left_unfold dict k array :
  array = slots dict → IntDict.array dict = Some array → 0 < nitems dict →
  intdict_bisect_left dict k =
    (match candidate (refreshed dict k) with
     | Some c => correct_from array (nitems (refreshed dict k)) k c
     | None => 0
     end, refreshed dict k).
Proof.
  intros _ Harr Hn. unfold intdict_bisect_left. rewrite Harr.
  apply Nat.ltb_lt in Hn. rewrite Hn. fold (refreshed dict k).
  destruct (candidate (refreshed dict k)); [| done].
  unfold correct_from. by case_test.
Qed.

(** ** [intdict_bisect_left] and [intdict_bisect_right] *)

Lemma wf_slots_length dict : wf dict → nitems dict ≤ length (slots dict).
Proof.
  intros Hwf. pose proof (wf_nitems dict Hwf) as Hn.
  pose proof (wf_array dict Hwf) as Harr. unfold slots.
  destruct (array dict); simpl; lia.
Qed.

Lemma wf_same_store dict dict' :
  wf dict → same_store dict dict' →
  (∀ c, candidate dict' = Some c → c < nitems dict') →
  wf dict'.
Proof.
  intros Hwf Hsame Hcand. pose proof Hsame as (Ha & Hn & Harr).
  split.
  - rewrite <- Ha, <- Hn. apply Hwf.
  - rewrite <- Ha. apply Hwf.
  - rewrite <- Ha, <- Harr. apply Hwf.
  - done.
  - eapply same_store_sorted; [done | apply Hwf].
Qed.

Lemma correct_from_partition dict k (c : nat) :
  wf dict → c < nitems dict →
  partition_point (λ i, (key (slots dict !!! i) <? k)%Z) (nitems dict)
    (correct_from (slots dict) (nitems dict) k c).
Proof.
  intros Hwf Hc. unfold correct_from.
  assert (Hclosed : ∀ i j, i ≤ j → j < nitems dict →
            (key (slots dict !!! j) <? k)%Z = true →
            (key (slots dict !!! i) <? k)%Z = true).
  { intros i j. apply below_closed, Hwf. }
  case_test.
  - by apply scan_forward_partition.
  - apply scan_backward_partition; [done | | done | done].
    intros i. rewrite Z.geb_leb, Z.leb_antisym. done.
Qed.

Lemma bisect_left_spec dict k :
  wf dict →
  partition_point (λ i, (key (slots dict !!! i) <? k)%Z) (nitems dict)
    (intdict_bisect_left dict k).1
  ∧ same_store dict (intdict_bisect_left dict k).2
  ∧ wf (intdict_bisect_left dict k).2.
Proof.
  intros Hwf.
  destruct (array dict) as [array |] eqn:Harr.
  - destruct (decide (0 < nitems dict)) as [Hn | Hn].
    + rewrite (bisect_left_unfold dict k array) by (unfold slots; by rewrite ?Harr).
      destruct (refreshed_effect dict k Hwf Hn)
        as (Hsame & Hkey & c & Hcand & Hc).
      rewrite Hcand. cbn [fst snd].
      replace array with (slots dict) by (unfold slots; by rewrite Harr).
      destruct Hsame as (Ha & Hni & Harr'). rewrite <- Hni.
      split; [by apply correct_from_partition |].
      split; [done |].
      apply (wf_same_store dict); [done | done |].
      intros c' Hc'. rewrite <- Hni. congruence.
    + unfold intdict_bisect_left. rewrite Harr.
      replace (0 <? nitems dict) with false
        by (symmetry; apply Nat.ltb_ge; lia).
      cbn [fst snd]. split; [| done].
      split; [lia |]. split; intros; lia.
  - unfold intdict_bisect_left. rewrite Harr. cbn [fst snd].
    pose proof (wf_array dict Hwf) as Hzero. rewrite Harr in Hzero.
    pose proof (wf_nitems dict Hwf).
    split; [| done]. split; [lia |]. split; intros; lia.
Qed.

Lemma bisect_right_spec dict k :
  wf dict →
  partition_point (λ i, (key (slots dict !!! i) <=? k)%Z) (nitems dict)
    (intdict_bisect_right dict k).1
  ∧ (intdict_bisect_left dict k).1 ≤ (intdict_bisect_right dict k).1
  ∧ (intdict_bisect_right dict k).2 = (intdict_bisect_left dict k).2.
Proof.
  intros Hwf. destruct (bisect_left_spec dict k Hwf) as (Hpart & Hsame & _).
  unfold intdict_bisect_right.
  destruct (array dict) as [array |] eqn:Harr.
  - destruct (intdict_bisect_left dict k) as [index dict1]. cbn [fst snd] in *.
    replace array with (slots dict) by (unfold slots; by rewrite Harr).
    destruct Hsame as (_ & <- & _).
    split; [| split; [| done]].
    + eapply scan_right_partition; [| | exact Hpart].
      * intros i Hi. cbn beta in Hi. bool_to_prop. apply Z.leb_le. lia.
      * intros i j. apply not_above_closed, Hwf.
    + destruct (scan_right_stops (nitems dict)
                  (λ i, (key (slots dict !!! i) <=? k)%Z)
                  (nitems dict) index) as (Hle & _); [lia | exact Hle].
  - unfold intdict_bisect_left. rewrite Harr. cbn [fst snd].
    pose proof (wf_array dict Hwf) as Hzero. rewrite Harr in Hzero.
    pose proof (wf_nitems dict Hwf).
    split; [| done]. split; [lia |]. split; intros; lia.
Qed.

(** ** [intdict_remove_at] *)

Lemma entries_length dict : wf dict → length (entries dict) = nitems dict.
Proof.
  intros Hwf. unfold entries. rewrite length_take.
  pose proof (wf_slots_length dict Hwf). lia.
Qed.

Lemma entries_lookup dict (i : nat) :
  i < nitems dict → entries dict !!! i = slots dict !!! i.
Proof. intros Hi. unfold entries. by rewrite lookup_total_take_lt. Qed.

Lemma remove_at_spec dict (index : nat) :
  wf dict → index < nitems dict →
  let dict' := intdict_remove_at dict index in
  nitems dict' = nitems dict - 1
  ∧ nalloc dict' = nalloc dict
  ∧ sought_key dict' = sought_key dict
  ∧ candidate dict' = None
  ∧ entries dict' = delete index (entries dict)
  ∧ wf dict'.
Proof.
  intros Hwf Hindex.
  pose proof (wf_nitems dict Hwf) as Hn.
  pose proof (wf_array dict Hwf) as Harr.
  pose proof (wf_sorted dict Hwf) as Hsorted.
  unfold intdict_remove_at, entries, sorted, slots in *.
  destruct (array dict) as [array |] eqn:Earr; [| lia].
  destruct (nitems dict) as [| n] eqn:En; [lia |].
  cbn [size_dec nitems nalloc sought_key candidate IntDict.array
       from_option id].
  cbn [from_option id] in Hsorted.
  replace (S n - 1) with n by lia.
  assert (Hlookup : ∀ j, j < n →
    key (shift_down array n (n - index) index !!! j) =
    key (array !!! (if decide (j < index) then j else S j))).
  { intros j Hj. rewrite shift_down_lookup by lia.
    repeat case_decide; try lia; try done. f_equal. f_equal. lia. }
  repeat split; try done.
  - apply shift_down_take; lia.
  - cbn. lia.
  - apply Hwf.
  - cbn. by rewrite shift_down_length.
  - intros i Hi. unfold slots.
    cbn [nitems IntDict.array from_option id] in *.
    rewrite !Hlookup by lia.
    repeat case_decide; try lia.
    + apply Hsorted. lia.
    + replace i with (index - 1) by lia.
      etrans; [apply (Hsorted (index - 1)); lia |].
      replace (S (index - 1)) with index by lia.
      apply Hsorted. lia.
    + apply Hsorted. lia.
Qed.

(** ** [intdict_find] and [intdict_find_specific] *)

Lemma find_state dict k :
  (intdict_find dict k).2 = (intdict_bisect_left dict k).2.
Proof.
  unfold intdict_find. destruct (intdict_bisect_left dict k) as [i dict1].
  destruct (array dict1); [case_test |]; done.
Qed.

Lemma find_found dict k (pos : nat) dict' :
  intdict_find dict k = (true, Some pos, dict') →
  pos = (intdict_bisect_left dict k).1 ∧ pos < nitems dict'
  ∧ key (slots dict' !!! pos) = k.
Proof.
  unfold intdict_find, slots.
  destruct (intdict_bisect_left dict k) as [i dict1]. cbn [fst].
  destruct (array dict1) as [array |] eqn:Harr; [| done].
  case_test; [done |]. intros [= <- <-]. rewrite Harr.
  bool_to_prop. done.
Qed.

Lemma find_specific_loop_bound array k v (n fuel index : nat) :
  index < n → find_specific_loop array k v n fuel index < n.
Proof.
  revert index. induction fuel as [| fuel IH]; intros index Hi; simpl;
    [done |].
  case_test; [| done]. bool_to_prop. apply IH. lia.
Qed.

Lemma find_specific_state dict k v :
  wf dict →
  same_store dict (intdict_find_specific dict k v).2
  ∧ wf (intdict_find_specific dict k v).2.
Proof.
  intros Hwf. destruct (bisect_left_spec dict k Hwf) as (_ & Hsame & Hwf1).
  unfold intdict_find_specific.
  destruct (array dict); [| done].
  destruct (intdict_bisect_left dict k) as [i dict1].
  repeat case_test; done.
Qed.

Lemma find_specific_found dict k v (pos : nat) dict' :
  intdict_find_specific dict k v = (true, Some pos, dict') →
  pos < nitems dict'.
Proof.
  unfold intdict_find_specific.
  destruct (array dict); [| done].
  destruct (intdict_bisect_left dict k) as [i dict1].
  repeat case_test; try done. intros [= <- <-]. bool_to_prop.
  by apply find_specific_loop_bound.
Qed.

(** ** The bisect contract *)

(** C1. On a dictionary whose entries are sorted, [intdict_bisect_left]
    is at most [intdict_bisect_right], it is the number of entries whose
    key is strictly less than [k] and the first position whose key is at
    least [k] (the count if there is none), and [intdict_bisect_right] is
    the first position whose key is greater than [k] (or the count). *)
Theorem bisect_contract dict k :
  wf dict →
  let left := (intdict_bisect_left dict k).1 in
  let right := (intdict_bisect_right dict k).1 in
  left ≤ right
  ∧ left = length (filter (λ e, (key e < k)%Z) (entries dict))
  ∧ first_position (λ e, (k <=? key e)%Z) (entries dict) left
  ∧ first_position (λ e, (k <? key e)%Z) (entries dict) right.
Proof.
  intros Hwf left right.
  destruct (bisect_left_spec dict k Hwf) as ((Hl & Hbelow & Habove) & _).
  destruct (bisect_right_spec dict k Hwf)
    as ((Hr & Hbelow' & Habove') & Hle & _).
  fold left in Hl, Hbelow, Habove, Hle. fold right in Hr, Hbelow', Habove', Hle.
  pose proof (entries_length dict Hwf) as Hlen.
  split; [done |]. split; [| split].
  - symmetry. apply filter_length_boundary; [lia | |].
    + intros i Hi. rewrite entries_lookup by lia.
      apply Hbelow in Hi. by bool_to_prop.
    + intros i Hli Hi. rewrite entries_lookup by lia.
      apply Habove in Hli; [| lia]. bool_to_prop. lia.
  - split; [lia |]. split.
    + intros j Hj. rewrite entries_lookup by lia.
      apply Hbelow in Hj. bool_to_prop. apply Z.leb_gt. lia.
    + intros Hlt. rewrite entries_lookup by lia.
      specialize (Habove left). cbn beta in Habove.
      rewrite Z.leb_antisym. rewrite Habove; [done | lia | lia].
  - split; [lia |]. split.
    + intros j Hj. rewrite entries_lookup by lia.
      apply Hbelow' in Hj. bool_to_prop. apply Z.ltb_ge. lia.
    + intros Hlt. rewrite entries_lookup by lia.
      specialize (Habove' right). cbn beta in Habove'.
      rewrite Z.ltb_antisym. rewrite Habove'; [done | lia | lia].
Qed.

(** ** The value iterator *)

Lemma size_dec_pos (n : nat) : 0 < n → size_dec n = n - 1.
Proof. destruct n; simpl; lia. Qed.

Lemma get_value_at_entries dict (i : nat) :
  i < nitems dict → intdict_get_value_at dict i = value (entries dict !!! i).
Proof.
  intros Hi. unfold intdict_get_value_at. by rewrite entries_lookup.
Qed.

Lemma viter_remove_spec (iter : IntDictVIter) dict :
  wf dict →
  0 < next_index iter → next_index iter ≤ end_ iter →
  end_ iter ≤ nitems dict →
  intdictviter_remove iter dict =
    (next_index iter - 1,
     {| next_index := next_index iter - 1; end_ := end_ iter - 1 |},
     intdict_remove_at dict (next_index iter - 1))
  ∧ entries (intdict_remove_at dict (next_index iter - 1)) =
      delete (next_index iter - 1) (entries dict)
  ∧ nitems (intdict_remove_at dict (next_index iter - 1)) = nitems dict - 1
  ∧ wf (intdict_remove_at dict (next_index iter - 1)).
Proof.
  intros Hwf Hpos Hle Hend. unfold intdictviter_remove.
  rewrite !size_dec_pos by lia.
  destruct (remove_at_spec dict (next_index iter - 1) Hwf)
    as (Hn & _ & _ & _ & Hentries & Hwf'); [lia |].
  done.
Qed.

Lemma unselected_cons {A : Type} (selected : nat → bool) (count : nat)
    (x : A) (l : list A) :
  unselected selected count (x :: l) =
    if selected count then unselected selected (count + 1) l
    else x :: unselected selected (count + 1) l.
Proof. done. Qed.

(** The loop of the iterator tests, entered with the value of [x] in hand:
    [kept] entries have been kept so far, [x] is the entry just yielded and
    [rest] are the entries still to come. *)
Lemma iterate_from_spec (selected : nat → bool) (rest : list IntDictItem) :
  ∀ (fuel count : nat) (x : IntDictItem) (kept : list IntDictItem)
    (iter : IntDictVIter) dict,
    wf dict →
    length rest < fuel →
    Forall (λ e, value e ≠ NULL) (x :: rest) →
    entries dict = kept ++ x :: rest →
    next_index iter = length kept + 1 →
    end_ iter = nitems dict →
    ∃ iter' dict',
      iterate_from selected fuel (value x) iter dict count =
        (value <$> (x :: rest), iter', dict')
      ∧ entries dict' = kept ++ unselected selected count (x :: rest)
      ∧ wf dict'.
Proof.
  induction rest as [| y rest IH];
    intros fuel count x kept iter dict Hwf Hfuel Hnonnull Hentries Hnext Hend.
  - (* [x] is the last entry *)
    destruct fuel as [| fuel]; [simpl in Hfuel; lia |].
    pose proof (entries_length dict Hwf) as Hlen.
    rewrite Hentries, length_app in Hlen. cbn [length] in Hlen.
    apply Forall_cons in Hnonnull as [Hx _].
    cbn [iterate_from]. rewrite unselected_cons. cbn [unselected].
    replace (value x =? NULL)%N with false
      by (symmetry; by apply N.eqb_neq).
    destruct (selected count) eqn:Hsel.
    + destruct (viter_remove_spec iter dict Hwf) as (-> & Hdel & Hn & Hwf');
        [lia | lia | lia |].
      unfold intdictviter_advance. cbn [next_index end_].
      replace (next_index iter - 1 <? end_ iter - 1) with false
        by (symmetry; apply Nat.ltb_ge; lia).
      destruct fuel; cbn [iterate_from]; eexists _, _;
        (split; [reflexivity |]); (split; [| done]).
      all: rewrite Hdel, Hentries, Hnext.
      all: replace (length kept + 1 - 1) with (length kept) by lia.
      all: by rewrite delete_middle.
    + unfold intdictviter_advance.
      replace (next_index iter <? end_ iter) with false
        by (symmetry; apply Nat.ltb_ge; lia).
      destruct fuel; cbn [iterate_from]; eexists _, _;
        (split; [reflexivity |]); done.
  - (* [y] comes next *)
    destruct fuel as [| fuel]; [simpl in Hfuel; lia |].
    pose proof (entries_length dict Hwf) as Hlen.
    rewrite Hentries, length_app in Hlen. cbn [length] in Hlen.
    pose proof Hnonnull as Hnonnull'.
    apply Forall_cons in Hnonnull' as [Hx Hrest].
    cbn [iterate_from]. rewrite unselected_cons.
    replace (value x =? NULL)%N with false
      by (symmetry; by apply N.eqb_neq).
    destruct (selected count) eqn:Hsel.
    + destruct (viter_remove_spec iter dict Hwf) as (-> & Hdel & Hn & Hwf');
        [lia | lia | lia |].
      set (dict1 := intdict_remove_at dict (next_index iter - 1)) in *.
      assert (Hentries1 : entries dict1 = kept ++ y :: rest).
      { rewrite Hdel, Hentries, Hnext.
        replace (length kept + 1 - 1) with (length kept) by lia.
        by rewrite delete_middle. }
      unfold intdictviter_advance. cbn [next_index end_].
      replace (next_index iter - 1 <? end_ iter - 1) with true
        by (symmetry; apply Nat.ltb_lt; lia).
      rewrite get_value_at_entries by lia.
      assert (Hy : entries dict1 !!! (next_index iter - 1) = y).
      { rewrite Hentries1, Hnext. apply list_lookup_total_middle. lia. }
      rewrite Hy, Hnext.
      replace (length kept + 1 - 1) with (length kept) by lia.
      destruct (IH fuel (count + 1) y kept
                  {| next_index := length kept + 1;
                     end_ := end_ iter - 1 |} dict1)
        as (iter' & dict' & -> & Hfinal & Hwf'');
        [done | simpl in Hfuel; lia | done | done | done | cbn; lia |].
      eexists _, _. split; [reflexivity |]. done.
    + unfold intdictviter_advance.
      replace (next_index iter <? end_ iter) with true
        by (symmetry; apply Nat.ltb_lt; lia).
      rewrite get_value_at_entries by lia.
      assert (Hentries1 : entries dict = (kept ++ [x]) ++ y :: rest)
        by (by rewrite <- app_assoc).
      assert (Hy : entries dict !!! next_index iter = y).
      { rewrite Hentries1, Hnext. apply list_lookup_total_middle.
        rewrite length_app. simpl. lia. }
      rewrite Hy.
      destruct (IH fuel (count + 1) y (kept ++ [x])
                  {| next_index := next_index iter + 1;
                     end_ := end_ iter |} dict)
        as (iter' & dict' & -> & Hfinal & Hwf'');
        [done | simpl in Hfuel; lia | done | done
        | cbn; rewrite length_app; simpl; lia | done |].
      eexists _, _. split; [reflexivity |].
      by rewrite Hfinal, <- app_assoc.
Qed.

Lemma iterate_all_spec (selected : nat → bool) dict :
  wf dict →
  Forall (λ e, value e ≠ NULL) (entries dict) →
  ∃ iter' dict',
    iterate_all selected dict = (value <$> entries dict, iter', dict')
    ∧ entries dict' = unselected selected 0 (entries dict)
    ∧ wf dict'.
Proof.
  intros Hwf Hnonnull. unfold iterate_all, intdictviter_all_init.
  pose proof (entries_length dict Hwf) as Hlen.
  unfold intdictviter_advance, intdict_count. cbn [next_index end_].
  destruct (entries dict) as [| x rest] eqn:Hentries.
  - cbn [length] in Hlen. rewrite <- Hlen. cbn.
    eexists _, _. split; [reflexivity |]. by rewrite Hentries.
  - cbn [length] in Hlen.
    replace (0 <? nitems dict) with true
      by (symmetry; apply Nat.ltb_lt; lia).
    rewrite get_value_at_entries by lia. rewrite Hentries.
    change ((x :: rest) !!! 0) with x.
    apply (iterate_from_spec selected rest (nitems dict + 1) 0 x []);
      [done | lia | done | by rewrite Hentries | done | done].
Qed.

(** C7. With an entry yielded before ([0 < next_index]),
    [intdictviter_remove] removes the entry at [next_index - 1], returns
    that index and decrements [next_index] and [end], so that the next
    [intdictviter_advance] yields the entry that followed the removed one;
    and the loop of the iterator tests, removing the entries it selects by
    their count, sees the values of all entries and leaves the entries it
    did not select, in their order. *)
Theorem iterator_remove_contract (selected : nat → bool)
    (iter : IntDictVIter) dict :
  wf dict →
  (0 < next_index iter → next_index iter ≤ end_ iter →
   end_ iter ≤ nitems dict →
   let '(index, iter', dict') := intdictviter_remove iter dict in
   index = next_index iter - 1
   ∧ entries dict' = delete (next_index iter - 1) (entries dict)
   ∧ next_index iter' = next_index iter - 1
   ∧ end_ iter' = end_ iter - 1
   ∧ intdictviter_advance iter' dict' =
       if decide (next_index iter < end_ iter)
       then (value (entries dict !!! next_index iter),
             {| next_index := next_index iter; end_ := end_ iter - 1 |})
       else (NULL, iter'))
  ∧ (Forall (λ e, value e ≠ NULL) (entries dict) →
     let '(seen, _, dict') := iterate_all selected dict in
     seen = value <$> entries dict
     ∧ entries dict' = unselected selected 0 (entries dict)).
Proof.
  intros Hwf. split.
  - intros Hpos Hle Hend.
    destruct (viter_remove_spec iter dict Hwf Hpos Hle Hend)
      as (-> & Hdel & Hn & Hwf').
    cbn [next_index end_]. repeat (split; [done |]).
    unfold intdictviter_advance. cbn [next_index end_].
    case_decide.
    + replace (next_index iter - 1 <? end_ iter - 1) with true
        by (symmetry; apply Nat.ltb_lt; lia).
      rewrite get_value_at_entries by lia.
      rewrite Hdel, list_lookup_total_delete_ge by lia.
      repeat f_equal; lia.
    + replace (next_index iter - 1 <? end_ iter - 1) with false
        by (symmetry; apply Nat.ltb_ge; lia).
      done.
  - intros Hnonnull.
    destruct (iterate_all_spec selected dict Hwf Hnonnull)
      as (iter' & dict' & -> & Hentries & _).
    done.
Qed.

End WithSizeT.

Section WithGrowth.
Context `{SizeT}.

Implicit Types (dict : IntDict) (k : IntDictKey) (v : voidp).

(** ** [intdict_insert] *)

Hypothesis init_size_fits : ArrayInitSize ≤ SIZE_MAX.

Lemma new_size_bounds (n : nat) :
  n < SIZE_MAX → n < new_size n ∧ new_size n ≤ SIZE_MAX.
Proof.
  intros Hn. unfold new_size, ArrayGrowthFactor, ArrayInitSize in *.
  repeat case_test; bool_to_prop; try lia.
  pose proof (Nat.Div0.mul_div_le SIZE_MAX 2). lia.
Qed.

Lemma classic_refused dict env :
  insert_refused dict env ∨ ¬ insert_refused dict env.
Proof.
  unfold insert_refused.
  destruct (decide (nitems dict = nalloc dict)) as [Hfull | Hroom];
    [| right; tauto].
  destruct (decide (nalloc dict = SIZE_MAX)) as [Hmax | Hmax];
    [left; tauto |].
  destruct env as [| fresh]; [left; tauto |].
  right. intros (_ & [? | ?]); done.
Qed.

Lemma insert_failure dict k v env :
  wf dict → insert_refused dict env →
  intdict_insert dict k v env =
    (false, None, (intdict_bisect_left dict k).2).
Proof.
  intros Hwf (Hfull & Hwhy).
  destruct (bisect_left_spec dict k Hwf) as (_ & (Ha & Hn & Harr) & _).
  unfold intdict_insert.
  destruct (intdict_bisect_left dict k) as [ins dict1]. cbn [fst snd] in *.
  replace (nitems dict1 =? nalloc dict1) with true
    by (symmetry; apply Nat.eqb_eq; lia).
  destruct Hwhy as [Hmax | ->].
  - replace (nalloc dict1 =? SIZE_MAX) with true
      by (symmetry; apply Nat.eqb_eq; lia).
    done.
  - by case_test.
Qed.

Lemma insert_success dict k v env :
  wf dict → ¬ insert_refused dict env →
  ∃ dict',
    intdict_insert dict k v env =
      (true, Some (intdict_bisect_left dict k).1, dict')
    ∧ nitems dict' = S (nitems dict)
    ∧ nalloc dict' =
        (if decide (nitems dict = nalloc dict)
         then new_size (nalloc dict) else nalloc dict)
    ∧ sought_key dict' = sought_key (intdict_bisect_left dict k).2
    ∧ candidate dict' = None
    ∧ entries dict' =
        insert_at (intdict_bisect_left dict k).1 {| key := k; value := v |}
          (entries dict)
    ∧ wf dict'.
Proof.
  intros Hwf Hok.
  destruct (bisect_left_spec dict k Hwf)
    as ((Hins & Hbelow & Habove) & (Ha & Hn & Harr) & Hwf1).
  pose proof (wf_nitems dict Hwf) as Hcount.
  pose proof (wf_nalloc dict Hwf) as Hcap.
  pose proof (wf_array dict Hwf) as Hlen.
  pose proof (wf_sorted dict Hwf) as Hsorted.
  unfold intdict_insert.
  destruct (intdict_bisect_left dict k) as [ins dict1]. cbn [fst snd] in *.
  (* the array the item is stored in, and its capacity *)
  assert (Hgrown : ∃ array' cap,
    (if nitems dict1 =? nalloc dict1 then
       if nalloc dict1 =? SIZE_MAX then None
       else
         match realloc (array dict1) (new_size (nalloc dict1)) env with
         | None => None
         | Some new_array =>
             Some {| nalloc := new_size (nalloc dict1);
                     nitems := nitems dict1;
                     sought_key := sought_key dict1;
                     array := Some new_array;
                     candidate := candidate dict1 |}
         end
     else Some dict1)
    = Some {| nalloc := cap; nitems := nitems dict1;
              sought_key := sought_key dict1; array := Some array';
              candidate := candidate dict1 |}
    ∧ cap = (if decide (nitems dict = nalloc dict)
             then new_size (nalloc dict) else nalloc dict)
    ∧ length array' = cap ∧ nitems dict < cap ∧ cap ≤ SIZE_MAX
    ∧ ∀ j, j < nitems dict → array' !!! j = slots dict !!! j).
  { rewrite <- Ha, <- Hn, <- Harr.
    destruct (decide (nitems dict = nalloc dict)) as [Hfull | Hroom].
    - replace (nitems dict =? nalloc dict) with true
        by (symmetry; apply Nat.eqb_eq; lia).
      assert (nalloc dict ≠ SIZE_MAX ∧ env ≠ ReallocFail) as [Hmax Henv].
      { split; intros Hbad; apply Hok; split; auto. }
      replace (nalloc dict =? SIZE_MAX) with false
        by (symmetry; apply Nat.eqb_neq; lia).
      destruct (new_size_bounds (nalloc dict)) as [Hgrow Hfit]; [lia |].
      destruct env as [| fresh]; [done |]. cbn [realloc].
      eexists _, _. split; [reflexivity |].
      split; [done |]. split; [by rewrite length_resize |].
      split; [lia |]. split; [done |].
      intros j Hj. unfold slots.
      assert (Hold : length (default [] (array dict)) = nalloc dict).
      { destruct (array dict); simpl; [done | lia]. }
      rewrite lookup_total_resize by (rewrite ?length_app; lia).
      by rewrite lookup_total_app_l by lia.
    - replace (nitems dict =? nalloc dict) with false
        by (symmetry; apply Nat.eqb_neq; lia).
      destruct (array dict) as [array |] eqn:Earr; [| lia].
      exists array, (nalloc dict). unfold slots. rewrite Earr.
      split; [| repeat split; auto with lia].
      f_equal. destruct dict1; cbn in *. congruence. }
  destruct Hgrown as (array' & cap & -> & Hcap' & Hlen' & Hroom & Hfit & Hold).
  cbn [array nitems nalloc sought_key].
  eexists. split; [reflexivity |].
  cbn [array nitems nalloc sought_key candidate].
  rewrite <- Hn.
  assert (Hnew : ∀ j, j ≤ nitems dict →
    <[ins := {| key := k; value := v |}]>
      (shift_up array' ins (nitems dict)) !!! j =
    if decide (j < ins) then slots dict !!! j
    else if decide (j = ins) then {| key := k; value := v |}
    else slots dict !!! (j - 1)).
  { intros j Hj. rewrite shift_up_insert_lookup by lia.
    repeat case_decide; try lia; try done; apply Hold; lia. }
  split; [lia |]. split; [done |]. split; [done |]. split; [done |]. split.
  - unfold entries, slots at 1. cbn [array nitems from_option id].
    replace (nitems dict + 1) with (S (nitems dict)) by lia.
    rewrite shift_up_insert_take by lia. f_equal.
    apply list_eq_total.
    + rewrite !length_take. pose proof (wf_slots_length dict Hwf). lia.
    + intros i Hi. rewrite length_take in Hi.
      rewrite !lookup_total_take_lt by lia. apply Hold. lia.
  - split; cbn [array nitems nalloc candidate]; try done; try lia.
    + by rewrite length_insert, shift_up_length.
    + intros i Hi. unfold slots at 1 2. cbn [array nitems from_option id] in *.
      rewrite !Hnew by lia.
      assert (Hlow : ∀ j, j < ins → (key (slots dict !!! j) < k)%Z).
      { intros j Hj. apply Hbelow in Hj. by bool_to_prop. }
      assert (Hhigh : ∀ j, ins ≤ j → j < nitems dict →
                (k ≤ key (slots dict !!! j))%Z).
      { intros j Hj Hjn. apply Habove in Hj; [| done]. by bool_to_prop. }
      repeat case_decide; try lia; cbn [key].
      all: try (apply (sorted_le dict); [done | lia | lia]).
      all: try (apply Z.lt_le_incl, Hlow; lia).
      all: try (apply Hhigh; lia).
Qed.

(** ** Every call keeps the representation invariant *)

Lemma init_wf : wf intdict_init.
Proof.
  split; cbn; try done; try lia.
Qed.

Lemma insert_wf dict k v env : wf dict → wf (intdict_insert dict k v env).2.
Proof.
  intros Hwf.
  destruct (classic_refused dict env) as [Hno | Hyes].
  - rewrite insert_failure by done. apply bisect_left_spec, Hwf.
  - destruct (insert_success dict k v env Hwf Hyes) as (dict' & -> & Hrest).
    apply Hrest.
Qed.

Lemma step_wf dict (o : op) (out : outcome) dict' :
  wf dict → step dict o = Some (out, dict') → wf dict'.
Proof.
  intros Hwf. destruct o as [k | k | k | k v | k v env | index | index
                             | k | k v]; cbn [step].
  - pose proof (bisect_left_spec dict k Hwf) as (_ & _ & Hwf').
    destruct (intdict_bisect_left dict k). intros [= <- <-]. done.
  - pose proof (bisect_right_spec dict k Hwf) as (_ & _ & Heq).
    pose proof (bisect_left_spec dict k Hwf) as (_ & _ & Hwf').
    destruct (intdict_bisect_right dict k). intros [= <- <-].
    cbn [snd] in Heq. by rewrite Heq.
  - pose proof (find_state dict k) as Heq.
    pose proof (bisect_left_spec dict k Hwf) as (_ & _ & Hwf').
    destruct (intdict_find dict k) as [[found pos] dict1].
    intros [= <- <-]. cbn [snd] in Heq. by rewrite Heq.
  - pose proof (find_specific_state dict k v Hwf) as [_ Hwf'].
    destruct (intdict_find_specific dict k v) as [[found pos] dict1].
    intros [= <- <-]. done.
  - pose proof (insert_wf dict k v env Hwf) as Hwf'.
    destruct (intdict_insert dict k v env) as [[ok pos] dict1].
    intros [= <- <-]. done.
  - case_test; [| done]. bool_to_prop. intros [= <- <-].
    by apply remove_at_spec.
  - case_test; [| done]. bool_to_prop. unfold intdict_remove_value_at.
    intros [= <- <-]. by apply remove_at_spec.
  - unfold intdict_remove.
    pose proof (find_state dict k) as Heq.
    pose proof (bisect_left_spec dict k Hwf) as (_ & _ & Hwf').
    destruct (intdict_find dict k) as [[[] [pos |]] dict1] eqn:Hfind;
      cbn [snd] in Heq; rewrite <- Heq in Hwf'; intros [= <- <-]; try done.
    apply remove_at_spec; [done |]. by apply find_found in Hfind as (_ & ? & _).
  - unfold intdict_remove_specific.
    pose proof (find_specific_state dict k v Hwf) as [_ Hwf'].
    destruct (intdict_find_specific dict k v) as [[[] [pos |]] dict1] eqn:Hfind;
      cbn [snd] in Hwf'; intros [= <- <-]; try done.
    apply remove_at_spec; [done |]. by apply find_specific_found in Hfind.
Qed.

Lemma reachable_wf dict : reachable dict → wf dict.
Proof.
  induction 1 as [| dict o out dict' _ IH Hstep]; [apply init_wf |].
  by eapply step_wf.
Qed.

(** ** What a call hands back depends on the store only *)

Lemma bisect_left_same_store dict dict' k :
  wf dict → wf dict' → same_store dict dict' →
  (intdict_bisect_left dict k).1 = (intdict_bisect_left dict' k).1.
Proof.
  intros Hwf Hwf' Hsame.
  destruct (bisect_left_spec dict k Hwf) as (Hpart & _).
  destruct (bisect_left_spec dict' k Hwf') as (Hpart' & _).
  rewrite (same_store_slots _ _ Hsame) in Hpart'.
  destruct Hsame as (_ & Hn & _). rewrite <- Hn in Hpart'.
  eapply partition_point_unique; eassumption.
Qed.

Lemma bisect_right_same_store dict dict' k :
  wf dict → wf dict' → same_store dict dict' →
  (intdict_bisect_right dict k).1 = (intdict_bisect_right dict' k).1.
Proof.
  intros Hwf Hwf' Hsame.
  destruct (bisect_right_spec dict k Hwf) as (Hpart & _).
  destruct (bisect_right_spec dict' k Hwf') as (Hpart' & _).
  rewrite (same_store_slots _ _ Hsame) in Hpart'.
  destruct Hsame as (_ & Hn & _). rewrite <- Hn in Hpart'.
  eapply partition_point_unique; eassumption.
Qed.

Lemma bisect_right_state dict k :
  wf dict →
  same_store dict (intdict_bisect_right dict k).2
  ∧ wf (intdict_bisect_right dict k).2.
Proof.
  intros Hwf. destruct (bisect_right_spec dict k Hwf) as (_ & _ & ->).
  apply bisect_left_spec, Hwf.
Qed.

Lemma find_same_store dict dict' k :
  wf dict → wf dict' → same_store dict dict' →
  (intdict_find dict k).1 = (intdict_find dict' k).1.
Proof.
  intros Hwf Hwf' Hsame.
  pose proof (bisect_left_same_store dict dict' k Hwf Hwf' Hsame) as Hindex.
  destruct (bisect_left_spec dict k Hwf) as (_ & (_ & Hn & Harr) & _).
  destruct (bisect_left_spec dict' k Hwf') as (_ & (_ & Hn' & Harr') & _).
  destruct Hsame as (_ & Hnn & Haa).
  unfold intdict_find.
  destruct (intdict_bisect_left dict k) as [i dict1].
  destruct (intdict_bisect_left dict' k) as [i' dict1'].
  cbn [fst snd] in *. subst i'.
  rewrite <- Harr, <- Harr', <- Haa, <- Hn, <- Hn', <- Hnn.
  destruct (array dict); [case_test |]; done.
Qed.

Lemma find_specific_same_store dict dict' k v :
  wf dict → wf dict' → same_store dict dict' →
  (intdict_find_specific dict k v).1 = (intdict_find_specific dict' k v).1.
Proof.
  intros Hwf Hwf' Hsame.
  pose proof (bisect_left_same_store dict dict' k Hwf Hwf' Hsame) as Hindex.
  destruct (bisect_left_spec dict k Hwf) as (_ & (_ & Hn & Harr) & _).
  destruct (bisect_left_spec dict' k Hwf') as (_ & (_ & Hn' & Harr') & _).
  destruct Hsame as (_ & Hnn & Haa).
  unfold intdict_find_specific. rewrite <- Haa.
  destruct (array dict); [| done].
  destruct (intdict_bisect_left dict k) as [i dict1].
  destruct (intdict_bisect_left dict' k) as [i' dict1'].
  cbn [fst snd] in *. subst i'.
  rewrite <- Hn, <- Hn', <- Hnn.
  repeat case_test; done.
Qed.

Lemma insert_same_store dict dict' k v env :
  wf dict → wf dict' → same_store dict dict' →
  (intdict_insert dict k v env).1 = (intdict_insert dict' k v env).1
  ∧ same_store (intdict_insert dict k v env).2
      (intdict_insert dict' k v env).2.
Proof.
  intros Hwf Hwf' Hsame.
  pose proof (bisect_left_same_store dict dict' k Hwf Hwf' Hsame) as Hindex.
  destruct (bisect_left_spec dict k Hwf) as (_ & (Ha & Hn & Harr) & _).
  destruct (bisect_left_spec dict' k Hwf') as (_ & (Ha' & Hn' & Harr') & _).
  destruct Hsame as (Hcc & Hnn & Haa).
  unfold intdict_insert.
  destruct (intdict_bisect_left dict k) as [i dict1].
  destruct (intdict_bisect_left dict' k) as [i' dict1'].
  cbn [fst snd] in *. subst i'.
  rewrite <- Harr, <- Harr', <- Haa, <- Hn, <- Hn', <- Hnn,
    <- Ha, <- Ha', <- Hcc.
  destruct (nitems dict =? nalloc dict).
  - destruct (nalloc dict =? SIZE_MAX).
    + cbn [fst snd]. split; [done |]. unfold same_store. lia_or_congruence.
    + destruct (realloc (array dict) (new_size (nalloc dict)) env);
        cbn [fst snd array]; [done |].
      split; [done |]. unfold same_store. lia_or_congruence.
  - rewrite <- Harr, <- Harr', <- Haa.
    destruct (array dict); cbn [fst snd]; [| split; [done |]].
    + rewrite <- Hn, <- Hn', <- Hnn, <- Ha, <- Ha', <- Hcc. done.
    + unfold same_store. lia_or_congruence.
Qed.

Lemma remove_at_same_store dict dict' (index : nat) :
  same_store dict dict' →
  same_store (intdict_remove_at dict index) (intdict_remove_at dict' index).
Proof.
  intros (Ha & Hn & Harr). unfold intdict_remove_at.
  rewrite <- Harr, <- Hn, <- Ha.
  destruct (array dict) eqn:E; repeat split; cbn; congruence.
Qed.

Lemma find_store dict k :
  wf dict → same_store dict (intdict_find dict k).2.
Proof. intros Hwf. rewrite find_state. apply bisect_left_spec, Hwf. Qed.

Lemma step_same_store dict dict' (o : op) :
  wf dict → wf dict' → same_store dict dict' →
  match step dict o, step dict' o with
  | Some (out, dict1), Some (out', dict1') =>
      out = out' ∧ same_store dict1 dict1'
  | None, None => True
  | _, _ => False
  end.
Proof.
  intros Hwf Hwf' Hsame.
  assert (Hvia : ∀ d1 d1', same_store dict d1 → same_store dict' d1' →
            same_store d1 d1').
  { intros d1 d1' H1 H1'. eapply same_store_trans; [| exact H1'].
    eapply same_store_trans; [apply same_store_sym, H1 | exact Hsame]. }
  destruct o as [k | k | k | k v | k v env | index | index | k | k v];
    cbn [step].
  - pose proof (bisect_left_same_store dict dict' k Hwf Hwf' Hsame) as Hout.
    destruct (bisect_left_spec dict k Hwf) as (_ & Hs & _).
    destruct (bisect_left_spec dict' k Hwf') as (_ & Hs' & _).
    destruct (intdict_bisect_left dict k), (intdict_bisect_left dict' k).
    cbn [fst snd] in *. split; [congruence | by apply Hvia].
  - pose proof (bisect_right_same_store dict dict' k Hwf Hwf' Hsame) as Hout.
    destruct (bisect_right_state dict k Hwf) as (Hs & _).
    destruct (bisect_right_state dict' k Hwf') as (Hs' & _).
    destruct (intdict_bisect_right dict k), (intdict_bisect_right dict' k).
    cbn [fst snd] in *. split; [congruence | by apply Hvia].
  - pose proof (find_same_store dict dict' k Hwf Hwf' Hsame) as Hout.
    pose proof (find_store dict k Hwf) as Hs.
    pose proof (find_store dict' k Hwf') as Hs'.
    destruct (intdict_find dict k) as [[? ?] ?],
             (intdict_find dict' k) as [[? ?] ?].
    cbn [fst snd] in *. split; [congruence | by apply Hvia].
  - pose proof (find_specific_same_store dict dict' k v Hwf Hwf' Hsame)
      as Hout.
    destruct (find_specific_state dict k v Hwf) as (Hs & _).
    destruct (find_specific_state dict' k v Hwf') as (Hs' & _).
    destruct (intdict_find_specific dict k v) as [[? ?] ?],
             (intdict_find_specific dict' k v) as [[? ?] ?].
    cbn [fst snd] in *. split; [congruence | by apply Hvia].
  - destruct (insert_same_store dict dict' k v env Hwf Hwf' Hsame)
      as [Hout Hs].
    destruct (intdict_insert dict k v env) as [[? ?] ?],
             (intdict_insert dict' k v env) as [[? ?] ?].
    cbn [fst snd] in *. split; [congruence | done].
  - pose proof Hsame as (_ & <- & _).
    case_test; [| done]. split; [done |]. by apply remove_at_same_store.
  - unfold intdict_remove_value_at.
    pose proof Hsame as (_ & Hn & Harr). rewrite <- Hn, <- Harr.
    case_test; [| done]. split; [done |]. by apply remove_at_same_store.
  - unfold intdict_remove.
    pose proof (find_same_store dict dict' k Hwf Hwf' Hsame) as Hout.
    pose proof (find_store dict k Hwf) as Hs.
    pose proof (find_store dict' k Hwf') as Hs'.
    destruct (intdict_find dict k) as [[found pos] d1],
             (intdict_find dict' k) as [[found' pos'] d1'].
    cbn [fst snd] in *. injection Hout as <- <-.
    destruct found, pos; (split; [done |]);
      try apply remove_at_same_store; by apply Hvia.
  - unfold intdict_remove_specific.
    pose proof (find_specific_same_store dict dict' k v Hwf Hwf' Hsame)
      as Hout.
    destruct (find_specific_state dict k v Hwf) as (Hs & _).
    destruct (find_specific_state dict' k v Hwf') as (Hs' & _).
    destruct (intdict_find_specific dict k v) as [[found pos] d1],
             (intdict_find_specific dict' k v) as [[found' pos'] d1'].
    cbn [fst snd] in *. injection Hout as <- <-.
    destruct found, pos; (split; [done |]);
      try apply remove_at_same_store; by apply Hvia.
Qed.

Lemma uncached_wf dict : wf dict → wf (set_candidate None dict).
Proof. intros Hwf. by apply (wf_same_store dict). Qed.

(** A run with the cache and a run without it hand back the same. *)
Lemma run_same_store (ops : list op) dict dict' :
  wf dict → wf dict' → same_store dict dict' →
  fst <$> run step dict ops = fst <$> run step_uncached dict' ops.
Proof.
  revert dict dict'. induction ops as [| o ops IH];
    intros dict dict' Hwf Hwf' Hsame; [done |].
  cbn [run]. unfold step_uncached at 1.
  pose proof (step_same_store dict (set_candidate None dict') o Hwf
                (uncached_wf dict' Hwf') Hsame) as Hstep.
  pose proof (step_wf dict o) as Hwf1.
  pose proof (step_wf (set_candidate None dict') o) as Hwf1'.
  destruct (step dict o) as [[out d1] |],
           (step (set_candidate None dict') o) as [[out' d1'] |];
    try done.
  destruct Hstep as [<- Hs].
  specialize (IH d1 d1' (Hwf1 _ _ Hwf eq_refl)
                (Hwf1' _ _ (uncached_wf dict' Hwf') eq_refl) Hs).
  destruct (run step d1 ops) as [[outs d2] |],
           (run step_uncached d1' ops) as [[outs' d2'] |];
    cbn in *; congruence.
Qed.

Lemma run_wf (ops : list op) dict (outs : list outcome) dict' :
  wf dict → run step dict ops = Some (outs, dict') → wf dict'.
Proof.
  revert dict outs. induction ops as [| o ops IH]; intros dict outs Hwf;
    cbn [run].
  - by intros [= _ <-].
  - pose proof (step_wf dict o) as Hwf1.
    destruct (step dict o) as [[out d1] |]; [| done].
    specialize (IH d1).
    destruct (run step d1 ops) as [[outs1 d2] |]; [| done].
    intros [= _ <-]. eapply IH; [| done]. by eapply Hwf1.
Qed.

Lemma run_reachable (ops : list op) dict (outs : list outcome) dict' :
  reachable dict → run step dict ops = Some (outs, dict') → reachable dict'.
Proof.
  revert dict outs. induction ops as [| o ops IH]; intros dict outs Hreach;
    cbn [run].
  - by intros [= _ <-].
  - destruct (step dict o) as [[out d1] |] eqn:Hstep; [| done].
    specialize (IH d1).
    destruct (run step d1 ops) as [[outs1 d2] |]; [| done].
    intros [= _ <-]. eapply IH; [| done]. by eapply reachable_step.
Qed.

(** ** The ordering invariant *)

(** C3. After any sequence of calls on an initialized dictionary, each
    entry's key is at most the next entry's key and the count does not
    exceed the capacity. *)
Theorem ordering_invariant (ops : list op) (outs : list outcome) dict :
  run step intdict_init ops = Some (outs, dict) →
  (∀ i, i + 1 < nitems dict →
        (key (entries dict !!! i) ≤ key (entries dict !!! (i + 1)%nat))%Z)
  ∧ nitems dict ≤ nalloc dict.
Proof.
  intros Hrun.
  assert (Hwf : wf dict) by (eapply run_wf; [apply init_wf | done]).
  split; [| apply Hwf].
  intros i Hi. rewrite !entries_lookup by lia.
  replace (i + 1) with (S i) by lia. apply Hwf. lia.
Qed.

(** ** Growth of the array *)

Lemma step_nalloc dict (o : op) (out : outcome) dict' :
  wf dict → step dict o = Some (out, dict') →
  (nalloc dict' = nalloc dict ∧ (array dict' = None ↔ array dict = None))
  ∨ (nitems dict = nalloc dict ∧ nalloc dict ≠ SIZE_MAX
     ∧ nalloc dict' = new_size (nalloc dict) ∧ array dict' ≠ None).
Proof.
  intros Hwf Hstep.
  assert (Hkeep : ∀ d1, same_store dict d1 →
            nalloc d1 = nalloc dict ∧ (array d1 = None ↔ array dict = None)).
  { intros d1 (Ha & _ & Harr). by rewrite Ha, Harr. }
  assert (Hremove : ∀ d1 index, same_store dict d1 →
            nalloc (intdict_remove_at d1 index) = nalloc dict
            ∧ (array (intdict_remove_at d1 index) = None
               ↔ array dict = None)).
  { intros d1 index (Ha & _ & Harr). unfold intdict_remove_at.
    rewrite Ha, Harr.
    destruct (array d1) eqn:E; cbn; (split; [done |]); split; intros;
      congruence. }
  destruct o as [k | k | k | k v | k v env | index | index | k | k v];
    cbn [step] in Hstep.
  - destruct (bisect_left_spec dict k Hwf) as (_ & Hs & _).
    destruct (intdict_bisect_left dict k). injection Hstep as <- <-.
    left. by apply Hkeep.
  - destruct (bisect_right_state dict k Hwf) as (Hs & _).
    destruct (intdict_bisect_right dict k). injection Hstep as <- <-.
    left. by apply Hkeep.
  - pose proof (find_store dict k Hwf) as Hs.
    destruct (intdict_find dict k) as [[? ?] ?]. injection Hstep as <- <-.
    left. by apply Hkeep.
  - destruct (find_specific_state dict k v Hwf) as (Hs & _).
    destruct (intdict_find_specific dict k v) as [[? ?] ?].
    injection Hstep as <- <-. left. by apply Hkeep.
  - destruct (classic_refused dict env) as [Hno | Hyes].
    + rewrite insert_failure in Hstep by done. injection Hstep as <- <-.
      left. apply Hkeep, bisect_left_spec, Hwf.
    + destruct (insert_success dict k v env Hwf Hyes)
        as (d1 & Heq & Hn & Ha & _ & _ & _ & Hwf1).
      rewrite Heq in Hstep. injection Hstep as <- <-.
      assert (Hsome : array d1 ≠ None).
      { intros Hnone. pose proof (wf_array d1 Hwf1) as Hzero.
        rewrite Hnone in Hzero. pose proof (wf_nitems d1 Hwf1). lia. }
      case_decide as Hfull.
      * right. split; [done |]. split; [| done].
        intros Hmax. apply Hyes. split; auto.
      * left. split; [done |]. split; [done |].
        intros Hnone. pose proof (wf_array dict Hwf) as Hzero.
        rewrite Hnone in Hzero. pose proof (wf_nitems dict Hwf). lia.
  - destruct (index <? nitems dict); [| done]. injection Hstep as <- <-.
    left. apply Hremove, same_store_refl.
  - destruct (index <? nitems dict); [| done].
    unfold intdict_remove_value_at in Hstep.
    injection Hstep as <- <-. left. apply Hremove, same_store_refl.
  - unfold intdict_remove in Hstep.
    pose proof (find_store dict k Hwf) as Hs.
    destruct (intdict_find dict k) as [[[] [pos |]] d1];
      injection Hstep as <- <-; left;
      first [by apply Hremove | by apply Hkeep].
  - unfold intdict_remove_specific in Hstep.
    destruct (find_specific_state dict k v Hwf) as (Hs & _).
    destruct (intdict_find_specific dict k v) as [[[] [pos |]] d1];
      injection Hstep as <- <-; left;
      first [by apply Hremove | by apply Hkeep].
Qed.



End WithGrowth.



End IntDictFacts.

(** * Case-insensitive comparison *)

Lemma char_code_nonneg (c : ascii) : (0 ≤ char_code c)%Z.
Proof. unfold char_code. lia. Qed.

Lemma toupper_nonneg (c : Z) : (0 ≤ c)%Z → (0 ≤ toupper c)%Z.
Proof. intros Hc. unfold toupper. case_test; bool_to_prop; lia. Qed.

Lemma toupper_zero (c : Z) : (0 ≤ c)%Z → toupper c = 0%Z → c = 0%Z.
Proof. intros Hc. unfold toupper. case_test; bool_to_prop; lia. Qed.

Lemma deref_nonneg (s : string) : (0 ≤ deref s)%Z.
Proof. destruct s; simpl; [lia | apply char_code_nonneg]. Qed.

(** One turn of the loop of [stricmp]. *)
Lemma stricmp_unfold (s1 s2 : string) :
  stricmp s1 s2 =
    let i := toupper (deref s1) in
    let j := toupper (deref s2) in
    if negb (i =? 0)%Z && (i =? j)%Z
    then stricmp (advance s1) (advance s2)
    else (i - j)%Z.
Proof. destruct s1; [| done]. by destruct s2. Qed.

Lemma stricmp_antisym (s1 s2 : string) :
  stricmp s2 s1 = (- stricmp s1 s2)%Z.
Proof.
  revert s2. induction s1 as [| c s1 IH]; intros s2.
  - rewrite (stricmp_unfold s2), (stricmp_unfold EmptyString). cbn zeta.
    change (toupper (deref EmptyString)) with 0%Z.
    repeat case_test; bool_to_prop; lia.
  - rewrite (stricmp_unfold s2), (stricmp_unfold (String c s1)). cbn zeta.
    cbn [advance].
    repeat case_test; bool_to_prop; try lia. apply IH.
Qed.

Lemma stricmp_trans (s1 s2 s3 : string) :
  (stricmp s1 s2 ≤ 0)%Z →
  ((stricmp s2 s3 ≤ 0)%Z → (stricmp s1 s3 ≤ 0)%Z)
  ∧ ((stricmp s2 s3 < 0)%Z → (stricmp s1 s3 < 0)%Z).
Proof.
  revert s2 s3. induction s1 as [| c s1 IH]; intros s2 s3.
  - rewrite (stricmp_unfold EmptyString s2), (stricmp_unfold s2 s3),
      (stricmp_unfold EmptyString s3). cbn zeta.
    change (toupper (deref EmptyString)) with 0%Z.
    pose proof (toupper_nonneg _ (deref_nonneg s2)).
    pose proof (toupper_nonneg _ (deref_nonneg s3)).
    repeat case_test; bool_to_prop; lia.
  - rewrite (stricmp_unfold (String c s1) s2), (stricmp_unfold s2 s3),
      (stricmp_unfold (String c s1) s3). cbn zeta. cbn [advance].
    pose proof (toupper_nonneg _ (deref_nonneg s2)).
    pose proof (toupper_nonneg _ (deref_nonneg s3)).
    pose proof (toupper_nonneg _ (deref_nonneg (String c s1))).
    repeat case_test; bool_to_prop; try lia. apply IH.
Qed.

Lemma stricmp_le_trans (s1 s2 s3 : string) :
  (stricmp s1 s2 ≤ 0)%Z → (stricmp s2 s3 ≤ 0)%Z → (stricmp s1 s3 ≤ 0)%Z.
Proof. intros H12. by apply stricmp_trans. Qed.

Lemma stricmp_le_lt_trans (s1 s2 s3 : string) :
  (stricmp s1 s2 ≤ 0)%Z → (stricmp s2 s3 < 0)%Z → (stricmp s1 s3 < 0)%Z.
Proof. intros H12. by apply stricmp_trans. Qed.

Lemma stricmp_refl (s : string) : stricmp s s = 0%Z.
Proof.
  induction s as [| c s IH]; [done |].
  rewrite stricmp_unfold. cbn zeta. cbn [advance].
  case_test; [done | lia].
Qed.

(** * The key buffer *)
Module StringBuffFacts.
Import StringBuff StrDict.




Lemma memcpy_length (dest : list ascii) (offset : nat) (src : string)
    (n : nat) :
  length (memcpy dest offset src n) = length dest.
Proof.
  revert dest offset src. induction n as [| n IH]; intros dest offset src;
    [reflexivity |].
  destruct src as [| c src]; simpl; [reflexivity |].
  by rewrite IH, length_insert.
Qed.



Section WithSizeT.
Context `{SizeT}.

Lemma size_add_small (a b : nat) : a + b ≤ SIZE_MAX → size_add a b = a + b.
Proof. intros Hle. unfold size_add. apply Nat.mod_small. lia. Qed.



End WithSizeT.
End StringBuffFacts.

(** * The string dictionary *)
Module StrDictFacts.
Import StringBuff StrDict StringBuffFacts.

Ltac lia_or_congruence :=
  repeat split; first [lia | congruence].

Section WithSizeT.
Context `{SizeT}.

Implicit Types (dict : StrDict) (k : charp) (v : voidp).

(** ** The array is ordered *)

Lemma str_sorted_le dict (i j : nat) :
  sorted dict → i ≤ j → j < nitems dict →
  (stricmp (text (key (slots dict !!! i)))
           (text (key (slots dict !!! j))) ≤ 0)%Z.
Proof.
  intros Hsorted Hij Hj. induction j as [| j IH].
  - replace i with 0 by lia. by rewrite stricmp_refl.
  - destruct (decide (i = S j)) as [-> | Hne]; [by rewrite stricmp_refl |].
    eapply stricmp_le_trans; [apply IH; lia |]. apply Hsorted. lia.
Qed.

Lemma str_below_closed dict k (i j : nat) :
  sorted dict → i ≤ j → j < nitems dict →
  (stricmp (text (key (slots dict !!! j))) (text k) <? 0)%Z = true →
  (stricmp (text (key (slots dict !!! i))) (text k) <? 0)%Z = true.
Proof.
  intros Hsorted Hij Hj Hlow. bool_to_prop. apply Z.ltb_lt.
  eapply stricmp_le_lt_trans; [| exact Hlow]. by apply str_sorted_le.
Qed.

Lemma str_not_above_closed dict k (i j : nat) :
  sorted dict → i ≤ j → j < nitems dict →
  (stricmp (text (key (slots dict !!! j))) (text k) <=? 0)%Z = true →
  (stricmp (text (key (slots dict !!! i))) (text k) <=? 0)%Z = true.
Proof.
  intros Hsorted Hij Hj Hlow. bool_to_prop. apply Z.leb_le.
  eapply stricmp_le_trans; [| exact Hlow]. by apply str_sorted_le.
Qed.

(** ** The search cache *)

Lemma str_same_store_refl dict : same_store dict dict.
Proof. done. Qed.

Lemma str_same_store_trans dict1 dict2 dict3 :
  same_store dict1 dict2 → same_store dict2 dict3 → same_store dict1 dict3.
Proof. intros (? & ? & ?) (? & ? & ?). repeat split; congruence. Qed.

Lemma str_same_store_sym dict1 dict2 :
  same_store dict1 dict2 → same_store dict2 dict1.
Proof. intros (? & ? & ?). done. Qed.

Lemma str_same_store_slots dict dict' :
  same_store dict dict' → slots dict' = slots dict.
Proof. intros (_ & _ & Harr). unfold slots. by rewrite Harr. Qed.

Lemma str_same_store_sorted dict dict' :
  same_store dict dict' → sorted dict → sorted dict'.
Proof.
  intros Hsame Hsorted i Hi. rewrite (str_same_store_slots _ _ Hsame).
  destruct Hsame as (_ & Hn & _). apply Hsorted. lia.
Qed.

Lemma str_compare_key_n_item_effect dict (item : nat) :
  let dict' := (compare_key_n_item dict item).2 in
  same_store dict dict' ∧ sought_key dict' = sought_key dict
  ∧ buffer dict' = buffer dict ∧ candidate dict' = Some item.
Proof. done. Qed.

Lemma str_bsearch_effect dict :
  0 < nitems dict →
  let dict' := (bsearch compare_key_n_item dict (nitems dict)).2 in
  same_store dict dict' ∧ sought_key dict' = sought_key dict
  ∧ buffer dict' = buffer dict
  ∧ ∃ c, candidate dict' = Some c ∧ c < nitems dict.
Proof.
  intros Hn.
  destruct (bsearch_invariant compare_key_n_item
              (λ st, same_store dict st ∧ sought_key st = sought_key dict
                     ∧ buffer st = buffer dict)
              (λ st, ∃ c, candidate st = Some c ∧ c < nitems dict)
              (nitems dict) dict) as [(Hsame & Hkey & Hbuf) Hc];
    [| done | done |].
  - intros st idx Hidx (Hsame & Hkey & Hbuf).
    destruct (str_compare_key_n_item_effect st idx)
      as (Hsame' & Hkey' & Hbuf' & Hcand).
    split; [split; [| split] |].
    + by eapply str_same_store_trans.
    + congruence.
    + congruence.
    + by exists idx.
  - done.
Qed.

(** After the first half of [strdict_bisect_left] the cache names a slot
    that holds an item; on a cache miss its key is the copy in the buffer,
    or the caller's pointer when the copy failed. *)
Lemma str_refreshed_effect dict k env :
  wf dict → 0 < nitems dict →
  let dict2 := refreshed dict k env in
  same_store dict dict2
  ∧ (∃ c, candidate dict2 = Some c ∧ c < nitems dict)
  ∧ (if cache_miss dict k then
       buffer dict2 = (copy_key dict k env).2
       ∧ sought_key dict2 =
           (if (copy_key dict k env).1 then SoughtBuffer else SoughtCaller k)
     else dict2 = dict).
Proof.
  intros Hwf Hn. unfold refreshed, cache_miss, copy_key.
  assert (Hsearch : ∀ dict1,
    same_store dict dict1 → buffer dict1 = buffer dict →
    let truncated := stringbuffer_truncate (buffer dict1) 0 in
    let dict2 :=
      (let '(copied, buffer') :=
         stringbuffer_append_all truncated (text k) env in
       (bsearch compare_key_n_item
          (set_sought_key (if copied then SoughtBuffer else SoughtCaller k)
             (set_buffer buffer' dict1))
          (nitems
             (set_sought_key
                (if copied then SoughtBuffer else SoughtCaller k)
                (set_buffer buffer' dict1)))).2) in
    same_store dict dict2
    ∧ (∃ c, candidate dict2 = Some c ∧ c < nitems dict)
    ∧ buffer dict2 =
        (stringbuffer_append_all (stringbuffer_truncate (buffer dict) 0)
           (text k) env).2
      ∧ sought_key dict2 =
          (if (stringbuffer_append_all
                 (stringbuffer_truncate (buffer dict) 0) (text k) env).1
           then SoughtBuffer else SoughtCaller k)).
  { intros dict1 Hsame Hbuf. cbn zeta. rewrite Hbuf.
    destruct (stringbuffer_append_all
                (stringbuffer_truncate (buffer dict) 0) (text k) env)
      as [copied buffer'].
    cbn [fst snd].
    destruct (str_bsearch_effect
                (set_sought_key
                   (if copied then SoughtBuffer else SoughtCaller k)
                   (set_buffer buffer' dict1)))
      as (Hsame' & Hkey & Hb & c & Hc & Hlt).
    { destruct Hsame as (_ & Hn1 & _). cbn. lia. }
    cbn [set_sought_key set_buffer nitems sought_key buffer] in *.
    split; [| split; [| split]].
    - eapply str_same_store_trans; [| exact Hsame'].
      destruct Hsame as (? & ? & ?). done.
    - exists c. destruct Hsame as (_ & -> & _). done.
    - done.
    - done. }
  destruct (candidate dict) as [c0 |] eqn:Hcand.
  - destruct (stricmp (sought_text dict) (text k) =? 0)%Z eqn:Hcmp.
    + rewrite Hcand. cbn [negb]. split; [done |]. split; [| done].
      exists c0. split; [done |]. by apply (wf_candidate dict).
    + cbn [set_candidate candidate negb]. by apply Hsearch.
  - rewrite Hcand. by apply Hsearch.
Qed.

Lemma bisect_left_search_unfold dict k env array :
  StrDict.array dict = Some array → 0 < nitems dict →
  bisect_left_search dict k env =
    (match candidate (refreshed dict k env) with
     | Some c => correct_from array (nitems (refreshed dict k env)) k c
     | None => 0
     end, refreshed dict k env).
Proof.
  intros Harr Hn. unfold bisect_left_search. rewrite Harr.
  apply Nat.ltb_lt in Hn. rewrite Hn. fold (refreshed dict k env).
  destruct (candidate (refreshed dict k env)); [| done].
  unfold correct_from. by case_test.
Qed.

(** ** [strdict_bisect_left] and [strdict_bisect_right] *)

Lemma str_wf_slots_length dict : wf dict → nitems dict ≤ length (slots dict).
Proof.
  intros Hwf. pose proof (wf_nitems dict Hwf) as Hn.
  pose proof (wf_array dict Hwf) as Harr. unfold slots.
  destruct (array dict); simpl; lia.
Qed.

Lemma str_wf_same_store dict dict' :
  wf dict → same_store dict dict' →
  (∀ c, candidate dict' = Some c →
        c < nitems dict' ∧ sought_key dict' = SoughtBuffer) →
  (∀ p, sought_key dict' ≠ SoughtCaller p) →
  wf dict'.
Proof.
  intros Hwf Hsame Hcand Hsought. pose proof Hsame as (Ha & Hn & Harr).
  split.
  - rewrite <- Ha, <- Hn. apply Hwf.
  - rewrite <- Ha. apply Hwf.
  - rewrite <- Ha, <- Harr. apply Hwf.
  - done.
  - done.
  - eapply str_same_store_sorted; [done | apply Hwf].
Qed.

Lemma str_correct_from_partition dict k (c : nat) :
  wf dict → c < nitems dict →
  partition_point
    (λ i, (stricmp (text (key (slots dict !!! i))) (text k) <? 0)%Z)
    (nitems dict)
    (correct_from (slots dict) (nitems dict) k c).
Proof.
  intros Hwf Hc. unfold correct_from.
  assert (Hclosed : ∀ i j, i ≤ j → j < nitems dict →
            (stricmp (text (key (slots dict !!! j))) (text k) <? 0)%Z = true →
            (stricmp (text (key (slots dict !!! i))) (text k) <? 0)%Z = true).
  { intros i j. apply str_below_closed, Hwf. }
  case_test.
  - by apply scan_forward_partition.
  - apply scan_backward_partition; [done | | done | done].
    intros i. rewrite Z.geb_leb, Z.leb_antisym. done.
Qed.

Lemma forget_borrowed_key_store dict k :
  same_store dict (forget_borrowed_key dict k)
  ∧ buffer (forget_borrowed_key dict k) = buffer dict.
Proof.
  unfold forget_borrowed_key.
  destruct (array dict); [| done]. repeat case_test; done.
Qed.

(** What a call of [strdict_bisect_left] on a dictionary with items does:
    [c] is the slot the cache names after the search. *)
Lemma bisect_left_effect dict k env array :
  wf dict → StrDict.array dict = Some array → 0 < nitems dict →
  ∃ c, candidate (refreshed dict k env) = Some c ∧ c < nitems dict
       ∧ bisect_left_search dict k env =
           (correct_from array (nitems dict) k c, refreshed dict k env)
       ∧ strdict_bisect_left dict k env =
           (correct_from array (nitems dict) k c,
            if sought_key_is (refreshed dict k env) k
            then set_candidate None
                   (set_sought_key SoughtNull (refreshed dict k env))
            else refreshed dict k env).
Proof.
  intros Hwf Harr Hn.
  destruct (str_refreshed_effect dict k env Hwf Hn)
    as ((Ha & Hni & Harr') & (c & Hc & Hlt) & _).
  exists c. split; [done |]. split; [done |].
  assert (Hsearch : bisect_left_search dict k env =
            (correct_from array (nitems dict) k c, refreshed dict k env)).
  { rewrite (bisect_left_search_unfold dict k env array) by done.
    by rewrite Hc, <- Hni. }
  split; [done |].
  unfold strdict_bisect_left. rewrite Hsearch.
  unfold forget_borrowed_key. rewrite <- Harr', Harr, <- Hni.
  by replace (0 <? nitems dict) with true
    by (symmetry; by apply Nat.ltb_lt).
Qed.

Lemma bisect_left_idle dict k env :
  wf dict → StrDict.array dict = None ∨ nitems dict = 0 →
  strdict_bisect_left dict k env = (0, dict).
Proof.
  intros Hwf Hidle.
  assert (Hn : nitems dict = 0).
  { destruct Hidle as [Hnone | Hzero]; [| done].
    pose proof (wf_array dict Hwf) as Hcap. rewrite Hnone in Hcap.
    pose proof (wf_nitems dict Hwf). lia. }
  unfold strdict_bisect_left, bisect_left_search, forget_borrowed_key.
  destruct (StrDict.array dict) eqn:Harr; rewrite ?Hn; cbn;
    rewrite ?Harr, ?Hn; done.
Qed.

Lemma str_bisect_left_spec dict k env :
  wf dict →
  partition_point
    (λ i, (stricmp (text (key (slots dict !!! i))) (text k) <? 0)%Z)
    (nitems dict) (strdict_bisect_left dict k env).1
  ∧ same_store dict (strdict_bisect_left dict k env).2
  ∧ wf (strdict_bisect_left dict k env).2.
Proof.
  intros Hwf.
  destruct (StrDict.array dict) as [array |] eqn:Harr.
  - destruct (decide (0 < nitems dict)) as [Hn | Hn].
    + destruct (bisect_left_effect dict k env array Hwf Harr Hn)
        as (c & Hc & Hlt & _ & ->).
      destruct (str_refreshed_effect dict k env Hwf Hn)
        as (Hsame & _ & Hcache).
      cbn [fst snd].
      replace array with (slots dict) by (unfold slots; by rewrite Harr).
      split; [by apply str_correct_from_partition |].
      pose proof Hsame as (Ha & Hni & Harr').
      destruct (sought_key_is (refreshed dict k env) k) eqn:Hraw.
      * split; [done |]. by apply (str_wf_same_store dict).
      * split; [done |]. apply (str_wf_same_store dict); [done | done | |].
        -- intros c' Hc'. split; [rewrite <- Hni; congruence |].
           unfold cache_miss in Hcache.
           destruct (candidate dict) as [c0 |] eqn:Hcand.
           ++ destruct (negb (stricmp (sought_text dict) (text k) =? 0)%Z).
              ** destruct Hcache as [_ Hkey].
                 unfold sought_key_is in Hraw. rewrite Hkey in *.
                 destruct (copy_key dict k env).1; [done |].
                 by rewrite N.eqb_refl in Hraw.
              ** rewrite Hcache. by apply (wf_candidate dict Hwf c0).
           ++ destruct Hcache as [_ Hkey].
              unfold sought_key_is in Hraw. rewrite Hkey in *.
              destruct (copy_key dict k env).1; [done |].
              by rewrite N.eqb_refl in Hraw.
        -- intros p Hp. unfold cache_miss in Hcache.
           assert (Hmiss : sought_key (refreshed dict k env) =
                             (if (copy_key dict k env).1
                              then SoughtBuffer else SoughtCaller k)
                           ∨ refreshed dict k env = dict).
           { destruct (candidate dict);
               [destruct (negb (stricmp (sought_text dict) (text k) =? 0)%Z)
               |]; tauto. }
           destruct Hmiss as [Hkey | Heq].
           ++ unfold sought_key_is in Hraw. rewrite Hkey in *.
              destruct (copy_key dict k env).1; [done |].
              by rewrite N.eqb_refl in Hraw.
           ++ rewrite Heq in Hp. by apply (wf_sought dict Hwf p).
    + rewrite bisect_left_idle by (auto with lia). cbn [fst snd].
      split; [| done]. split; [lia |]. split; intros; lia.
  - rewrite bisect_left_idle by auto. cbn [fst snd].
    pose proof (wf_array dict Hwf) as Hzero. rewrite Harr in Hzero.
    pose proof (wf_nitems dict Hwf).
    split; [| done]. split; [lia |]. split; intros; lia.
Qed.

Lemma str_bisect_right_spec dict k env :
  wf dict →
  partition_point
    (λ i, (stricmp (text (key (slots dict !!! i))) (text k) <=? 0)%Z)
    (nitems dict) (strdict_bisect_right dict k env).1
  ∧ (strdict_bisect_left dict k env).1 ≤ (strdict_bisect_right dict k env).1
  ∧ (strdict_bisect_right dict k env).2 = (strdict_bisect_left dict k env).2.
Proof.
  intros Hwf.
  destruct (str_bisect_left_spec dict k env Hwf) as (Hpart & Hsame & _).
  unfold strdict_bisect_right.
  destruct (array dict) as [array |] eqn:Harr.
  - destruct (strdict_bisect_left dict k env) as [index dict1].
    cbn [fst snd] in *.
    replace array with (slots dict) by (unfold slots; by rewrite Harr).
    destruct Hsame as (_ & <- & _).
    split; [| split; [| done]].
    + eapply scan_right_partition; [| | exact Hpart].
      * intros i Hi. cbn beta in Hi. bool_to_prop. apply Z.leb_le. lia.
      * intros i j. apply str_not_above_closed, Hwf.
    + destruct (scan_right_stops (nitems dict)
                  (λ i, (stricmp (text (key (slots dict !!! i))) (text k)
                         <=? 0)%Z)
                  (nitems dict) index) as (Hle & _); [lia | exact Hle].
  - rewrite bisect_left_idle by auto. cbn [fst snd].
    pose proof (wf_array dict Hwf) as Hzero. rewrite Harr in Hzero.
    pose proof (wf_nitems dict Hwf).
    split; [| done]. split; [lia |]. split; intros; lia.
Qed.

(** ** [strdict_remove_at] *)

Lemma str_entries_length dict : wf dict → length (entries dict) = nitems dict.
Proof.
  intros Hwf. unfold entries. rewrite length_take.
  pose proof (str_wf_slots_length dict Hwf). lia.
Qed.

Lemma str_entries_lookup dict (i : nat) :
  i < nitems dict → entries dict !!! i = slots dict !!! i.
Proof. intros Hi. unfold entries. by rewrite lookup_total_take_lt. Qed.

Lemma str_remove_at_spec dict (index : nat) :
  wf dict → index < nitems dict →
  let dict' := strdict_remove_at dict index in
  nitems dict' = nitems dict - 1
  ∧ nalloc dict' = nalloc dict
  ∧ sought_key dict' = sought_key dict
  ∧ buffer dict' = buffer dict
  ∧ candidate dict' = None
  ∧ entries dict' = delete index (entries dict)
  ∧ wf dict'.
Proof.
  intros Hwf Hindex.
  pose proof (wf_nitems dict Hwf) as Hn.
  pose proof (wf_array dict Hwf) as Harr.
  pose proof (wf_sorted dict Hwf) as Hsorted.
  pose proof (str_sorted_le dict) as Hle.
  unfold strdict_remove_at, entries, sorted, slots in *.
  destruct (array dict) as [array |] eqn:Earr; [| lia].
  destruct (nitems dict) as [| n] eqn:En; [lia |].
  cbn [size_dec nitems nalloc sought_key candidate StrDict.array buffer
       from_option id].
  cbn [from_option id] in Hsorted, Hle.
  replace (S n - 1) with n by lia.
  assert (Hlookup : ∀ j, j < n →
    shift_down array n (n - index) index !!! j =
    array !!! (if decide (j < index) then j else S j)).
  { intros j Hj. rewrite shift_down_lookup by lia.
    repeat case_decide; try lia; try done. f_equal. lia. }
  repeat split; try done.
  - apply shift_down_take; lia.
  - cbn. lia.
  - apply Hwf.
  - cbn. by rewrite shift_down_length.
  - apply Hwf.
  - intros i Hi. unfold slots.
    cbn [nitems StrDict.array from_option id] in *.
    rewrite !Hlookup by lia.
    repeat case_decide; try lia; apply Hle; try done; lia.
Qed.

(** ** [strdict_find] and [strdict_find_specific] *)

Lemma str_find_state dict k env :
  (strdict_find dict k env).2 = (strdict_bisect_left dict k env).2.
Proof.
  unfold strdict_find.
  destruct (strdict_bisect_left dict k env) as [i dict1].
  destruct (array dict1); [case_test |]; done.
Qed.

Lemma str_find_specific_state dict k v env :
  wf dict →
  same_store dict (strdict_find_specific dict k v env).2
  ∧ wf (strdict_find_specific dict k v env).2.
Proof.
  intros Hwf.
  destruct (str_bisect_left_spec dict k env Hwf) as (_ & Hsame & Hwf1).
  unfold strdict_find_specific.
  destruct (array dict); [| done].
  destruct (strdict_bisect_left dict k env) as [i dict1].
  cbn [fst snd] in *.
  repeat case_test; try done.
  destruct (find_specific_loop _ _ _ _ _ _ _). by repeat case_test.
Qed.

(** ** The index a search returns depends on the store only *)

Lemma str_bisect_left_same_store dict dict' k env env' :
  wf dict → wf dict' → same_store dict dict' →
  (strdict_bisect_left dict k env).1 = (strdict_bisect_left dict' k env').1.
Proof.
  intros Hwf Hwf' Hsame.
  destruct (str_bisect_left_spec dict k env Hwf) as (Hpart & _).
  destruct (str_bisect_left_spec dict' k env' Hwf') as (Hpart' & _).
  rewrite (str_same_store_slots _ _ Hsame) in Hpart'.
  destruct Hsame as (_ & Hn & _). rewrite <- Hn in Hpart'.
  eapply partition_point_unique; eassumption.
Qed.

Lemma str_bisect_right_same_store dict dict' k env env' :
  wf dict → wf dict' → same_store dict dict' →
  (strdict_bisect_right dict k env).1 = (strdict_bisect_right dict' k env').1.
Proof.
  intros Hwf Hwf' Hsame.
  destruct (str_bisect_right_spec dict k env Hwf) as (Hpart & _).
  destruct (str_bisect_right_spec dict' k env' Hwf') as (Hpart' & _).
  rewrite (str_same_store_slots _ _ Hsame) in Hpart'.
  destruct Hsame as (_ & Hn & _). rewrite <- Hn in Hpart'.
  eapply partition_point_unique; eassumption.
Qed.

Lemma str_find_same_store dict dict' k env env' :
  wf dict → wf dict' → same_store dict dict' →
  (strdict_find dict k env).1 = (strdict_find dict' k env').1.
Proof.
  intros Hwf Hwf' Hsame.
  pose proof (str_bisect_left_same_store dict dict' k env env' Hwf Hwf' Hsame)
    as Hindex.
  destruct (str_bisect_left_spec dict k env Hwf) as (_ & (_ & Hn & Harr) & _).
  destruct (str_bisect_left_spec dict' k env' Hwf') as (_ & (_ & Hn' & Harr') & _).
  destruct Hsame as (_ & Hnn & Haa).
  unfold strdict_find.
  destruct (strdict_bisect_left dict k env) as [i dict1].
  destruct (strdict_bisect_left dict' k env') as [i' dict1'].
  cbn [fst snd] in *. subst i'.
  rewrite <- Harr, <- Harr', <- Haa, <- Hn, <- Hn', <- Hnn.
  destruct (array dict); [case_test |]; done.
Qed.

Lemma str_uncached_wf dict : wf dict → wf (set_candidate None dict).
Proof.
  intros Hwf. apply (str_wf_same_store dict); [done | done | done |].
  apply Hwf.
Qed.

End WithSizeT.

Section WithGrowth.
Context `{SizeT}.

Implicit Types (dict : StrDict) (k : charp) (v : voidp).

(** ** [strdict_insert] *)

Hypothesis init_size_fits : ArrayInitSize ≤ SIZE_MAX.

Lemma str_new_size_bounds (n : nat) :
  n < SIZE_MAX → n < new_size n ∧ new_size n ≤ SIZE_MAX.
Proof.
  intros Hn. unfold new_size, ArrayGrowthFactor, ArrayInitSize in *.
  repeat case_test; bool_to_prop; try lia.
  pose proof (Nat.Div0.mul_div_le SIZE_MAX 2). lia.
Qed.

Lemma str_classic_refused dict env :
  insert_refused dict env ∨ ¬ insert_refused dict env.
Proof.
  unfold insert_refused.
  destruct (decide (nitems dict = nalloc dict)) as [Hfull | Hroom];
    [| right; tauto].
  destruct (decide (nalloc dict = SIZE_MAX)) as [Hmax | Hmax];
    [left; tauto |].
  destruct env as [| fresh]; [left; tauto |].
  right. intros (_ & [? | ?]); done.
Qed.

Lemma str_insert_failure dict k v benv env :
  wf dict → insert_refused dict env →
  strdict_insert dict k v benv env =
    (false, None, (strdict_bisect_left dict k benv).2).
Proof.
  intros Hwf (Hfull & Hwhy).
  destruct (str_bisect_left_spec dict k benv Hwf) as (_ & (Ha & Hn & Harr) & _).
  unfold strdict_insert.
  destruct (strdict_bisect_left dict k benv) as [ins dict1].
  cbn [fst snd] in *.
  replace (nitems dict1 =? nalloc dict1) with true
    by (symmetry; apply Nat.eqb_eq; lia).
  destruct Hwhy as [Hmax | ->].
  - replace (nalloc dict1 =? SIZE_MAX) with true
      by (symmetry; apply Nat.eqb_eq; lia).
    done.
  - by case_test.
Qed.

Lemma str_insert_success dict k v benv env :
  wf dict → ¬ insert_refused dict env →
  ∃ dict',
    strdict_insert dict k v benv env =
      (true, Some (strdict_bisect_left dict k benv).1, dict')
    ∧ nitems dict' = S (nitems dict)
    ∧ nalloc dict' =
        (if decide (nitems dict = nalloc dict)
         then new_size (nalloc dict) else nalloc dict)
    ∧ sought_key dict' = sought_key (strdict_bisect_left dict k benv).2
    ∧ buffer dict' = buffer (strdict_bisect_left dict k benv).2
    ∧ candidate dict' = None
    ∧ entries dict' =
        insert_at (strdict_bisect_left dict k benv).1
          {| key := k; value := v |} (entries dict)
    ∧ wf dict'.
Proof.
  intros Hwf Hok.
  destruct (str_bisect_left_spec dict k benv Hwf)
    as ((Hins & Hbelow & Habove) & (Ha & Hn & Harr) & Hwf1).
  pose proof (wf_nitems dict Hwf) as Hcount.
  pose proof (wf_nalloc dict Hwf) as Hcap.
  pose proof (wf_array dict Hwf) as Hlen.
  pose proof (wf_sought _ Hwf1) as Hsought.
  unfold strdict_insert.
  destruct (strdict_bisect_left dict k benv) as [ins dict1].
  cbn [fst snd] in *.
  assert (Hgrown : ∃ array' cap,
    (if nitems dict1 =? nalloc dict1 then
       if nalloc dict1 =? SIZE_MAX then None
       else
         match realloc (array dict1) (new_size (nalloc dict1)) env with
         | None => None
         | Some new_array =>
             Some {| nalloc := new_size (nalloc dict1);
                     nitems := nitems dict1;
                     buffer := buffer dict1;
                     sought_key := sought_key dict1;
                     array := Some new_array;
                     candidate := candidate dict1 |}
         end
     else Some dict1)
    = Some {| nalloc := cap; nitems := nitems dict1;
              buffer := buffer dict1;
              sought_key := sought_key dict1; array := Some array';
              candidate := candidate dict1 |}
    ∧ cap = (if decide (nitems dict = nalloc dict)
             then new_size (nalloc dict) else nalloc dict)
    ∧ length array' = cap ∧ nitems dict < cap ∧ cap ≤ SIZE_MAX
    ∧ ∀ j, j < nitems dict → array' !!! j = slots dict !!! j).
  { rewrite <- Ha, <- Hn, <- Harr.
    destruct (decide (nitems dict = nalloc dict)) as [Hfull | Hroom].
    - replace (nitems dict =? nalloc dict) with true
        by (symmetry; apply Nat.eqb_eq; lia).
      assert (nalloc dict ≠ SIZE_MAX ∧ env ≠ ReallocFail) as [Hmax Henv].
      { split; intros Hbad; apply Hok; split; auto. }
      replace (nalloc dict =? SIZE_MAX) with false
        by (symmetry; apply Nat.eqb_neq; lia).
      destruct (str_new_size_bounds (nalloc dict)) as [Hgrow Hfit]; [lia |].
      destruct env as [| fresh]; [done |]. cbn [realloc].
      eexists _, _. split; [reflexivity |].
      split; [done |]. split; [by rewrite length_resize |].
      split; [lia |]. split; [done |].
      intros j Hj. unfold slots.
      assert (Hold : length (default [] (array dict)) = nalloc dict).
      { destruct (array dict); simpl; [done | lia]. }
      rewrite lookup_total_resize by (rewrite ?length_app; lia).
      by rewrite lookup_total_app_l by lia.
    - replace (nitems dict =? nalloc dict) with false
        by (symmetry; apply Nat.eqb_neq; lia).
      destruct (array dict) as [array |] eqn:Earr; [| lia].
      exists array, (nalloc dict). unfold slots. rewrite Earr.
      split; [| repeat split; auto with lia].
      f_equal. destruct dict1; cbn in *. congruence. }
  destruct Hgrown as (array' & cap & -> & Hcap' & Hlen' & Hroom & Hfit & Hold).
  cbn [array nitems nalloc sought_key buffer].
  eexists. split; [reflexivity |].
  cbn [array nitems nalloc sought_key candidate buffer].
  rewrite <- Hn.
  assert (Hnew : ∀ j, j ≤ nitems dict →
    <[ins := {| key := k; value := v |}]>
      (shift_up array' ins (nitems dict)) !!! j =
    if decide (j < ins) then slots dict !!! j
    else if decide (j = ins) then {| key := k; value := v |}
    else slots dict !!! (j - 1)).
  { intros j Hj. rewrite shift_up_insert_lookup by lia.
    repeat case_decide; try lia; try done; apply Hold; lia. }
  split; [lia |]. split; [done |]. split; [done |]. split; [done |].
  split; [done |]. split.
  - unfold entries, slots at 1. cbn [array nitems from_option id].
    replace (nitems dict + 1) with (S (nitems dict)) by lia.
    rewrite shift_up_insert_take by lia. f_equal.
    apply list_eq_total.
    + rewrite !length_take. pose proof (str_wf_slots_length dict Hwf). lia.
    + intros i Hi. rewrite length_take in Hi.
      rewrite !lookup_total_take_lt by lia. apply Hold. lia.
  - split; cbn [array nitems nalloc candidate sought_key]; try done;
      try lia.
    + by rewrite length_insert, shift_up_length.
    + intros i Hi. unfold slots at 1 2.
      cbn [array nitems from_option id] in *.
      rewrite !Hnew by lia.
      assert (Hlow : ∀ j, j < ins →
                (stricmp (text (key (slots dict !!! j))) (text k) < 0)%Z).
      { intros j Hj. apply Hbelow in Hj. by bool_to_prop. }
      assert (Hhigh : ∀ j, ins ≤ j → j < nitems dict →
                (stricmp (text k) (text (key (slots dict !!! j))) ≤ 0)%Z).
      { intros j Hj Hjn. apply Habove in Hj; [| done]. bool_to_prop.
        rewrite stricmp_antisym. lia. }
      repeat case_decide; try lia; cbn [key].
      all: try (apply (str_sorted_le dict); [apply Hwf | lia | lia]).
      all: try (apply Z.lt_le_incl, Hlow; lia).
      all: try (apply Hhigh; lia).
Qed.

(** ** Every call keeps the representation invariant *)

Lemma str_init_wf : wf strdict_init.
Proof.
  split; cbn; try done; try lia.
Qed.

Lemma str_insert_wf dict k v benv env :
  wf dict → wf (strdict_insert dict k v benv env).2.
Proof.
  intros Hwf.
  destruct (str_classic_refused dict env) as [Hno | Hyes].
  - rewrite str_insert_failure by done. apply str_bisect_left_spec, Hwf.
  - destruct (str_insert_success dict k v benv env Hwf Hyes)
      as (dict' & -> & Hrest).
    apply Hrest.
Qed.

Lemma str_step_wf dict (o : op) (out : outcome) dict' :
  wf dict → step dict o = Some (out, dict') → wf dict'.
Proof.
  intros Hwf. destruct o as [k benv | k benv | k benv | k v benv
                             | k v benv env | index | index]; cbn [step].
  - pose proof (str_bisect_left_spec dict k benv Hwf) as (_ & _ & Hwf').
    destruct (strdict_bisect_left dict k benv). intros [= <- <-]. done.
  - pose proof (str_bisect_right_spec dict k benv Hwf) as (_ & _ & Heq).
    pose proof (str_bisect_left_spec dict k benv Hwf) as (_ & _ & Hwf').
    destruct (strdict_bisect_right dict k benv). intros [= <- <-].
    cbn [snd] in Heq. by rewrite Heq.
  - pose proof (str_find_state dict k benv) as Heq.
    pose proof (str_bisect_left_spec dict k benv Hwf) as (_ & _ & Hwf').
    destruct (strdict_find dict k benv) as [[found pos] dict1].
    intros [= <- <-]. cbn [snd] in Heq. by rewrite Heq.
  - pose proof (str_find_specific_state dict k v benv Hwf) as [_ Hwf'].
    destruct (strdict_find_specific dict k v benv) as [[found pos] dict1].
    intros [= <- <-]. done.
  - pose proof (str_insert_wf dict k v benv env Hwf) as Hwf'.
    destruct (strdict_insert dict k v benv env) as [[ok pos] dict1].
    intros [= <- <-]. done.
  - case_test; [| done]. bool_to_prop. intros [= <- <-].
    by apply str_remove_at_spec.
  - case_test; [| done]. bool_to_prop. unfold strdict_remove_value_at.
    intros [= <- <-]. by apply str_remove_at_spec.
Qed.

Lemma str_reachable_wf dict : reachable dict → wf dict.
Proof.
  induction 1 as [| dict o out dict' _ IH Hstep]; [apply str_init_wf |].
  by eapply str_step_wf.
Qed.

End WithGrowth.
End StrDictFacts.

(** * The sample dictionaries *)
Module SampleFacts.
Import Samples.

Lemma size16_fits : 4 ≤ @SIZE_MAX size16.
Proof. apply Nat.leb_le. reflexivity. Qed.

Lemma int_sample_run :
  IntDict.run (IntDict.step (H := size16)) IntDict.intdict_init int_calls
  = Some (int_outs, int_sample).
Proof. vm_compute. reflexivity. Qed.

Lemma int_sample_reachable : IntDict.reachable (H := size16) int_sample.
Proof.
  eapply IntDictFacts.run_reachable;
    [apply IntDict.reachable_init | apply int_sample_run].
Qed.

Lemma int_sample_wf : IntDict.wf (H := size16) int_sample.
Proof.
  apply IntDictFacts.reachable_wf; [apply size16_fits |].
  apply int_sample_reachable.
Qed.

Ltac sample_sorted :=
  let i := fresh "i" in
  let Hi := fresh "Hi" in
  intros i Hi; cbn in Hi;
  repeat (destruct i as [| i]; [vm_compute; discriminate |]);
  exfalso; lia.

Ltac sample_wf :=
  split;
  [ cbn; lia
  | apply Nat.leb_le; vm_compute; reflexivity
  | reflexivity
  | cbn; intros ? [=] | .. ];
  try (cbn; by intros ? [=]); try sample_sorted.

Lemma int_single_wf : IntDict.wf (H := size16) int_single.
Proof. sample_wf. Qed.

Lemma int_null_value_wf : IntDict.wf (H := size16) int_null_value.
Proof. sample_wf. Qed.

Lemma str_sample_wf : StrDict.wf (H := size16) str_sample.
Proof. sample_wf. Qed.

Lemma str_null_value_wf : StrDict.wf (H := size16) str_null_value.
Proof. sample_wf. Qed.

Lemma str_sample_reachable : StrDict.reachable (H := size16) str_sample.
Proof.
  eapply (StrDict.reachable_step _ (StrDict.Insert (key_at 200 "Aardvark")
                                      12%N (ReallocOk []) (ReallocOk []))).
  - eapply (StrDict.reachable_step _ (StrDict.Insert (key_at 100 "bison")
                                        11%N (ReallocOk []) (ReallocOk []))).
    + apply StrDict.reachable_init.
    + vm_compute. reflexivity.
  - vm_compute. reflexivity.
Qed.


End SampleFacts.

(** * Properties of both dictionaries *)
Section BothDictionaries.
Context `{SizeT}.
Hypothesis init_size_fits : 4 ≤ SIZE_MAX.

(** C2. In every dictionary a client can obtain, the search that ignores
    the cached candidate and always runs the full binary search returns
    the index the cached search returns, and so do [bisect_right] and
    [find] built on it; a sequence of calls hands back the same results
    with and without the cache. *)
Theorem cache_transparency :
  (∀ dict k,
     IntDict.reachable dict →
     (IntDict.intdict_bisect_left dict k).1
       = (IntDict.intdict_bisect_left_uncached dict k).1
     ∧ (IntDict.intdict_bisect_right dict k).1
       = (IntDict.intdict_bisect_right_uncached dict k).1
     ∧ (IntDict.intdict_find dict k).1
       = (IntDict.intdict_find_uncached dict k).1)
  ∧ (∀ ops,
       fst <$> IntDict.run IntDict.step IntDict.intdict_init ops
       = fst <$> IntDict.run IntDict.step_uncached IntDict.intdict_init ops)
  ∧ (∀ dict k env env',
       StrDict.reachable dict →
       (StrDict.strdict_bisect_left dict k env).1
         = (StrDict.strdict_bisect_left_uncached dict k env').1
       ∧ (StrDict.strdict_bisect_right dict k env).1
         = (StrDict.strdict_bisect_right_uncached dict k env').1
       ∧ (StrDict.strdict_find dict k env).1
         = (StrDict.strdict_find_uncached dict k env').1).
Proof.
  split; [| split].
  - intros dict k Hreach.
    pose proof (IntDictFacts.reachable_wf init_size_fits dict Hreach) as Hwf.
    pose proof (IntDictFacts.uncached_wf dict Hwf) as Hwf'.
    assert (Hsame : IntDict.same_store dict
                      (IntDict.set_candidate None dict)) by done.
    split; [| split].
    + by apply IntDictFacts.bisect_left_same_store.
    + by apply IntDictFacts.bisect_right_same_store.
    + by apply IntDictFacts.find_same_store.
  - intros ops. apply (IntDictFacts.run_same_store init_size_fits); try done.
    all: by apply IntDictFacts.init_wf.
  - intros dict k env env' Hreach.
    pose proof (StrDictFacts.str_reachable_wf init_size_fits dict Hreach) as Hwf.
    pose proof (StrDictFacts.str_uncached_wf dict Hwf) as Hwf'.
    assert (Hsame : StrDict.same_store dict
                      (StrDict.set_candidate None dict)) by done.
    split; [| split].
    + by apply StrDictFacts.str_bisect_left_same_store.
    + by apply StrDictFacts.str_bisect_right_same_store.
    + by apply StrDictFacts.str_find_same_store.
Qed.


End BothDictionaries.

Section Iterators.
Context `{SizeT}.

Lemma int_range dict (min_key max_key : IntDict.IntDictKey) (j : nat) :
  IntDict.wf dict → j < IntDict.nitems dict →
  ((IntDict.intdict_bisect_left dict min_key).1 ≤ j
   ∧ j < (IntDict.intdict_bisect_right dict max_key).1)
  ↔ (min_key ≤ IntDict.key (IntDict.entries dict !!! j)
     ∧ IntDict.key (IntDict.entries dict !!! j) ≤ max_key)%Z.
Proof.
  intros Hwf Hj. rewrite IntDictFacts.entries_lookup by done.
  destruct (IntDictFacts.bisect_left_spec dict min_key Hwf)
    as ((_ & Hbelow & Habove) & _).
  destruct (IntDictFacts.bisect_right_spec dict max_key Hwf)
    as ((_ & Hbelow' & Habove') & _).
  specialize (Hbelow j). specialize (Habove j).
  specialize (Hbelow' j). specialize (Habove' j). cbn beta in *.
  destruct (decide ((IntDict.intdict_bisect_left dict min_key).1 ≤ j)),
    (decide (j < (IntDict.intdict_bisect_right dict max_key).1)).
  all: repeat match goal with
       | Hx : ?a ≤ ?b → _, Hy : ?a ≤ ?b |- _ => specialize (Hx Hy)
       | Hx : ?a < ?b → _, Hy : ?a < ?b |- _ => specialize (Hx Hy)
       | Hx : ?a < ?b → _, Hy : ¬ ?b ≤ ?a |- _ =>
           specialize (Hx ltac:(lia))
       | Hx : ?a ≤ ?b → _, Hy : ¬ ?b < ?a |- _ =>
           specialize (Hx ltac:(lia))
       end.
  all: bool_to_prop; lia.
Qed.

Lemma str_range dict (min_key max_key : charp)
    (env env' : realloc_result ascii) (j : nat) :
  StrDict.wf dict → j < StrDict.nitems dict →
  ((StrDict.strdict_bisect_left dict min_key env).1 ≤ j
   ∧ j < (StrDict.strdict_bisect_right dict max_key env').1)
  ↔ (0 ≤ stricmp (text (StrDict.key (StrDict.entries dict !!! j)))
           (text min_key)
     ∧ stricmp (text (StrDict.key (StrDict.entries dict !!! j)))
         (text max_key) ≤ 0)%Z.
Proof.
  intros Hwf Hj. rewrite StrDictFacts.str_entries_lookup by done.
  destruct (StrDictFacts.str_bisect_left_spec dict min_key env Hwf)
    as ((_ & Hbelow & Habove) & _).
  destruct (StrDictFacts.str_bisect_right_spec dict max_key env' Hwf)
    as ((_ & Hbelow' & Habove') & _).
  specialize (Hbelow j). specialize (Habove j).
  specialize (Hbelow' j). specialize (Habove' j). cbn beta in *.
  destruct (decide ((StrDict.strdict_bisect_left dict min_key env).1 ≤ j)),
    (decide (j < (StrDict.strdict_bisect_right dict max_key env').1)).
  all: repeat match goal with
       | Hx : ?a ≤ ?b → _, Hy : ?a ≤ ?b |- _ => specialize (Hx Hy)
       | Hx : ?a < ?b → _, Hy : ?a < ?b |- _ => specialize (Hx Hy)
       | Hx : ?a < ?b → _, Hy : ¬ ?b ≤ ?a |- _ =>
           specialize (Hx ltac:(lia))
       | Hx : ?a ≤ ?b → _, Hy : ¬ ?b < ?a |- _ =>
           specialize (Hx ltac:(lia))
       end.
  all: bool_to_prop; lia.
Qed.

Lemma int_viter_init_effect dict (min_key max_key : IntDict.IntDictKey) :
  IntDict.wf dict →
  let first := (IntDict.intdict_bisect_left dict min_key).1 in
  let last := (IntDict.intdict_bisect_right dict max_key).1 in
  ∃ dict',
    IntDict.same_store dict dict'
    ∧ IntDict.intdictviter_init dict min_key max_key =
        (let '(v, iter) :=
           IntDict.intdictviter_advance
             {| IntDict.next_index := first; IntDict.end_ := last |} dict in
         (v, iter, dict')).
Proof.
  intros Hwf first last. unfold IntDict.intdictviter_init.
  destruct (IntDictFacts.bisect_left_spec dict min_key Hwf)
    as (_ & Hsame1 & Hwf1).
  fold first.
  destruct (IntDict.intdict_bisect_left dict min_key) as [first' dict1].
  cbn [fst snd] in *.
  pose proof (IntDictFacts.bisect_right_same_store dict dict1 max_key
                Hwf Hwf1 Hsame1) as Hlast. fold last in Hlast.
  destruct (IntDictFacts.bisect_right_state dict1 max_key Hwf1)
    as (Hsame2 & _).
  destruct (IntDict.intdict_bisect_right dict1 max_key) as [last' dict2].
  cbn [fst snd] in *. subst last'.
  assert (Hsame : IntDict.same_store dict dict2)
    by (by eapply IntDictFacts.same_store_trans).
  exists dict2. split; [done |].
  unfold IntDict.intdictviter_advance, IntDict.intdict_get_value_at.
  by rewrite (IntDictFacts.same_store_slots _ _ Hsame).
Qed.

Lemma str_viter_init_effect dict (min_key max_key : charp)
    (env1 env2 : realloc_result ascii) :
  StrDict.wf dict →
  let first := (StrDict.strdict_bisect_left dict min_key env1).1 in
  let last := (StrDict.strdict_bisect_right dict max_key env2).1 in
  ∃ dict',
    StrDict.same_store dict dict'
    ∧ StrDict.strdictviter_init dict min_key max_key env1 env2 =
        (let '(v, iter) :=
           StrDict.strdictviter_advance
             {| StrDict.next_index := first; StrDict.end_ := last |} dict in
         (v, iter, dict')).
Proof.
  intros Hwf first last. unfold StrDict.strdictviter_init.
  destruct (StrDictFacts.str_bisect_left_spec dict min_key env1 Hwf)
    as (_ & Hsame1 & Hwf1).
  fold first.
  destruct (StrDict.strdict_bisect_left dict min_key env1)
    as [first' dict1].
  cbn [fst snd] in *.
  pose proof (StrDictFacts.str_bisect_right_same_store dict dict1 max_key
                env2 env2 Hwf Hwf1 Hsame1) as Hlast. fold last in Hlast.
  destruct (StrDictFacts.str_bisect_right_spec dict1 max_key env2 Hwf1)
    as (_ & _ & Hstate).
  destruct (StrDictFacts.str_bisect_left_spec dict1 max_key env2 Hwf1)
    as (_ & Hsame2 & _).
  rewrite <- Hstate in Hsame2.
  destruct (StrDict.strdict_bisect_right dict1 max_key env2)
    as [last' dict2].
  cbn [fst snd] in *. subst last'.
  assert (Hsame : StrDict.same_store dict dict2)
    by (by eapply StrDictFacts.str_same_store_trans).
  exists dict2. split; [done |].
  unfold StrDict.strdictviter_advance, StrDict.strdict_get_value_at.
  by rewrite (StrDictFacts.str_same_store_slots _ _ Hsame).
Qed.

(** C9, as the code has it.  [init] computes [next_index] as
    [bisect_left(min_key)] and [end] as [bisect_right(max_key)], a range
    that holds exactly the entries whose key lies between the two keys,
    both included, and [all_init] the range of all entries; both then make
    one [advance] before they return: [end] is the stated bound, and
    [next_index] is one more than the stated bisect result when the range
    holds an entry, whose value is returned, and the bisect result itself
    (with a null result) only when the range is empty. *)
Theorem viter_init_contract :
  (∀ dict min_key max_key,
     IntDict.wf dict →
     let first := (IntDict.intdict_bisect_left dict min_key).1 in
     let last := (IntDict.intdict_bisect_right dict max_key).1 in
     let '(v, iter, dict') :=
       IntDict.intdictviter_init dict min_key max_key in
     IntDict.end_ iter = last
     ∧ (if decide (first < last)
        then IntDict.next_index iter = first + 1
             ∧ v = IntDict.value (IntDict.entries dict !!! first)
        else IntDict.next_index iter = first ∧ v = NULL)
     ∧ IntDict.same_store dict dict'
     ∧ ∀ j, j < IntDict.nitems dict →
            (first ≤ j ∧ j < last)
            ↔ (min_key ≤ IntDict.key (IntDict.entries dict !!! j)
               ∧ IntDict.key (IntDict.entries dict !!! j) ≤ max_key)%Z)
  ∧ (∀ dict,
       IntDict.wf dict →
       let '(v, iter) := IntDict.intdictviter_all_init dict in
       IntDict.end_ iter = IntDict.nitems dict
       ∧ (if decide (0 < IntDict.nitems dict)
          then IntDict.next_index iter = 1
               ∧ v = IntDict.value (IntDict.entries dict !!! 0)
          else IntDict.next_index iter = 0 ∧ v = NULL))
  ∧ (∀ dict min_key max_key env1 env2,
       StrDict.wf dict →
       let first := (StrDict.strdict_bisect_left dict min_key env1).1 in
       let last := (StrDict.strdict_bisect_right dict max_key env2).1 in
       let '(v, iter, dict') :=
         StrDict.strdictviter_init dict min_key max_key env1 env2 in
       StrDict.end_ iter = last
       ∧ (if decide (first < last)
          then StrDict.next_index iter = first + 1
               ∧ v = StrDict.value (StrDict.entries dict !!! first)
          else StrDict.next_index iter = first ∧ v = NULL)
       ∧ StrDict.same_store dict dict'
       ∧ ∀ j, j < StrDict.nitems dict →
              (first ≤ j ∧ j < last)
              ↔ (0 ≤ stricmp
                       (text (StrDict.key (StrDict.entries dict !!! j)))
                       (text min_key)
                 ∧ stricmp (text (StrDict.key (StrDict.entries dict !!! j)))
                     (text max_key) ≤ 0)%Z)
  ∧ (∀ dict,
       StrDict.wf dict →
       let '(v, iter) := StrDict.strdictviter_all_init dict in
       StrDict.end_ iter = StrDict.nitems dict
       ∧ (if decide (0 < StrDict.nitems dict)
          then StrDict.next_index iter = 1
               ∧ v = StrDict.value (StrDict.entries dict !!! 0)
          else StrDict.next_index iter = 0 ∧ v = NULL)).
Proof.
  split; [| split; [| split]].
  - intros dict min_key max_key Hwf first last.
    destruct (int_viter_init_effect dict min_key max_key Hwf)
      as (dict' & Hsame & ->).
    fold first last.
    destruct (IntDictFacts.bisect_right_spec dict max_key Hwf)
      as ((Hlast & _) & _). fold last in Hlast.
    unfold IntDict.intdictviter_advance. cbn [IntDict.next_index IntDict.end_].
    case_decide as Hrange.
    + replace (first <? last) with true
        by (symmetry; by apply Nat.ltb_lt).
      cbn [IntDict.next_index IntDict.end_].
      rewrite IntDictFacts.get_value_at_entries by lia.
      repeat (split; [done |]). intros j Hj. by apply int_range.
    + replace (first <? last) with false
        by (symmetry; apply Nat.ltb_ge; lia).
      repeat (split; [done |]). intros j Hj. by apply int_range.
  - intros dict Hwf.
    unfold IntDict.intdictviter_all_init, IntDict.intdictviter_advance,
      IntDict.intdict_count.
    cbn [IntDict.next_index IntDict.end_].
    case_decide as Hrange.
    + replace (0 <? IntDict.nitems dict) with true
        by (symmetry; by apply Nat.ltb_lt).
      cbn [IntDict.next_index IntDict.end_].
      by rewrite IntDictFacts.get_value_at_entries by lia.
    + replace (0 <? IntDict.nitems dict) with false
        by (symmetry; apply Nat.ltb_ge; lia).
      done.
  - intros dict min_key max_key env1 env2 Hwf first last.
    destruct (str_viter_init_effect dict min_key max_key env1 env2 Hwf)
      as (dict' & Hsame & ->).
    fold first last.
    destruct (StrDictFacts.str_bisect_right_spec dict max_key env2 Hwf)
      as ((Hlast & _) & _). fold last in Hlast.
    unfold StrDict.strdictviter_advance. cbn [StrDict.next_index StrDict.end_].
    case_decide as Hrange.
    + replace (first <? last) with true
        by (symmetry; by apply Nat.ltb_lt).
      cbn [StrDict.next_index StrDict.end_].
      unfold StrDict.strdict_get_value_at.
      rewrite <- StrDictFacts.str_entries_lookup by lia.
      repeat (split; [done |]). intros j Hj. by apply str_range.
    + replace (first <? last) with false
        by (symmetry; apply Nat.ltb_ge; lia).
      repeat (split; [done |]). intros j Hj. by apply str_range.
  - intros dict Hwf.
    unfold StrDict.strdictviter_all_init, StrDict.strdictviter_advance,
      StrDict.strdict_count.
    cbn [StrDict.next_index StrDict.end_].
    case_decide as Hrange.
    + replace (0 <? StrDict.nitems dict) with true
        by (symmetry; by apply Nat.ltb_lt).
      cbn [StrDict.next_index StrDict.end_].
      unfold StrDict.strdict_get_value_at.
      by rewrite <- StrDictFacts.str_entries_lookup by lia.
    + replace (0 <? StrDict.nitems dict) with false
        by (symmetry; apply Nat.ltb_ge; lia).
      done.
Qed.

End Iterators.

Section Cache.
Import StringBuff StringBuffFacts.
Context `{SizeT}.

(** C10. An entry in the range whose value is null makes [advance] return
    null although the entry was there and has been consumed; an exhausted
    iterator returns null as well, so that the null result of [advance] or
    of an [init] function does not tell the two apart. *)
Theorem null_value_ambiguity :
  (∀ iter dict,
     IntDict.next_index iter < IntDict.end_ iter →
     IntDict.end_ iter ≤ IntDict.nitems dict →
     IntDict.value (IntDict.entries dict !!! IntDict.next_index iter) = NULL →
     IntDict.intdictviter_advance iter dict =
       (NULL, {| IntDict.next_index := IntDict.next_index iter + 1;
                 IntDict.end_ := IntDict.end_ iter |}))
  ∧ (∀ iter dict,
       IntDict.end_ iter ≤ IntDict.next_index iter →
       IntDict.intdictviter_advance iter dict = (NULL, iter))
  ∧ (∀ dict,
       0 < IntDict.nitems dict →
       IntDict.value (IntDict.entries dict !!! 0) = NULL →
       IntDict.intdictviter_all_init dict =
         (NULL, {| IntDict.next_index := 1;
                   IntDict.end_ := IntDict.nitems dict |}))
  ∧ (∀ iter dict,
       StrDict.next_index iter < StrDict.end_ iter →
       StrDict.end_ iter ≤ StrDict.nitems dict →
       StrDict.value (StrDict.entries dict !!! StrDict.next_index iter)
         = NULL →
       StrDict.strdictviter_advance iter dict =
         (NULL, {| StrDict.next_index := StrDict.next_index iter + 1;
                   StrDict.end_ := StrDict.end_ iter |}))
  ∧ (∀ iter dict,
       StrDict.end_ iter ≤ StrDict.next_index iter →
       StrDict.strdictviter_advance iter dict = (NULL, iter))
  ∧ (∀ dict,
       0 < StrDict.nitems dict →
       StrDict.value (StrDict.entries dict !!! 0) = NULL →
       StrDict.strdictviter_all_init dict =
         (NULL, {| StrDict.next_index := 1;
                   StrDict.end_ := StrDict.nitems dict |})).
Proof.
  repeat split.
  - intros iter dict Hnext Hend Hnull. unfold IntDict.intdictviter_advance.
    replace (IntDict.next_index iter <? IntDict.end_ iter) with true
      by (symmetry; by apply Nat.ltb_lt).
    rewrite IntDictFacts.get_value_at_entries by lia. by rewrite Hnull.
  - intros iter dict Hend. unfold IntDict.intdictviter_advance.
    by replace (IntDict.next_index iter <? IntDict.end_ iter) with false
      by (symmetry; by apply Nat.ltb_ge).
  - intros dict Hn Hnull.
    unfold IntDict.intdictviter_all_init, IntDict.intdictviter_advance,
      IntDict.intdict_count.
    cbn [IntDict.next_index IntDict.end_].
    replace (0 <? IntDict.nitems dict) with true
      by (symmetry; by apply Nat.ltb_lt).
    rewrite IntDictFacts.get_value_at_entries by lia. by rewrite Hnull.
  - intros iter dict Hnext Hend Hnull. unfold StrDict.strdictviter_advance.
    replace (StrDict.next_index iter <? StrDict.end_ iter) with true
      by (symmetry; by apply Nat.ltb_lt).
    unfold StrDict.strdict_get_value_at.
    rewrite <- StrDictFacts.str_entries_lookup by lia. by rewrite Hnull.
  - intros iter dict Hend. unfold StrDict.strdictviter_advance.
    by replace (StrDict.next_index iter <? StrDict.end_ iter) with false
      by (symmetry; by apply Nat.ltb_ge).
  - intros dict Hn Hnull.
    unfold StrDict.strdictviter_all_init, StrDict.strdictviter_advance,
      StrDict.strdict_count.
    cbn [StrDict.next_index StrDict.end_].
    replace (0 <? StrDict.nitems dict) with true
      by (symmetry; by apply Nat.ltb_lt).
    unfold StrDict.strdict_get_value_at.
    rewrite <- StrDictFacts.str_entries_lookup by lia. by rewrite Hnull.
Qed.




End Cache.

Section BorrowedKey.
Context `{SizeT}.
Hypothesis init_size_fits : 4 ≤ SIZE_MAX.

(** C6. When the copy of the key cannot be allocated, the search of
    [strdict_bisect_left] runs with the caller's pointer in the cache, and
    the call clears the cache before it returns; no call returns with a
    pointer of the caller in the cache, so that between calls the cache
    never holds one. *)
Theorem borrowed_key_cleared :
  (∀ dict k env,
     StrDict.wf dict → 0 < StrDict.nitems dict →
     StrDict.cache_miss dict k = true →
     (StrDict.copy_key dict k env).1 = false →
     StrDict.sought_key (StrDict.bisect_left_search dict k env).2
       = StrDict.SoughtCaller k
     ∧ StrDict.sought_key (StrDict.strdict_bisect_left dict k env).2
       = StrDict.SoughtNull
     ∧ StrDict.candidate (StrDict.strdict_bisect_left dict k env).2 = None)
  ∧ (∀ dict k env p,
       StrDict.wf dict →
       StrDict.sought_key (StrDict.strdict_bisect_left dict k env).2
         ≠ StrDict.SoughtCaller p)
  ∧ (∀ dict p,
       StrDict.reachable dict →
       StrDict.sought_key dict ≠ StrDict.SoughtCaller p).
Proof.
  split; [| split].
  - intros dict k env Hwf Hn Hmiss Hcopy.
    assert (∃ array, StrDict.array dict = Some array) as [array Harr].
    { pose proof (StrDict.wf_array dict Hwf) as Hcap.
      pose proof (StrDict.wf_nitems dict Hwf).
      destruct (StrDict.array dict); [by eexists | lia]. }
    destruct (StrDictFacts.bisect_left_effect dict k env array Hwf Harr Hn)
      as (c & Hc & Hlt & -> & ->).
    destruct (StrDictFacts.str_refreshed_effect dict k env Hwf Hn)
      as (_ & _ & Hcache).
    rewrite Hmiss, Hcopy in Hcache. destruct Hcache as [_ Hkey].
    cbn [fst snd]. unfold StrDict.sought_key_is. rewrite Hkey.
    by rewrite N.eqb_refl.
  - intros dict k env p Hwf.
    destruct (StrDictFacts.str_bisect_left_spec dict k env Hwf) as (_ & _ & Hwf').
    apply Hwf'.
  - intros dict p Hreach.
    by apply (StrDict.wf_sought dict),
      (StrDictFacts.str_reachable_wf init_size_fits).
Qed.

End BorrowedKey.

(** * The theorems at the sample dictionaries *)
Module Witnesses.
Import Samples SampleFacts.

Lemma int_warm_reachable : IntDict.reachable (H := size16) int_warm.
Proof.
  eapply (IntDict.reachable_step _ (IntDict.BisectLeft 5%Z)).
  - apply int_sample_reachable.
  - vm_compute. reflexivity.
Qed.


Lemma bisect_contract_witness :
  IntDict.wf (H := size16) int_sample
  ∧ (let left := (IntDict.intdict_bisect_left int_sample 4).1 in
     let right := (IntDict.intdict_bisect_right int_sample 4).1 in
     left ≤ right
     ∧ left = length (filter (λ e, (IntDict.key e < 4)%Z)
                        (IntDict.entries int_sample))
     ∧ first_position (λ e, (4 <=? IntDict.key e)%Z)
         (IntDict.entries int_sample) left
     ∧ first_position (λ e, (4 <? IntDict.key e)%Z)
         (IntDict.entries int_sample) right).
Proof.
  split; [exact int_sample_wf |].
  exact (IntDictFacts.bisect_contract (H := size16) int_sample 4%Z
           int_sample_wf).
Defined.

Lemma cache_transparency_witness :
  4 ≤ @SIZE_MAX size16
  ∧ IntDict.reachable (H := size16) int_warm
  ∧ (IntDict.intdict_bisect_left int_warm 5).1
    = (IntDict.intdict_bisect_left_uncached int_warm 5).1
  ∧ StrDict.reachable (H := size16) str_sample
  ∧ (StrDict.strdict_bisect_left (H := size16) str_sample
       (key_at 300 "BISON") (ReallocOk [])).1
    = (StrDict.strdict_bisect_left_uncached (H := size16) str_sample
         (key_at 300 "BISON") ReallocFail).1.
Proof.
  destruct (cache_transparency (H := size16) size16_fits)
    as (Hint & _ & Hstr).
  split; [exact size16_fits |].
  split; [exact int_warm_reachable |].
  split; [exact (proj1 (Hint int_warm 5%Z int_warm_reachable)) |].
  split; [exact str_sample_reachable |].
  exact (proj1 (Hstr str_sample (key_at 300 "BISON") (ReallocOk [])
                  ReallocFail str_sample_reachable)).
Defined.

Lemma ordering_invariant_witness :
  IntDict.ArrayInitSize ≤ @SIZE_MAX size16
  ∧ IntDict.run (IntDict.step (H := size16)) IntDict.intdict_init int_calls
    = Some (int_outs, int_sample)
  ∧ (∀ i, i + 1 < IntDict.nitems int_sample →
          (IntDict.key (IntDict.entries int_sample !!! i)
           ≤ IntDict.key (IntDict.entries int_sample !!! (i + 1)%nat))%Z)
  ∧ IntDict.nitems int_sample ≤ IntDict.nalloc int_sample.
Proof.
  split; [exact size16_fits |]. split; [exact int_sample_run |].
  exact (IntDictFacts.ordering_invariant (H := size16) size16_fits int_calls
           int_outs int_sample int_sample_run).
Defined.




Lemma borrowed_key_cleared_witness :
  4 ≤ @SIZE_MAX size16
  ∧ StrDict.wf (H := size16) str_sample
  ∧ StrDict.cache_miss str_sample (key_at 300 "chimpanzee") = true
  ∧ (StrDict.copy_key (H := size16) str_sample (key_at 300 "chimpanzee")
       ReallocFail).1 = false
  ∧ (StrDict.sought_key
       (StrDict.bisect_left_search (H := size16) str_sample
          (key_at 300 "chimpanzee") ReallocFail).2
     = StrDict.SoughtCaller (key_at 300 "chimpanzee")
     ∧ StrDict.sought_key
         (StrDict.strdict_bisect_left (H := size16) str_sample
            (key_at 300 "chimpanzee") ReallocFail).2
       = StrDict.SoughtNull
     ∧ StrDict.candidate
         (StrDict.strdict_bisect_left (H := size16) str_sample
            (key_at 300 "chimpanzee") ReallocFail).2 = None)
  ∧ StrDict.reachable (H := size16) str_sample
  ∧ StrDict.sought_key str_sample
    ≠ StrDict.SoughtCaller (key_at 300 "chimpanzee").
Proof.
  destruct (borrowed_key_cleared (H := size16) size16_fits)
    as (Hcall & _ & Hbetween).
  assert (Hn : 0 < StrDict.nitems str_sample) by (cbn; lia).
  assert (Hmiss : StrDict.cache_miss str_sample (key_at 300 "chimpanzee")
                  = true) by reflexivity.
  assert (Hcopy : (StrDict.copy_key (H := size16) str_sample
                     (key_at 300 "chimpanzee") ReallocFail).1 = false)
    by (vm_compute; reflexivity).
  split; [exact size16_fits |]. split; [exact str_sample_wf |].
  split; [exact Hmiss |]. split; [exact Hcopy |].
  split; [exact (Hcall str_sample (key_at 300 "chimpanzee") ReallocFail
                   str_sample_wf Hn Hmiss Hcopy) |].
  split; [exact str_sample_reachable |].
  exact (Hbetween str_sample (key_at 300 "chimpanzee") str_sample_reachable).
Defined.

Lemma iterator_remove_contract_witness :
  IntDict.wf (H := size16) int_sample
  ∧ Forall (λ e, IntDict.value e ≠ NULL) (IntDict.entries int_sample)
  ∧ (let iter := {| IntDict.next_index := 1; IntDict.end_ := 3 |} in
     let '(index, iter', dict') :=
       IntDict.intdictviter_remove (H := size16) iter int_sample in
     index = IntDict.next_index iter - 1
     ∧ IntDict.entries dict'
       = delete (IntDict.next_index iter - 1) (IntDict.entries int_sample)
     ∧ IntDict.next_index iter' = IntDict.next_index iter - 1
     ∧ IntDict.end_ iter' = IntDict.end_ iter - 1
     ∧ IntDict.intdictviter_advance iter' dict' =
         if decide (IntDict.next_index iter < IntDict.end_ iter)
         then (IntDict.value
                 (IntDict.entries int_sample !!! IntDict.next_index iter),
               {| IntDict.next_index := IntDict.next_index iter;
                  IntDict.end_ := IntDict.end_ iter - 1 |})
         else (NULL, iter'))
  ∧ (let '(seen, _, dict') :=
       IntDict.iterate_all (H := size16) Nat.odd int_sample in
     seen = IntDict.value <$> IntDict.entries int_sample
     ∧ IntDict.entries dict'
       = unselected Nat.odd 0 (IntDict.entries int_sample)).
Proof.
  assert (Hnonnull : Forall (λ e, IntDict.value e ≠ NULL)
                       (IntDict.entries int_sample))
    by (repeat constructor; discriminate).
  destruct (IntDictFacts.iterator_remove_contract (H := size16) Nat.odd
              {| IntDict.next_index := 1; IntDict.end_ := 3 |} int_sample
              int_sample_wf) as [Hremove Hloop].
  split; [exact int_sample_wf |]. split; [exact Hnonnull |].
  split; [| exact (Hloop Hnonnull)].
  apply Hremove; cbn; lia.
Defined.


(** C9 as the specification states it fails: after [init] over the range
    from 1 to 1 of the dictionary holding the key 1, [next_index] is 1
    while [bisect_left(1)] is 0. *)
Lemma viter_init_counterexample :
  IntDict.wf (H := size16) int_single
  ∧ (IntDict.intdict_bisect_left int_single 1).1 = 0
  ∧ IntDict.next_index (IntDict.intdictviter_init int_single 1 1).1.2 = 1
  ∧ IntDict.next_index (IntDict.intdictviter_init int_single 1 1).1.2
    ≠ (IntDict.intdict_bisect_left int_single 1).1.
Proof.
  split; [exact int_single_wf |].
  split; [reflexivity |]. split; [reflexivity |].
  vm_compute. discriminate.
Qed.

Lemma viter_init_contract_witness :
  IntDict.wf (H := size16) int_sample
  ∧ (let first := (IntDict.intdict_bisect_left int_sample 4).1 in
     let last := (IntDict.intdict_bisect_right int_sample 7).1 in
     let '(v, iter, dict') := IntDict.intdictviter_init int_sample 4 7 in
     IntDict.end_ iter = last
     ∧ (if decide (first < last)
        then IntDict.next_index iter = first + 1
             ∧ v = IntDict.value (IntDict.entries int_sample !!! first)
        else IntDict.next_index iter = first ∧ v = NULL)
     ∧ IntDict.same_store int_sample dict'
     ∧ ∀ j, j < IntDict.nitems int_sample →
            (first ≤ j ∧ j < last)
            ↔ (4 ≤ IntDict.key (IntDict.entries int_sample !!! j)
               ∧ IntDict.key (IntDict.entries int_sample !!! j) ≤ 7)%Z)
  ∧ StrDict.wf (H := size16) str_sample
  ∧ (let '(v, iter) := StrDict.strdictviter_all_init str_sample in
     StrDict.end_ iter = StrDict.nitems str_sample
     ∧ (if decide (0 < StrDict.nitems str_sample)
        then StrDict.next_index iter = 1
             ∧ v = StrDict.value (StrDict.entries str_sample !!! 0)
        else StrDict.next_index iter = 0 ∧ v = NULL)).
Proof.
  destruct (viter_init_contract (H := size16)) as (Hint & _ & _ & Hstr).
  split; [exact int_sample_wf |].
  split; [exact (Hint int_sample 4%Z 7%Z int_sample_wf) |].
  split; [exact str_sample_wf |].
  exact (Hstr str_sample str_sample_wf).
Defined.

Lemma null_value_ambiguity_witness :
  (let iter := {| IntDict.next_index := 0; IntDict.end_ := 2 |} in
   IntDict.next_index iter < IntDict.end_ iter
   ∧ IntDict.end_ iter ≤ IntDict.nitems int_null_value
   ∧ IntDict.value (IntDict.entries int_null_value !!! IntDict.next_index iter)
     = NULL
   ∧ IntDict.intdictviter_advance iter int_null_value =
       (NULL, {| IntDict.next_index := IntDict.next_index iter + 1;
                 IntDict.end_ := IntDict.end_ iter |}))
  ∧ 0 < StrDict.nitems str_null_value
  ∧ StrDict.value (StrDict.entries str_null_value !!! 0) = NULL
  ∧ StrDict.strdictviter_all_init str_null_value =
      (NULL, {| StrDict.next_index := 1;
                StrDict.end_ := StrDict.nitems str_null_value |}).
Proof.
  destruct null_value_ambiguity
    as (Hint & _ & _ & _ & _ & Hstr).
  assert (H1 : 0 < 2) by lia. assert (H2 : 2 ≤ 2) by lia.
  split.
  - split; [exact H1 |]. split; [exact H2 |]. split; [reflexivity |].
    exact (Hint {| IntDict.next_index := 0; IntDict.end_ := 2 |}
             int_null_value H1 H2 eq_refl).
  - split; [exact H1 |]. split; [reflexivity |].
    exact (Hstr str_null_value H1 eq_refl).
Defined.

(** The null result of [all_init] on [int_null_value] is not the end of
    the range: the next [advance] yields the value of the second entry. *)
Example null_then_value :
  let '(v0, iter0) := IntDict.intdictviter_all_init int_null_value in
  let '(v1, _) := IntDict.intdictviter_advance iter0 int_null_value in
  v0 = NULL ∧ v1 = 20%N.
Proof. split; reflexivity. Qed.

End Witnesses.

(** * Further properties of the dictionaries, of [stricmp] and of the string
    buffer *)

Section Intervals.
Context {A : Type} `{Inhabited A}.

(** The elements of [l] that satisfy [P], when those are the ones at the
    positions from [a] up to [b]. *)
Lemma filter_interval (P : A → Prop) `{∀ x, Decision (P x)} (l : list A) :
  ∀ a b : nat,
    (∀ j, j < length l → (a ≤ j ∧ j < b) ↔ P (l !!! j)) →
    filter P l = take (b - a) (drop a l).
Proof.
  induction l as [| x l IH]; intros a b Hrange.
  - by rewrite drop_nil, take_nil.
  - rewrite filter_cons.
    pose proof (Hrange 0) as Hhead. cbn in Hhead.
    assert (Htail : ∀ j, j < length l →
                         (S a - 1 ≤ S j ∧ S j < b) ↔ P (l !!! j)).
    { intros j Hj. specialize (Hrange (S j)). cbn in Hrange.
      rewrite <- Hrange by lia. lia. }
    destruct (decide (P x)) as [Hx | Hx].
    + apply Hhead in Hx; [| lia]. destruct Hx as [Ha Hb].
      assert (a = 0) as -> by lia. destruct b as [| b]; [lia |].
      cbn. f_equal. rewrite (IH 0 b); [by rewrite Nat.sub_0_r |].
      intros j Hj. rewrite <- Htail by done. lia.
    + destruct a as [| a].
      * assert (b = 0) as ->.
        { destruct b; [done |]. exfalso. apply Hx, Hhead; lia. }
        change (filter P l = take (0 - 0) (drop 0 l)).
        apply (IH 0 0). intros j Hj. rewrite <- Htail by done. lia.
      * cbn [drop]. destruct b as [| b].
        -- cbn. rewrite (IH a 0); [by replace (0 - a) with 0 by lia |].
           intros j Hj. rewrite <- Htail by done. lia.
        -- replace (S b - S a) with (b - a) by lia. apply IH.
           intros j Hj. rewrite <- Htail by done. lia.
Qed.

End Intervals.

(** ** The integer dictionary *)
Module IntDictMore.
Import IntDict IntDictFacts.

Section WithSizeT.
Context `{SizeT}.

(** Where the entries with the key [k] are: from the index [bisect_left]
    returns on, as long as the key is [k]. *)
Lemma key_positions dict k (j : nat) :
  wf dict → j < nitems dict → key (entries dict !!! j) = k →
  let i := (intdict_bisect_left dict k).1 in
  i ≤ j ∧ i < nitems dict ∧ key (entries dict !!! i) = k.
Proof.
  intros Hwf Hj Hkey i.
  destruct (bisect_left_spec dict k Hwf) as ((Hi & Hbelow & Habove) & _).
  fold i in Hi, Hbelow, Habove.
  rewrite entries_lookup in Hkey by done.
  assert (Hij : i ≤ j).
  { destruct (decide (i ≤ j)); [done |].
    specialize (Hbelow j). cbn beta in Hbelow.
    assert (Hlow : (key (slots dict !!! j) <? k)%Z = true)
      by (apply Hbelow; lia).
    bool_to_prop. lia. }
  split; [done |]. split; [lia |].
  rewrite entries_lookup by lia.
  specialize (Habove i). cbn beta in Habove.
  assert (Hhigh : (key (slots dict !!! i) <? k)%Z = false)
    by (apply Habove; lia).
  bool_to_prop.
  pose proof (sorted_le dict i j (wf_sorted dict Hwf) Hij Hj). lia.
Qed.

(** [intdict_find] reports a key as found exactly when an entry has it; the
    index it stores is that of the first such entry; the entries, their
    count and the capacity are left as they were. *)
Theorem intdict_find_correct dict k :
  wf dict →
  let '(found, pos, dict') := intdict_find dict k in
  same_store dict dict'
  ∧ (found = true ↔ ∃ e, e ∈ entries dict ∧ key e = k)
  ∧ match pos with
    | Some p =>
        found = true ∧ p < nitems dict ∧ key (entries dict !!! p) = k
        ∧ ∀ j, j < p → (key (entries dict !!! j) < k)%Z
    | None => found = false
    end.
Proof.
  intros Hwf.
  destruct (bisect_left_spec dict k Hwf)
    as ((Hi & Hbelow & Habove) & Hsame & Hwf').
  assert (Hpresent : (∃ e, e ∈ entries dict ∧ key e = k) →
                     (intdict_bisect_left dict k).1 < nitems dict
                     ∧ key (slots dict !!! (intdict_bisect_left dict k).1)
                       = k).
  { intros (e & He & Hk). apply list_elem_of_lookup_total in He as (j & Hj & <-).
    rewrite entries_length in Hj by done.
    destruct (key_positions dict k j Hwf Hj Hk) as (_ & Hlt & Hkey).
    split; [done |]. by rewrite <- entries_lookup. }
  unfold intdict_find in *.
  destruct (intdict_bisect_left dict k) as [i dict1]. cbn [fst snd] in *.
  assert (Hslots : slots dict1 = slots dict) by by apply same_store_slots.
  pose proof Hsame as (_ & Hn & Harr).
  destruct (array dict1) as [array |] eqn:Harr1.
  - assert (Harray : array = slots dict)
      by (unfold slots; by rewrite Harr).
    subst array. rewrite <- Hn.
    case_test; bool_to_prop.
    + split; [done |]. split; [| done]. split; [done |].
      intros Hex. destruct (Hpresent Hex) as [Hlt Hkey].
      destruct E as [Hge | Hneq]; bool_to_prop; [lia | done].
    + split; [done |].
      assert (Hkey : key (entries dict !!! i) = k)
        by (by rewrite entries_lookup by lia).
      split.
      * split; [| done]. intros _. exists (entries dict !!! i).
        split; [| done]. apply list_elem_of_lookup_total_2.
        rewrite entries_length by done. lia.
      * split; [done |]. split; [lia |]. split; [done |].
        intros j Hj. rewrite entries_lookup by lia.
        apply Z.ltb_lt. by apply Hbelow.
  - split; [done |]. split; [| done]. split; [done |].
    intros Hex. destruct (Hpresent Hex) as [Hlt _].
    pose proof (wf_array dict Hwf) as Hzero. rewrite Harr in Hzero.
    pose proof (wf_nitems dict Hwf). lia.
Qed.

Lemma find_specific_loop_spec array k v (n : nat) :
  ∀ fuel index : nat,
    index < n → n ≤ fuel + index + 1 →
    let r := find_specific_loop array k v n fuel index in
    index ≤ r ∧ r < n
    ∧ (∀ j, index ≤ j → j < r →
            key (array !!! j) = k ∧ value (array !!! j) ≠ v)
    ∧ (key (array !!! r) ≠ k ∨ value (array !!! r) = v ∨ r + 1 = n).
Proof.
  induction fuel as [| fuel IH]; intros index Hindex Hfuel; cbn zeta.
  - cbn [find_specific_loop].
    split; [lia |]. split; [lia |]. split; [intros; lia |]. right. right. lia.
  - cbn [find_specific_loop]. case_test; bool_to_prop.
    + destruct (IH (index + 1)) as (Hle & Hlt & Hrun & Hstop); [lia | lia |].
      split; [lia |]. split; [lia |]. split; [| done].
      intros j Hj Hjr. destruct (decide (j = index)) as [-> | Hne].
      * done.
      * apply Hrun; lia.
    + split; [lia |]. split; [lia |]. split; [intros; lia |].
      destruct E as [E | E]; bool_to_prop.
      * destruct E as [E | E]; bool_to_prop; [by left | by right; left].
      * right. right. lia.
Qed.

Lemma find_specific_cases dict k v :
  wf dict →
  let '(found, pos, dict') := intdict_find_specific dict k v in
  same_store dict dict'
  ∧ (found = true ↔ {| key := k; value := v |} ∈ entries dict)
  ∧ match pos with
    | Some p =>
        found = true ∧ p < nitems dict
        ∧ entries dict !!! p = {| key := k; value := v |}
        ∧ ∀ j, j < p → entries dict !!! j ≠ {| key := k; value := v |}
    | None => found = false
    end.
Proof.
  intros Hwf.
  destruct (bisect_left_spec dict k Hwf)
    as ((Hi & Hbelow & Habove) & Hsame & Hwf').
  assert (Hpos : ∀ j, j < nitems dict → key (entries dict !!! j) = k →
                      (intdict_bisect_left dict k).1 ≤ j
                      ∧ (intdict_bisect_left dict k).1 < nitems dict
                      ∧ key (entries dict !!! (intdict_bisect_left dict k).1)
                        = k)
    by (intros j; by apply key_positions).
  assert (Hmem : {| key := k; value := v |} ∈ entries dict →
                 ∃ j, j < nitems dict
                      ∧ entries dict !!! j = {| key := k; value := v |}).
  { intros He. apply list_elem_of_lookup_total in He as (j & Hj & He).
    rewrite entries_length in Hj by done. by exists j. }
  unfold intdict_find_specific.
  destruct (array dict) as [array |] eqn:Harr.
  - destruct (intdict_bisect_left dict k) as [i dict1]. cbn [fst snd] in *.
    pose proof Hsame as (_ & Hn & _). rewrite <- Hn.
    assert (Harray : array = slots dict)
      by (unfold slots; by rewrite Harr).
    subst array.
    case_test; bool_to_prop.
    { (* every key is below [k] *)
      split; [done |]. split; [| done]. split; [done |].
      intros (j & Hj & He)%Hmem.
      destruct (Hpos j Hj) as (_ & Hlt & _); [by rewrite He | lia]. }
    case_test; bool_to_prop.
    { (* no entry has the key *)
      split; [done |]. split; [| done]. split; [done |].
      intros (j & Hj & He)%Hmem.
      destruct (Hpos j Hj) as (_ & _ & Hkey); [by rewrite He |].
      rewrite entries_lookup in Hkey by lia. done. }
    destruct (find_specific_loop_spec (slots dict) k v (nitems dict)
                (nitems dict) i) as (Hle & Hlt & Hrun & Hstop); [lia | lia |].
    set (r := find_specific_loop (slots dict) k v (nitems dict)
                (nitems dict) i) in *.
    assert (Hkeys : ∀ j, j < r → key (slots dict !!! j) = k →
                         value (slots dict !!! j) ≠ v).
    { intros j Hj Hkey. destruct (decide (i ≤ j)) as [Hij | Hij].
      - by apply Hrun.
      - specialize (Hbelow j). cbn beta in Hbelow.
        assert (Hlow : (key (slots dict !!! j) <? k)%Z = true)
          by (apply Hbelow; lia).
        bool_to_prop. lia. }
    case_test; bool_to_prop.
    + split; [done |]. split; [| done]. split; [done |].
      intros (j & Hj & He)%Hmem.
      rewrite entries_lookup in He by done.
      assert (Hrj : r ≤ j).
      { destruct (decide (r ≤ j)); [done |]. exfalso.
        apply (Hkeys j); [lia | by rewrite He | by rewrite He]. }
      assert (Hkey : key (slots dict !!! r) = k).
      { pose proof (sorted_le dict i r (wf_sorted dict Hwf) Hle Hlt).
        pose proof (sorted_le dict r j (wf_sorted dict Hwf) Hrj Hj).
        rewrite He in *. cbn [key] in *. lia. }
      assert (Hvalue : value (slots dict !!! r) = v).
      { destruct Hstop as [Hstop | [Hstop | Hstop]]; [done | done |].
        assert (j = r) as -> by lia. by rewrite He. }
      destruct E1 as [Hbad | Hbad]; bool_to_prop; done.
    + split; [done |].
      assert (He : entries dict !!! r = {| key := k; value := v |}).
      { rewrite entries_lookup by done.
        destruct (slots dict !!! r) as [k' v']. cbn [key value] in *.
        by subst. }
      split.
      * split; [| done]. intros _. rewrite <- He.
        apply list_elem_of_lookup_total_2.
        rewrite entries_length by done. lia.
      * split; [done |]. split; [done |]. split; [done |].
        intros j Hj Hbad. rewrite entries_lookup in Hbad by lia.
        apply (Hkeys j); [done | by rewrite Hbad | by rewrite Hbad].
  - split; [apply same_store_refl |]. split; [| done]. split; [done |].
    intros (j & Hj & _)%Hmem.
    pose proof (wf_array dict Hwf) as Hzero. rewrite Harr in Hzero.
    pose proof (wf_nitems dict Hwf). lia.
Qed.

Lemma same_store_entries dict dict' :
  same_store dict dict' → entries dict' = entries dict.
Proof.
  intros Hsame. unfold entries. rewrite (same_store_slots dict dict') by done.
  destruct Hsame as (_ & <- & _). done.
Qed.

(** [intdict_find] in terms of the index [intdict_bisect_left] returns. *)
Lemma find_unfold dict k :
  wf dict →
  intdict_find dict k =
    let '(i, dict1) := intdict_bisect_left dict k in
    if decide (i < nitems dict ∧ key (entries dict !!! i) = k)
    then (true, Some i, dict1) else (false, None, dict1).
Proof.
  intros Hwf.
  destruct (bisect_left_spec dict k Hwf) as ((Hi & _) & Hsame & Hwf').
  unfold intdict_find.
  destruct (intdict_bisect_left dict k) as [i dict1]. cbn [fst snd] in *.
  pose proof Hsame as (_ & Hn & Harr). rewrite <- Hn, <- Harr.
  destruct (array dict) as [array |] eqn:Harr0.
  - assert (Harray : array = slots dict)
      by (unfold slots; by rewrite Harr0).
    subst array.
    case_test; bool_to_prop; case_decide as Hdec; try done.
    + destruct Hdec as [Hlt Hkey]. rewrite entries_lookup in Hkey by done.
      destruct E as [E | E]; bool_to_prop; [lia | done].
    + exfalso. apply Hdec. split; [lia |]. by rewrite entries_lookup by lia.
  - pose proof (wf_array dict Hwf) as Hzero. rewrite Harr0 in Hzero.
    pose proof (wf_nitems dict Hwf).
    case_decide as Hdec; [lia | done].
Qed.

(** [intdict_find_specific] reports a key and value as found exactly when
    an entry has both, and the index it stores is that of the first such
    entry; [intdict_remove_specific] removes that entry and no other, and
    keeps the capacity. *)
Theorem intdict_specific_correct dict k v :
  wf dict →
  let '(found, pos, dict1) := intdict_find_specific dict k v in
  let '(removed, rpos, dict2) := intdict_remove_specific dict k v in
  same_store dict dict1
  ∧ (found = true ↔ {| key := k; value := v |} ∈ entries dict)
  ∧ removed = found ∧ rpos = pos
  ∧ match pos with
    | Some p =>
        found = true ∧ p < nitems dict
        ∧ entries dict !!! p = {| key := k; value := v |}
        ∧ (∀ j, j < p → entries dict !!! j ≠ {| key := k; value := v |})
        ∧ entries dict2 = delete p (entries dict)
        ∧ nitems dict2 = nitems dict - 1
        ∧ nalloc dict2 = nalloc dict
    | None => found = false ∧ dict2 = dict1
    end.
Proof.
  intros Hwf.
  pose proof (find_specific_cases dict k v Hwf) as Hcases.
  pose proof (find_specific_state dict k v Hwf) as [_ Hwf1].
  unfold intdict_remove_specific.
  destruct (intdict_find_specific dict k v) as [[found pos] dict1].
  cbn [fst snd] in Hwf1.
  destruct Hcases as (Hsame & Hiff & Hpos).
  destruct pos as [p |].
  - destruct Hpos as (-> & Hp & Hentry & Hfirst).
    pose proof Hsame as (_ & Hn & _).
    destruct (remove_at_spec dict1 p Hwf1) as (Hn' & Hcap & _ & _ & Hdel & _);
      [lia |].
    rewrite (same_store_entries dict dict1) in Hdel by done.
    pose proof Hsame as (Hcap0 & _ & _).
    repeat (split; [done || lia || congruence |]). congruence.
  - subst found. done.
Qed.

(** [intdict_remove] removes the first entry with the key [k] and stores
    its former index, or changes nothing when no entry has the key;
    [intdict_remove_value] does the same and returns the value of the
    entry it removed, null when there was none.  The capacity stays. *)
Theorem intdict_remove_correct dict k :
  wf dict →
  let '(found, pos, dict') := intdict_remove dict k in
  intdict_remove_value dict k =
    (match pos with
     | Some p => value (entries dict !!! p)
     | None => NULL
     end, pos, dict')
  ∧ match pos with
    | Some p =>
        found = true ∧ p < nitems dict ∧ key (entries dict !!! p) = k
        ∧ (∀ j, j < p → (key (entries dict !!! j) < k)%Z)
        ∧ entries dict' = delete p (entries dict)
        ∧ nitems dict' = nitems dict - 1
        ∧ nalloc dict' = nalloc dict
    | None =>
        found = false ∧ same_store dict dict'
        ∧ ∀ e, e ∈ entries dict → key e ≠ k
    end.
Proof.
  intros Hwf.
  destruct (bisect_left_spec dict k Hwf)
    as ((Hi & Hbelow & Habove) & Hsame & Hwf1).
  assert (Hpos : ∀ j, j < nitems dict → key (entries dict !!! j) = k →
                      (intdict_bisect_left dict k).1 < nitems dict
                      ∧ key (entries dict !!! (intdict_bisect_left dict k).1)
                        = k)
    by (intros j Hj Hk; by destruct (key_positions dict k j Hwf Hj Hk)
          as (_ & ? & ?)).
  unfold intdict_remove, intdict_remove_value, intdict_remove_value_at.
  rewrite find_unfold by done.
  destruct (intdict_bisect_left dict k) as [i dict1]. cbn [fst snd] in *.
  case_decide as Hdec.
  - destruct Hdec as [Hlt Hkey].
    pose proof Hsame as (Hcap & Hn & Harr).
    destruct (remove_at_spec dict1 i Hwf1) as (Hn' & Hcap' & _ & _ & Hdel & _);
      [lia |].
    rewrite (same_store_entries dict dict1) in Hdel by done.
    split.
    + f_equal. f_equal. rewrite <- Harr.
      destruct (array dict) as [array |] eqn:Harr0.
      * rewrite entries_lookup by done. unfold slots. by rewrite Harr0.
      * pose proof (wf_array dict Hwf) as Hzero. rewrite Harr0 in Hzero.
        pose proof (wf_nitems dict Hwf). lia.
    + split; [done |]. split; [done |]. split; [done |].
      split; [| split; [done |]; split; [lia | congruence]].
      intros j Hj. rewrite entries_lookup by lia.
      apply Z.ltb_lt. by apply Hbelow.
  - split; [done |]. split; [done |]. split; [done |].
    intros e He Hk.
    apply list_elem_of_lookup_total in He as (j & Hj & <-).
    rewrite entries_length in Hj by done.
    apply Hdec. by apply (Hpos j).
Qed.

End WithSizeT.

Section WithGrowth.
Context `{SizeT}.

Hypothesis init_size_fits : ArrayInitSize ≤ SIZE_MAX.

(** A successful [intdict_insert], and where [intdict_bisect_left] finds
    the key afterwards. *)
Lemma bisect_left_after_insert dict k v env pos dict1 :
  wf dict → intdict_insert dict k v env = (true, pos, dict1) →
  let ins := (intdict_bisect_left dict k).1 in
  pos = Some ins ∧ wf dict1 ∧ nitems dict1 = S (nitems dict)
  ∧ ins ≤ nitems dict
  ∧ entries dict1 = insert_at ins {| key := k; value := v |} (entries dict)
  ∧ (intdict_bisect_left dict1 k).1 = ins.
Proof.
  intros Hwf Hins ins.
  destruct (classic_refused dict env) as [Href | Hok].
  { rewrite (insert_failure init_size_fits dict k v env Hwf Href) in Hins.
    discriminate. }
  destruct (insert_success init_size_fits dict k v env Hwf Hok)
    as (dict' & Heq & Hn & _ & _ & _ & Hentries & Hwf').
  rewrite Heq in Hins. injection Hins as <- <-. fold ins in Hentries.
  destruct (bisect_left_spec dict k Hwf) as ((Hi & Hbelow & Habove) & _).
  fold ins in Hi, Hbelow, Habove.
  pose proof (entries_length dict Hwf) as Hlen.
  repeat (split; [done |]).
  eapply partition_point_unique; [by apply bisect_left_spec |].
  split; [lia |]. split.
  - intros j Hj. rewrite <- entries_lookup by lia.
    rewrite Hentries. unfold insert_at.
    rewrite lookup_total_app_l by (rewrite length_take; lia).
    rewrite lookup_total_take_lt by done. rewrite entries_lookup by lia.
    by apply Hbelow.
  - intros j Hj Hjn. rewrite <- entries_lookup by lia.
    rewrite Hentries. unfold insert_at.
    rewrite lookup_total_app_r by (rewrite length_take; lia).
    rewrite length_take, Nat.min_l by lia.
    destruct (j - ins) as [| d] eqn:Hd.
    + cbn. apply Z.ltb_irrefl.
    + rewrite lookup_total_cons_ne_0 by done. cbn [Nat.pred].
      rewrite lookup_total_drop. rewrite entries_lookup by lia.
      apply Habove; lia.
Qed.

(** After a successful [intdict_insert] of [k] and [v], [intdict_find]
    finds [k] at the index the insertion reported and
    [intdict_find_value] returns [v], also when other entries have the
    key [k]: the entry inserted last is the first of them. *)
Theorem insert_then_find dict k v env pos dict1 :
  wf dict → intdict_insert dict k v env = (true, pos, dict1) →
  ∃ dict2,
    intdict_find dict1 k = (true, pos, dict2)
    ∧ intdict_find_value dict1 k = (v, pos, dict2)
    ∧ same_store dict1 dict2.
Proof.
  intros Hwf Hins.
  destruct (bisect_left_after_insert dict k v env pos dict1 Hwf Hins)
    as (-> & Hwf1 & Hn & Hle & Hentries & Hfound).
  assert (Hnew : entries dict1 !!! (intdict_bisect_left dict k).1
                 = {| key := k; value := v |}).
  { rewrite Hentries. apply list_lookup_total_middle.
    rewrite length_take, entries_length by done. lia. }
  destruct (bisect_left_spec dict1 k Hwf1) as (_ & Hsame & _).
  unfold intdict_find_value. rewrite find_unfold by done.
  destruct (intdict_bisect_left dict1 k) as [i dict2]. cbn [fst snd] in *.
  subst i. exists dict2.
  rewrite decide_True by (split; [lia | by rewrite Hnew]).
  split; [done |]. split; [| done].
  unfold intdict_get_value_at.
  rewrite (same_store_slots dict1 dict2) by done.
  rewrite <- entries_lookup by lia. by rewrite Hnew.
Qed.

(** Removing the key just inserted gives back the entries there were
    before the insertion: [intdict_remove] takes out the very entry that
    the successful [intdict_insert] put in (and [intdict_remove_value]
    returns its value), whatever other entries have the same key.  The
    capacity is not given back. *)
Theorem insert_then_remove dict k v env pos dict1 :
  wf dict → intdict_insert dict k v env = (true, pos, dict1) →
  ∃ dict2,
    intdict_remove dict1 k = (true, pos, dict2)
    ∧ intdict_remove_value dict1 k = (v, pos, dict2)
    ∧ entries dict2 = entries dict
    ∧ nitems dict2 = nitems dict
    ∧ nalloc dict2 = nalloc dict1.
Proof.
  intros Hwf Hins.
  destruct (bisect_left_after_insert dict k v env pos dict1 Hwf Hins)
    as (-> & Hwf1 & Hn & Hle & Hentries & Hfound).
  assert (Hnew : entries dict1 !!! (intdict_bisect_left dict k).1
                 = {| key := k; value := v |}).
  { rewrite Hentries. apply list_lookup_total_middle.
    rewrite length_take, entries_length by done. lia. }
  destruct (bisect_left_spec dict1 k Hwf1) as (_ & Hsame & Hwf2).
  unfold intdict_remove, intdict_remove_value, intdict_remove_value_at.
  rewrite find_unfold by done.
  destruct (intdict_bisect_left dict1 k) as [i dict2]. cbn [fst snd] in *.
  subst i. set (ins := (intdict_bisect_left dict k).1) in *.
  rewrite decide_True by (split; [lia | by rewrite Hnew]).
  pose proof Hsame as (Hcap & Hn2 & Harr).
  destruct (remove_at_spec dict2 ins Hwf2) as (Hn' & Hcap' & _ & _ & Hdel & _);
    [lia |].
  rewrite (same_store_entries dict1 dict2) in Hdel by done.
  exists (intdict_remove_at dict2 ins).
  split; [done |]. split.
  - f_equal. f_equal.
    destruct (array dict2) as [array |] eqn:Harr2.
    + change array with (default [] (Some array)). rewrite <- Harr2.
      fold (slots dict2). rewrite (same_store_slots dict1 dict2) by done.
      rewrite <- entries_lookup by lia. by rewrite Hnew.
    + pose proof (wf_array dict2 Hwf2) as Hzero. rewrite Harr2 in Hzero.
      pose proof (wf_nitems dict2 Hwf2). lia.
  - split; [| lia].
    rewrite Hdel, Hentries. unfold insert_at.
    replace ins with (length (take ins (entries dict))) at 1
      by (rewrite length_take, entries_length by done; lia).
    by rewrite delete_middle, take_drop.
Qed.

End WithGrowth.
Section Iteration.
Context `{SizeT}.

(** The loop of the iterator tests inside a range: [kept] are the entries
    in front of the one just yielded, [x], [rest] those of the range
    still to come and [tail] the entries behind the range. *)
Lemma iterate_from_range_spec (selected : nat → bool)
    (rest : list IntDictItem) :
  ∀ (fuel count : nat) (x : IntDictItem) (kept tail : list IntDictItem)
    (iter : IntDictVIter) dict,
    wf dict →
    length rest < fuel →
    Forall (λ e, value e ≠ NULL) (x :: rest) →
    entries dict = kept ++ x :: rest ++ tail →
    next_index iter = length kept + 1 →
    end_ iter = length kept + 1 + length rest →
    ∃ iter' dict',
      iterate_from selected fuel (value x) iter dict count =
        (value <$> (x :: rest), iter', dict')
      ∧ entries dict' = kept ++ unselected selected count (x :: rest) ++ tail
      ∧ wf dict'.
Proof.
  induction rest as [| y rest IH];
    intros fuel count x kept tail iter dict Hwf Hfuel Hnonnull Hentries
      Hnext Hend.
  - destruct fuel as [| fuel]; [simpl in Hfuel; lia |].
    pose proof (entries_length dict Hwf) as Hlen.
    rewrite Hentries, length_app in Hlen. cbn [length app] in Hlen.
    apply Forall_cons in Hnonnull as [Hx _].
    cbn [iterate_from]. rewrite unselected_cons. cbn [unselected length] in *.
    replace (value x =? NULL)%N with false
      by (symmetry; by apply N.eqb_neq).
    destruct (selected count) eqn:Hsel.
    + destruct (viter_remove_spec iter dict Hwf) as (-> & Hdel & Hn & Hwf');
        [lia | lia | lia |].
      unfold intdictviter_advance. cbn [next_index end_].
      replace (next_index iter - 1 <? end_ iter - 1) with false
        by (symmetry; apply Nat.ltb_ge; lia).
      destruct fuel; cbn [iterate_from]; eexists _, _;
        (split; [reflexivity |]); (split; [| done]).
      all: rewrite Hdel, Hentries, Hnext.
      all: replace (length kept + 1 - 1) with (length kept) by lia.
      all: by rewrite delete_middle.
    + unfold intdictviter_advance.
      replace (next_index iter <? end_ iter) with false
        by (symmetry; apply Nat.ltb_ge; lia).
      destruct fuel; cbn [iterate_from]; eexists _, _;
        (split; [reflexivity |]); done.
  - destruct fuel as [| fuel]; [simpl in Hfuel; lia |].
    pose proof (entries_length dict Hwf) as Hlen.
    rewrite Hentries, length_app in Hlen.
    cbn [length app] in Hlen, Hend. rewrite length_app in Hlen.
    pose proof Hnonnull as Hnonnull'.
    apply Forall_cons in Hnonnull' as [Hx Hrest].
    cbn [iterate_from]. rewrite unselected_cons.
    replace (value x =? NULL)%N with false
      by (symmetry; by apply N.eqb_neq).
    destruct (selected count) eqn:Hsel.
    + destruct (viter_remove_spec iter dict Hwf) as (-> & Hdel & Hn & Hwf');
        [lia | lia | lia |].
      set (dict1 := intdict_remove_at dict (next_index iter - 1)) in *.
      assert (Hentries1 : entries dict1 = kept ++ y :: rest ++ tail).
      { rewrite Hdel, Hentries, Hnext.
        replace (length kept + 1 - 1) with (length kept) by lia.
        by rewrite delete_middle. }
      unfold intdictviter_advance. cbn [next_index end_].
      replace (next_index iter - 1 <? end_ iter - 1) with true
        by (symmetry; apply Nat.ltb_lt; lia).
      rewrite get_value_at_entries by lia.
      assert (Hy : entries dict1 !!! (next_index iter - 1) = y).
      { rewrite Hentries1, Hnext. apply list_lookup_total_middle. lia. }
      rewrite Hy, Hnext.
      replace (length kept + 1 - 1) with (length kept) by lia.
      destruct (IH fuel (count + 1) y kept tail
                  {| next_index := length kept + 1;
                     end_ := end_ iter - 1 |} dict1)
        as (iter' & dict' & -> & Hfinal & Hwf'');
        [done | simpl in Hfuel; lia | done | done | done | cbn; lia |].
      eexists _, _. split; [reflexivity |]. done.
    + unfold intdictviter_advance.
      replace (next_index iter <? end_ iter) with true
        by (symmetry; apply Nat.ltb_lt; lia).
      rewrite get_value_at_entries by lia.
      assert (Hentries1 : entries dict = (kept ++ [x]) ++ y :: rest ++ tail)
        by (by rewrite <- app_assoc).
      assert (Hy : entries dict !!! next_index iter = y).
      { rewrite Hentries1, Hnext. apply list_lookup_total_middle.
        rewrite length_app. simpl. lia. }
      rewrite Hy.
      destruct (IH fuel (count + 1) y (kept ++ [x]) tail
                  {| next_index := next_index iter + 1;
                     end_ := end_ iter |} dict)
        as (iter' & dict' & -> & Hfinal & Hwf'');
        [done | simpl in Hfuel; lia | done | done
        | cbn; rewrite length_app; simpl; lia
        | cbn; rewrite length_app; simpl; lia |].
      eexists _, _. split; [reflexivity |].
      by rewrite Hfinal, <- app_assoc.
Qed.

(** The entries whose key lies between [min_key] and [max_key] are those
    from the index [intdict_bisect_left] returns for [min_key] up to the
    one [intdict_bisect_right] returns for [max_key]. *)
Lemma in_range_entries dict (min_key max_key : IntDictKey) :
  wf dict →
  filter (λ e, (min_key ≤ key e ∧ key e ≤ max_key)%Z) (entries dict) =
    take ((intdict_bisect_right dict max_key).1
          - (intdict_bisect_left dict min_key).1)
      (drop (intdict_bisect_left dict min_key).1 (entries dict)).
Proof.
  intros Hwf. apply filter_interval. intros j Hj.
  rewrite entries_length in Hj by done. by apply int_range.
Qed.

(** Iterating over a range of keys with [intdictviter_init] and
    [intdictviter_advance] until the null result yields the values of
    exactly the entries whose key [k] has [min_key <= k <= max_key], in
    the order of the dictionary, provided none of these values is null
    (nothing when [max_key < min_key]); where the loop calls
    [intdictviter_remove], those of the yielded entries that it selects
    are removed and every other entry, in and outside the range, stays in
    its order. *)
Theorem iterate_range_correct (selected : nat → bool) dict
    (min_key max_key : IntDictKey) :
  wf dict →
  let in_range :=
    filter (λ e, (min_key ≤ key e ∧ key e ≤ max_key)%Z) (entries dict) in
  let first := (intdict_bisect_left dict min_key).1 in
  Forall (λ e, value e ≠ NULL) in_range →
  let '(seen, _, dict') := iterate_range selected dict min_key max_key in
  seen = value <$> in_range
  ∧ entries dict' =
      take first (entries dict) ++ unselected selected 0 in_range
      ++ drop (first + length in_range) (entries dict).
Proof.
  intros Hwf in_range first Hnonnull.
  pose proof (in_range_entries dict min_key max_key Hwf) as Hrange.
  fold in_range first in Hrange.
  pose proof (entries_length dict Hwf) as Hlen.
  destruct (bisect_left_spec dict min_key Hwf) as ((Hfirst & _) & Hsame1 & Hwf1).
  fold first in Hfirst.
  unfold iterate_range, intdictviter_init.
  destruct (intdict_bisect_left dict min_key) as [first' dict1].
  cbn [fst snd] in *. subst first. rename first' into first.
  pose proof (bisect_right_same_store dict dict1 max_key Hwf Hwf1 Hsame1)
    as Hlast.
  destruct (bisect_right_state dict1 max_key Hwf1) as (Hsame2 & Hwf2).
  destruct (bisect_right_spec dict max_key Hwf) as ((Hlast_le & _) & _).
  rewrite Hlast in Hrange, Hlast_le.
  destruct (intdict_bisect_right dict1 max_key) as [last dict2].
  cbn [fst snd] in *.
  assert (Hsame : same_store dict dict2) by (by eapply same_store_trans).
  pose proof (same_store_entries dict dict2 Hsame) as Hentries.
  pose proof Hsame as (_ & Hn & _).
  unfold intdictviter_advance. cbn [next_index end_].
  destruct (decide (first < last)) as [Hlt | Hge].
  - replace (first <? last) with true by (symmetry; by apply Nat.ltb_lt).
    rewrite get_value_at_entries by lia. rewrite Hentries.
    assert (Hsplit : entries dict =
                       take first (entries dict) ++ in_range
                       ++ drop (first + length in_range) (entries dict)).
    { rewrite Hrange. rewrite length_take, length_drop.
      rewrite Nat.min_l by lia.
      rewrite <- drop_drop, take_drop. by rewrite take_drop. }
    assert (Hcount : length in_range = last - first).
    { rewrite Hrange, length_take, length_drop. lia. }
    destruct in_range as [| x rest] eqn:Hin; [cbn in Hcount; lia |].
    assert (Hx : entries dict !!! first = x).
    { rewrite Hsplit at 1. apply list_lookup_total_middle.
      rewrite length_take. lia. }
    rewrite Hx.
    destruct (iterate_from_range_spec selected rest (nitems dict2 + 1) 0 x
                (take first (entries dict))
                (drop (first + length (x :: rest)) (entries dict))
                {| next_index := first + 1; end_ := last |} dict2)
      as (iter' & dict' & -> & Hfinal & _).
    + done.
    + cbn [length] in Hcount. lia.
    + done.
    + by rewrite Hentries.
    + cbn. rewrite length_take. lia.
    + cbn [end_ length] in *. rewrite length_take. lia.
    + done.
  - replace (first <? last) with false by (symmetry; apply Nat.ltb_ge; lia).
    replace (nitems dict2 + 1) with (S (nitems dict2)) by lia.
    cbn [iterate_from]. rewrite N.eqb_refl.
    assert (Hempty : in_range = []).
    { rewrite Hrange. replace (last - first) with 0 by lia. apply take_0. }
    rewrite Hempty. cbn. rewrite Nat.add_0_r, take_drop. done.
Qed.

End Iteration.

Section Lookups.
Context `{SizeT}.

Lemma bisect_left_store dict k :
  same_store dict (intdict_bisect_left dict k).2.
Proof.
  unfold intdict_bisect_left.
  destruct (array dict) as [array |] eqn:Harr; [| apply same_store_refl].
  destruct (0 <? nitems dict) eqn:Hn; [| apply same_store_refl].
  bool_to_prop.
  set (dict1 := match candidate dict with
                | Some _ =>
                    if (sought_key dict =? k)%Z then dict
                    else set_candidate None dict
                | None => dict
                end).
  assert (Hsame1 : same_store dict dict1).
  { subst dict1. destruct (candidate dict); [| apply same_store_refl].
    case_test; by unfold same_store. }
  set (dict2 := match candidate dict1 with
                | None =>
                    (bsearch compare_key_n_item (set_sought_key k dict1)
                       (nitems dict1)).2
                | Some _ => dict1
                end).
  assert (Hsame2 : same_store dict dict2).
  { subst dict2. destruct (candidate dict1); [done |].
    destruct Hsame1 as (Ha & Hb & Hc).
    destruct (bsearch_effect (set_sought_key k dict1)) as (Hsame & _).
    { cbn. lia. }
    cbn [nitems set_sought_key] in Hsame.
    eapply same_store_trans; [| exact Hsame]. done. }
  by destruct (candidate dict2); [case_test |].
Qed.

(** The searches leave the entries, their count and the capacity of every
    dictionary as they were: they write to the search cache only. *)
Theorem lookups_keep_store dict k v :
  same_store dict (intdict_bisect_left dict k).2
  ∧ same_store dict (intdict_bisect_right dict k).2
  ∧ same_store dict (intdict_find dict k).2
  ∧ same_store dict (intdict_find_specific dict k v).2
  ∧ same_store dict (intdict_find_value dict k).2.
Proof.
  pose proof (bisect_left_store dict k) as Hleft.
  assert (Hfind : same_store dict (intdict_find dict k).2).
  { unfold intdict_find.
    destruct (intdict_bisect_left dict k) as [i dict1].
    destruct (array dict1); [case_test |]; done. }
  split; [done |]. split; [| split; [done |]; split].
  - unfold intdict_bisect_right.
    destruct (array dict); [| apply same_store_refl].
    by destruct (intdict_bisect_left dict k).
  - unfold intdict_find_specific.
    destruct (array dict); [| apply same_store_refl].
    destruct (intdict_bisect_left dict k) as [i dict1].
    repeat case_test; done.
  - unfold intdict_find_value.
    destruct (intdict_find dict k) as [[[] [pos |]] dict1]; done.
Qed.

(** A dictionary without entries, whether its array was never allocated
    or has been emptied: every search returns 0 or "not found", nothing is
    removed, the iterators return null at once, and the dictionary is not
    written to, not even its search cache. *)
Theorem empty_dictionary dict k k' v :
  nitems dict = 0 →
  intdict_bisect_left dict k = (0, dict)
  ∧ intdict_bisect_right dict k = (0, dict)
  ∧ intdict_find dict k = (false, None, dict)
  ∧ intdict_find_value dict k = (NULL, None, dict)
  ∧ intdict_find_specific dict k v = (false, None, dict)
  ∧ intdict_remove dict k = (false, None, dict)
  ∧ intdict_remove_value dict k = (NULL, None, dict)
  ∧ intdict_remove_specific dict k v = (false, None, dict)
  ∧ intdictviter_all_init dict = (NULL, {| next_index := 0; end_ := 0 |})
  ∧ intdictviter_init dict k k' =
      (NULL, {| next_index := 0; end_ := 0 |}, dict).
Proof.
  intros Hn.
  assert (Hleft : ∀ k, intdict_bisect_left dict k = (0, dict)).
  { intros k0. unfold intdict_bisect_left. rewrite Hn.
    by destruct (array dict). }
  assert (Hright : ∀ k, intdict_bisect_right dict k = (0, dict)).
  { intros k0. unfold intdict_bisect_right. rewrite Hleft, Hn.
    by destruct (array dict). }
  assert (Hfind : intdict_find dict k = (false, None, dict)).
  { unfold intdict_find. rewrite Hleft, Hn. by destruct (array dict). }
  assert (Hspecific : intdict_find_specific dict k v = (false, None, dict)).
  { unfold intdict_find_specific. rewrite Hleft, Hn.
    by destruct (array dict). }
  unfold intdict_find_value, intdict_remove, intdict_remove_value,
    intdict_remove_specific, intdictviter_all_init, intdictviter_init,
    intdictviter_advance, intdict_count.
  rewrite Hfind, Hspecific, !Hleft, !Hright, Hn. done.
Qed.

(** A search repeated for the same key returns the same result and
    changes nothing any more: the second call takes the candidate that
    the first one left in the cache and does not run the binary search
    again. *)
Theorem repeated_search dict k :
  wf dict →
  let '(i, dict1) := intdict_bisect_left dict k in
  intdict_bisect_left dict1 k = (i, dict1)
  ∧ intdict_bisect_right dict1 k = ((intdict_bisect_right dict k).1, dict1)
  ∧ intdict_find dict1 k = ((intdict_find dict k).1, dict1).
Proof.
  intros Hwf.
  assert (Hleft : intdict_bisect_left (intdict_bisect_left dict k).2 k =
                    intdict_bisect_left dict k).
  { destruct (array dict) as [array |] eqn:Harr;
      [| by unfold intdict_bisect_left; rewrite Harr; cbn; rewrite Harr].
    destruct (decide (0 < nitems dict)) as [Hn | Hn]; cycle 1.
    { unfold intdict_bisect_left. rewrite Harr.
      replace (0 <? nitems dict) with false
        by (symmetry; apply Nat.ltb_ge; lia).
      cbn [snd]. rewrite Harr.
      by replace (0 <? nitems dict) with false
        by (symmetry; apply Nat.ltb_ge; lia). }
    assert (Hslots : array = slots dict)
      by (unfold slots; by rewrite Harr).
    rewrite (bisect_left_unfold dict k array) by done. cbn [snd].
    destruct (refreshed_effect dict k Hwf Hn)
      as (Hsame & Hkey & c & Hcand & Hc).
    pose proof Hsame as (_ & Hni & Harr').
    assert (Hagain : refreshed (refreshed dict k) k = refreshed dict k).
    { unfold refreshed at 1. rewrite Hcand, Hkey, Z.eqb_refl.
      by rewrite Hcand. }
    rewrite (bisect_left_unfold (refreshed dict k) k array).
    - by rewrite Hagain.
    - by rewrite (same_store_slots dict (refreshed dict k)).
    - congruence.
    - lia. }
  pose proof (bisect_left_store dict k) as Hsame.
  unfold intdict_bisect_right, intdict_find.
  destruct (intdict_bisect_left dict k) as [i dict1].
  cbn [fst snd] in *. rewrite Hleft.
  destruct Hsame as (_ & Hn & Harr). rewrite <- Harr.
  split; [done |]. by destruct (array dict); [split; [| case_test] |].
Qed.

(** [intdict_destroy] as a fold: the destructor is called on the slots in
    front of [nitems], in index order. *)
Lemma destroy_loop_spec {C : Type} (destructor : IntDictKey → voidp → C → C)
    (array : list IntDictItem) (n : nat) :
  ∀ (fuel i : nat) (arg : C),
    n ≤ length array → n ≤ fuel + i →
    destroy_loop destructor array n fuel i arg =
      foldl (λ a e, destructor (key e) (value e) a) arg
        (drop i (take n array)).
Proof.
  induction fuel as [| fuel IH]; intros i arg Hlen Hfuel.
  - cbn [destroy_loop]. rewrite drop_ge; [done |].
    rewrite length_take. lia.
  - cbn [destroy_loop]. case_test; bool_to_prop.
    + rewrite IH by lia.
      rewrite (drop_S (take n array) (array !!! i) i).
      * cbn [foldl]. by replace (i + 1) with (S i) by lia.
      * rewrite lookup_take_lt by done.
        apply list_lookup_lookup_total_lt. lia.
    + rewrite drop_ge; [done |]. rewrite length_take. lia.
Qed.

(** [intdict_destroy] calls the destructor once for each entry, in index
    order, which is the order of the keys, with the entry's key and value,
    and for no slot of the array beyond the entries; without a destructor
    it calls nothing. *)
Theorem intdict_destroy_calls {C : Type} dict
    (destructor : IntDictKey → voidp → C → C) (arg : C) :
  wf dict →
  intdict_destroy dict (Some destructor) arg =
    foldl (λ a e, destructor (key e) (value e) a) arg (entries dict)
  ∧ intdict_destroy dict None arg = arg.
Proof.
  intros Hwf. split; [| done].
  unfold intdict_destroy, entries, slots.
  pose proof (wf_slots_length dict Hwf) as Hlen. unfold slots in Hlen.
  destruct (array dict) as [array |] eqn:Harr.
  - cbn [default from_option id] in *.
    rewrite destroy_loop_spec by lia. by rewrite drop_0.
  - cbn in Hlen. by replace (nitems dict) with 0 by lia.
Qed.

End Lookups.

Section Capacity.
Context `{SizeT}.

Hypothesis init_size_fits : ArrayInitSize ≤ SIZE_MAX.

(** No call gives capacity back: along every sequence of calls the
    capacity stays or grows, and an array once allocated stays
    allocated. *)
Theorem capacity_never_shrinks (ops : list op) :
  ∀ dict (outs : list outcome) dict',
    wf dict → run step dict ops = Some (outs, dict') →
    nalloc dict ≤ nalloc dict'
    ∧ (array dict ≠ None → array dict' ≠ None).
Proof.
  induction ops as [| o ops IH]; intros dict outs dict' Hwf Hrun.
  - cbn in Hrun. by injection Hrun as <- <-.
  - cbn [run] in Hrun.
    destruct (step dict o) as [[out dict1] |] eqn:Hstep; [| done].
    destruct (run step dict1 ops) as [[outs' dict2] |] eqn:Hrest; [| done].
    injection Hrun as <- <-.
    pose proof (step_wf init_size_fits dict o out dict1 Hwf Hstep) as Hwf1.
    destruct (IH dict1 outs' dict2 Hwf1 Hrest) as [Hcap Harr].
    destruct (step_nalloc init_size_fits dict o out dict1 Hwf Hstep)
      as [(Heq & Hnone) | (Hfull & Hmax & Hnew & Hsome)].
    + split; [lia |]. intros Hsome. apply Harr. by rewrite Hnone.
    + pose proof (wf_nalloc dict Hwf).
      destruct (new_size_bounds init_size_fits (nalloc dict)); [lia |].
      split; [lia |]. intros _. by apply Harr.
Qed.

End Capacity.

End IntDictMore.

(** ** [stricmp] *)
Section Stricmp.

Lemma toupper_nonzero (c : Z) : (0 ≤ c)%Z → c ≠ 0%Z → toupper c ≠ 0%Z.
Proof. intros Hc Hne Hzero. by apply Hne, toupper_zero. Qed.

Lemma upper_codes_nil (s : string) :
  upper_codes s = [] ↔ toupper (deref s) = 0%Z.
Proof.
  destruct s as [| c rest]; [done |]. cbn [upper_codes deref].
  case_test; bool_to_prop.
  - by rewrite E.
  - split; [done |]. intros Hzero. exfalso.
    by apply (toupper_nonzero (char_code c)); [apply char_code_nonneg | |].
Qed.

Lemma upper_codes_cons (s : string) :
  toupper (deref s) ≠ 0%Z →
  upper_codes s = toupper (deref s) :: upper_codes (advance s).
Proof.
  destruct s as [| c rest]; [done |]. cbn [upper_codes deref advance].
  intros Hne. case_test; bool_to_prop; [| done]. by rewrite E in Hne.
Qed.

(** [stricmp] returns 0 exactly when the two strings, read up to their
    terminators, have the same length and the same characters once each
    is put through [toupper]: the comparison ignores the case of letters
    and nothing else. *)
Theorem stricmp_zero_iff (s1 : string) :
  ∀ s2 : string, stricmp s1 s2 = 0%Z ↔ upper_codes s1 = upper_codes s2.
Proof.
  induction s1 as [| c1 rest1 IH]; intros s2.
  - rewrite stricmp_unfold. cbn [deref upper_codes]. cbn.
    rewrite (eq_comm []), upper_codes_nil. lia.
  - rewrite stricmp_unfold. cbn zeta. cbn [advance].
    destruct (decide (toupper (deref (String c1 rest1)) = 0%Z)) as [Hz | Hnz].
    + rewrite Hz. cbn [negb andb Z.eqb].
      apply upper_codes_nil in Hz. rewrite Hz.
      rewrite (eq_comm []), upper_codes_nil. lia.
    + rewrite (upper_codes_cons (String c1 rest1)) by done. cbn [advance].
      case_test; bool_to_prop.
      * assert (Hnz2 : toupper (deref s2) ≠ 0%Z) by congruence.
        rewrite (upper_codes_cons s2) by done. rewrite IH.
        split; [intros ->; by f_equal | by intros [= _ ->]].
      * destruct E as [E | E]; bool_to_prop; [done |].
        split; [lia |]. intros Heq. exfalso.
        destruct (decide (toupper (deref s2) = 0%Z)) as [Hz2 | Hnz2].
        -- apply upper_codes_nil in Hz2. by rewrite Hz2 in Heq.
        -- rewrite (upper_codes_cons s2) in Heq by done.
           by injection Heq as Heq _.
Qed.

(** [stricmp] orders the strings: a string compares equal to itself,
    swapping the arguments changes the sign of the result, and "not
    greater" and "equal" carry over from two comparisons that share the
    middle string.  This is what [bsearch] and the ordering of the string
    dictionary rely on. *)
Theorem stricmp_total_preorder (s1 s2 s3 : string) :
  stricmp s1 s1 = 0%Z
  ∧ stricmp s2 s1 = (- stricmp s1 s2)%Z
  ∧ ((stricmp s1 s2 ≤ 0)%Z → (stricmp s2 s3 ≤ 0)%Z → (stricmp s1 s3 ≤ 0)%Z)
  ∧ ((stricmp s1 s2 ≤ 0)%Z → (stricmp s2 s3 < 0)%Z → (stricmp s1 s3 < 0)%Z)
  ∧ (stricmp s1 s2 = 0%Z → stricmp s2 s3 = 0%Z → stricmp s1 s3 = 0%Z).
Proof.
  split; [apply stricmp_refl |]. split; [apply stricmp_antisym |].
  split; [apply stricmp_le_trans |]. split; [apply stricmp_le_lt_trans |].
  intros H12 H23.
  assert (Hle : (stricmp s1 s3 ≤ 0)%Z)
    by (apply (stricmp_le_trans s1 s2 s3); lia).
  assert (Hge : (stricmp s3 s1 ≤ 0)%Z).
  { apply (stricmp_le_trans s3 s2 s1).
    - rewrite (stricmp_antisym s2 s3). lia.
    - rewrite (stricmp_antisym s1 s2). lia. }
  rewrite (stricmp_antisym s1 s3) in Hge. lia.
Qed.

End Stricmp.

(** ** The string buffer *)
Module StringBuffMore.
Import StringBuff StringBuffFacts.

Lemma chars_of_length (tail : string) : length (chars_of tail) = strlen tail.
Proof.
  induction tail as [| c rest IH]; [done |]. cbn [chars_of strlen].
  case_test; [done |]. cbn. by rewrite IH.
Qed.

Lemma chars_of_nonzero (tail : string) :
  Forall (λ c, c ≠ Ascii.zero) (chars_of tail).
Proof.
  induction tail as [| c rest IH]; [constructor |]. cbn [chars_of].
  case_test; [constructor |]. constructor; [| done].
  intros ->. by cbn in E.
Qed.

(** What [cstring_at] reads from storage that holds [s] and a
    terminator. *)
Lemma cstring_at_holds (chars : list ascii) (s : list ascii) :
  Forall (λ c, c ≠ Ascii.zero) s →
  length s < length chars →
  take (length s) chars = s → chars !!! length s = Ascii.zero →
  cstring_at chars = string_of_list_ascii s.
Proof.
  revert chars. induction s as [| c s IH]; intros chars Hnz Hlen Htake Hterm.
  - destruct chars as [| c0 chars]; [done |]. cbn in Hterm. subst c0. done.
  - destruct chars as [| c0 chars]; [cbn in Hlen; lia |].
    cbn in Htake, Hterm, Hlen. injection Htake as -> Htake.
    apply Forall_cons in Hnz as [Hc Hnz].
    cbn [cstring_at string_of_list_ascii].
    assert (Hcode : (char_code c =? 0)%Z = false).
    { apply Z.eqb_neq. intros Hzero. apply Hc.
      unfold char_code in Hzero.
      rewrite <- (ascii_N_embedding c).
      replace (N_of_ascii c) with 0%N by lia. done. }
    rewrite Hcode. f_equal. apply IH; [done | lia | done | done].
Qed.

Lemma strlen_string_of_list (s : list ascii) :
  Forall (λ c, c ≠ Ascii.zero) s → strlen (string_of_list_ascii s) = length s.
Proof.
  induction 1 as [| c s Hc _ IH]; [done |].
  cbn [string_of_list_ascii strlen length].
  assert (Hcode : (char_code c =? 0)%Z = false).
  { apply Z.eqb_neq. intros Hzero. apply Hc.
    unfold char_code in Hzero.
    rewrite <- (ascii_N_embedding c).
    replace (N_of_ascii c) with 0%N by lia. done. }
  by rewrite Hcode, IH.
Qed.

(** [memcpy] of [n] characters that [src] has. *)
Lemma memcpy_take (n : nat) :
  ∀ (dest : list ascii) (offset : nat) (src : string),
    n ≤ strlen src → offset + n ≤ length dest →
    take (offset + n) (memcpy dest offset src n) =
      take offset dest ++ take n (chars_of src).
Proof.
  induction n as [| n IH]; intros dest offset src Hn Hlen.
  - cbn [memcpy]. by rewrite Nat.add_0_r, take_0, app_nil_r.
  - destruct src as [| c rest]; [cbn in Hn; lia |].
    cbn [strlen chars_of] in *.
    destruct (char_code c =? 0)%Z eqn:Hc; [lia |].
    cbn [memcpy take].
    replace (offset + S n) with (offset + 1 + n) by lia.
    rewrite IH by (rewrite ?length_insert; lia).
    replace (offset + 1) with (S offset) by lia.
    rewrite (take_S_r _ _ c)
      by (apply list_lookup_insert_eq; lia).
    rewrite take_insert_ge by lia. by rewrite <- app_assoc.
Qed.

Lemma memcpy_lookup_above (n : nat) :
  ∀ (dest : list ascii) (offset : nat) (src : string) (j : nat),
    offset + n ≤ j → memcpy dest offset src n !!! j = dest !!! j.
Proof.
  induction n as [| n IH]; intros dest offset src j Hj; [done |].
  destruct src as [| c rest]; [done |]. cbn [memcpy].
  rewrite IH by lia. by rewrite list_lookup_total_insert_ne by lia.
Qed.

Section WithSizeT.
Context `{SizeT}.

Lemma size_mul_bound (a b : nat) : size_mul a b ≤ SIZE_MAX.
Proof.
  unfold size_mul.
  pose proof (Nat.mod_upper_bound (a * b) (SIZE_MAX + 1)). lia.
Qed.

(** What the accessors return for a buffer that holds [s]. *)
Lemma holds_accessors (b : StringBuffer) (s : list ascii) :
  holds b s →
  stringbuffer_get_pointer b = string_of_list_ascii s
  ∧ stringbuffer_get_length b = length s.
Proof.
  intros (Hmax & Hlen & Hnz & Hbuf).
  unfold stringbuffer_get_pointer, stringbuffer_get_length.
  split; [| done].
  destruct (buffer b) as [chars |].
  - destruct Hbuf as (Hsize & Hlt & Htake & Hterm).
    apply cstring_at_holds; [done | lia | done | done].
  - destruct Hbuf as [_ ->]. done.
Qed.

(** Terminating what has been written behind [s]: the buffer then holds
    [s] and the characters written, and [stringbuffer_undo] gives [s]
    back. *)
Lemma finish_append_holds (b1 : StringBuffer) (chars s extra : list ascii) :
  buffer_size b1 ≤ SIZE_MAX → string_len b1 = length s →
  length chars = buffer_size b1 →
  length s + length extra < buffer_size b1 →
  take (length s + length extra) chars = s ++ extra →
  Forall (λ c, c ≠ Ascii.zero) s → Forall (λ c, c ≠ Ascii.zero) extra →
  let b' := stringbuffer_finish_append (set_buffer_chars chars b1)
              (length extra) in
  holds b' (s ++ extra) ∧ holds (stringbuffer_undo b') s.
Proof.
  intros Hmax Hlen Hsize Hroom Htake Hs Hextra.
  assert (Htake_s : take (length s) chars = s).
  { pose proof (f_equal (take (length s)) Htake) as Hfirst.
    rewrite take_take, take_app_length in Hfirst.
    by rewrite Nat.min_l in Hfirst by lia. }
  unfold stringbuffer_finish_append, set_len, set_buffer_chars, holds,
    stringbuffer_undo.
  cbn [buffer string_len buffer_size undo_len undo_char].
  rewrite Hlen, size_add_small by lia.
  split.
  - split; [done |]. split; [by rewrite length_app |].
    split; [by apply Forall_app |].
    rewrite length_insert, length_app.
    split; [done |]. split; [done |].
    split; [by rewrite take_insert_ge by lia |].
    by rewrite list_lookup_total_insert_eq by lia.
  - split; [done |]. split; [done |]. split; [done |].
    destruct (decide (length extra = 0)) as [Hnone | Hsome].
    + rewrite Hnone, Nat.add_0_r, Nat.ltb_irrefl. cbn [fmap option_fmap option_map].
      rewrite length_insert.
      split; [done |]. split; [lia |].
      split; [by rewrite take_insert_ge by lia |].
      by rewrite list_lookup_total_insert_eq by lia.
    + replace (length s <? length s + length extra) with true
        by (symmetry; apply Nat.ltb_lt; lia).
      cbn [fmap option_fmap option_map]. rewrite !length_insert.
      split; [done |]. split; [lia |].
      split; [by rewrite !take_insert_ge by lia |].
      by rewrite list_lookup_total_insert_eq
        by (rewrite length_insert; lia).
Qed.

(** [stringbuffer_prepare_append] on a buffer that holds [s]: either
    there is room for [size] more bytes behind [s], in storage that still
    starts with [s], or the allocator has failed to provide it and the
    buffer is as it was. *)
Lemma prepare_append_spec (b : StringBuffer) (s : list ascii) (size : nat)
    (env : realloc_result ascii) :
  holds b s → 0 < size → length s + size ≤ SIZE_MAX →
  match stringbuffer_prepare_append b size env with
  | (Some p, avail, b1) =>
      p = length s ∧ avail = buffer_size b1 - length s
      ∧ buffer_size b1 ≤ SIZE_MAX ∧ string_len b1 = length s
      ∧ length s + size ≤ buffer_size b1
      ∧ ∃ chars,
          buffer b1 = Some chars ∧ length chars = buffer_size b1
          ∧ take (length s) chars = s
  | (None, avail, b1) =>
      b1 = b ∧ avail = 0 ∧ env = ReallocFail
      ∧ buffer_size b < length s + size
  end.
Proof.
  intros (Hmax & Hlen & Hnz & Hbuf) Hsize Hfit.
  unfold stringbuffer_prepare_append, ensure_size, realloc_buffer.
  replace (0 <? size) with true by (symmetry; by apply Nat.ltb_lt).
  rewrite Hlen, size_add_small by lia.
  case_test; bool_to_prop.
  - set (new_size := (length s + size) `max` size_mul (buffer_size b)
                                              GROWTH_FACTOR).
    pose proof (size_mul_bound (buffer_size b) GROWTH_FACTOR).
    replace (new_size =? 0) with false
      by (symmetry; apply Nat.eqb_neq; lia).
    destruct env as [| fresh]; cbn [realloc].
    + done.
    + cbn [buffer buffer_size string_len].
      split; [done |]. split; [done |]. split; [lia |].
      split; [done |]. split; [lia |].
      eexists. split; [done |]. split; [by rewrite length_resize |].
      destruct (buffer b) as [chars |]; cbn [default from_option id].
      * destruct Hbuf as (Hchars & Hlt & Htake & _).
        rewrite take_resize_le by lia.
        rewrite resize_app_le by lia. by rewrite resize_le by lia.
      * destruct Hbuf as [_ ->]. by rewrite take_0.
  - destruct (buffer b) as [chars |] eqn:Hchars.
    + destruct Hbuf as (Hsize' & Hlt & Htake & _).
      split; [done |]. split; [lia |]. split; [done |].
      split; [done |]. split; [done |]. by exists chars.
    + destruct Hbuf as [Hzero _]. lia.
Qed.

Lemma take_min_length {A : Type} (l : list A) (n : nat) :
  take (length l `min` n) l = take n l.
Proof.
  destruct (decide (n ≤ length l)).
  - by rewrite Nat.min_r by lia.
  - rewrite Nat.min_l by lia. by rewrite !take_ge by lia.
Qed.

(** [stringbuffer_append] on a buffer that holds [s]. *)
Lemma append_effect (b : StringBuffer) (s : list ascii) (tail : string)
    (n : nat) (env : realloc_result ascii) :
  holds b s → length s + strlen tail < SIZE_MAX →
  let '(ok, b') := stringbuffer_append b tail n env in
  if ok then
    holds b' (s ++ take n (chars_of tail))
    ∧ holds (stringbuffer_undo b') s
  else
    b' = b ∧ env = ReallocFail
    ∧ buffer_size b ≤ length s + strlen tail `min` n.
Proof.
  intros Hholds Hfit. unfold stringbuffer_append.
  set (tail_len := if 0 <? n then strlen tail else 0).
  assert (Hextra : tail_len `min` n = strlen tail `min` n).
  { subst tail_len. case_test; bool_to_prop; lia. }
  rewrite Hextra. clear Hextra tail_len.
  set (extra_chars := strlen tail `min` n).
  assert (Htaken : take n (chars_of tail) = take extra_chars (chars_of tail)).
  { subst extra_chars. by rewrite <- chars_of_length, take_min_length. }
  assert (Hcount : length (take n (chars_of tail)) = extra_chars).
  { rewrite Htaken, length_take, chars_of_length. lia. }
  case_test; bool_to_prop.
  - rewrite size_add_small by lia.
    pose proof (prepare_append_spec b s (extra_chars + 1) env Hholds) as Hprep.
    destruct (stringbuffer_prepare_append b (extra_chars + 1) env)
      as [[[p |] avail] b1].
    + destruct Hprep as (-> & _ & Hmax & Hlen & Hroom & chars & Hbuf & Hsize
                         & Htake); [lia | lia |].
      rewrite Hbuf. cbn [default from_option id].
      rewrite <- Hcount.
      apply finish_append_holds.
      * done.
      * done.
      * by rewrite memcpy_length.
      * lia.
      * rewrite Hcount, memcpy_take by lia. by rewrite Htake, Htaken.
      * by destruct Hholds as (_ & _ & ? & _).
      * apply Forall_take, chars_of_nonzero.
    + destruct Hprep as (-> & _ & -> & Hsmall); [lia | lia |].
      split; [done |]. split; [done |]. lia.
  - assert (Hnone : take n (chars_of tail) = []).
    { rewrite Htaken. by replace extra_chars with 0 by lia. }
    rewrite Hnone, app_nil_r.
    destruct Hholds as (Hmax & Hlen & Hnz & Hbuf).
    unfold holds, stringbuffer_undo, set_undo_len.
    cbn [buffer string_len buffer_size undo_len undo_char].
    rewrite Nat.ltb_irrefl. done.
Qed.

(** [stringbuffer_truncate] on a buffer that holds [s]. *)
Lemma truncate_effect (b : StringBuffer) (s : list ascii) (len : nat) :
  holds b s →
  holds (stringbuffer_truncate b len) (take len s)
  ∧ holds (stringbuffer_undo (stringbuffer_truncate b len)) s.
Proof.
  intros (Hmax & Hlen & Hnz & Hbuf). unfold stringbuffer_truncate.
  case_test; bool_to_prop.
  - destruct (buffer b) as [chars |] eqn:Hchars.
    + destruct Hbuf as (Hsize & Hlt & Htake & Hterm).
      unfold set_len, holds, stringbuffer_undo. rewrite Hchars.
      cbn [buffer string_len buffer_size undo_len undo_char].
      rewrite length_take, Nat.min_l by lia.
      split.
      * split; [done |]. split; [done |].
        split; [by apply Forall_take |].
        rewrite length_insert.
        split; [done |]. split; [lia |].
        split; [| by rewrite list_lookup_total_insert_eq by lia].
        rewrite take_insert_ge by lia.
        rewrite <- Htake, take_take. f_equal. lia.
      * replace (string_len b <? len) with false
          by (symmetry; apply Nat.ltb_ge; lia).
        replace (len <? string_len b) with true
          by (symmetry; by apply Nat.ltb_lt).
        cbn [fmap option_fmap option_map].
        split; [done |]. split; [done |]. split; [done |].
        rewrite list_insert_insert_eq, list_insert_id'; [done |].
        intros _. apply list_lookup_lookup_total_lt. lia.
    + destruct Hbuf as [_ ->]. cbn in Hlen. lia.
  - rewrite take_ge by lia.
    unfold holds, stringbuffer_undo, set_undo_len.
    cbn [buffer string_len buffer_size undo_len undo_char].
    rewrite Nat.ltb_irrefl. done.
Qed.

(** [stringbuffer_append] appends the first [n] characters of [tail], or
    all of them if it has fewer, to the string the buffer holds.  It
    fails only when it has to enlarge the buffer and the allocator
    refuses, and a failed call leaves the buffer exactly as it was. *)
Theorem stringbuffer_append_correct (b : StringBuffer) (s : list ascii)
    (tail : string) (n : nat) (env : realloc_result ascii) :
  holds b s → length s + strlen tail < SIZE_MAX →
  let '(ok, b') := stringbuffer_append b tail n env in
  (if ok then
     holds b' (s ++ take n (chars_of tail))
     ∧ stringbuffer_get_pointer b' =
         string_of_list_ascii (s ++ take n (chars_of tail))
     ∧ stringbuffer_get_length b' = length s + strlen tail `min` n
   else b' = b)
  ∧ (ok = false →
     env = ReallocFail ∧ buffer_size b ≤ length s + strlen tail `min` n).
Proof.
  intros Hholds Hfit.
  pose proof (append_effect b s tail n env Hholds Hfit) as Heffect.
  destruct (stringbuffer_append b tail n env) as [[|] b'].
  - destruct Heffect as [Hnew _].
    destruct (holds_accessors b' _ Hnew) as [Hptr Hlen].
    split; [| done]. split; [done |]. split; [done |].
    rewrite Hlen, length_app, length_take, chars_of_length. lia.
  - destruct Heffect as (-> & -> & Hsmall). done.
Qed.

(** [stringbuffer_truncate] cuts the string the buffer holds to its first
    [len] characters and leaves a string that is not longer than [len] as
    it is; the storage keeps its size. *)
Theorem stringbuffer_truncate_correct (b : StringBuffer) (s : list ascii)
    (len : nat) :
  holds b s →
  let b' := stringbuffer_truncate b len in
  holds b' (take len s)
  ∧ stringbuffer_get_pointer b' = string_of_list_ascii (take len s)
  ∧ stringbuffer_get_length b' = length s `min` len
  ∧ buffer_size b' = buffer_size b.
Proof.
  intros Hholds b'.
  destruct (truncate_effect b s len Hholds) as [Hnew _]. fold b' in Hnew.
  destruct (holds_accessors b' _ Hnew) as [Hptr Hlen].
  split; [done |]. split; [done |].
  split; [rewrite Hlen, length_take; lia |].
  subst b'. unfold stringbuffer_truncate, set_len, set_undo_len.
  case_test; [| done]. by destruct (buffer b).
Qed.

(** [stringbuffer_undo] takes back the last operation: after a successful
    [stringbuffer_append] or after [stringbuffer_truncate] it gives back
    the string the buffer held before, and a second
    [stringbuffer_undo] in a row changes nothing. *)
Theorem stringbuffer_undo_restores (b : StringBuffer) (s : list ascii)
    (tail : string) (n len : nat) (env : realloc_result ascii) :
  holds b s → length s + strlen tail < SIZE_MAX →
  ((stringbuffer_append b tail n env).1 = true →
   holds (stringbuffer_undo (stringbuffer_append b tail n env).2) s)
  ∧ holds (stringbuffer_undo (stringbuffer_truncate b len)) s
  ∧ stringbuffer_undo (stringbuffer_undo b) = stringbuffer_undo b.
Proof.
  intros Hholds Hfit.
  split; [| split].
  - pose proof (append_effect b s tail n env Hholds Hfit) as Heffect.
    destruct (stringbuffer_append b tail n env) as [[|] b']; [| done].
    intros _. apply Heffect.
  - apply truncate_effect, Hholds.
  - unfold stringbuffer_undo.
    cbn [buffer string_len buffer_size undo_len undo_char].
    by rewrite Nat.ltb_irrefl.
Qed.

(** [stringbuffer_append_separated] appends the separator and all of
    [tail] in one operation, which one [stringbuffer_undo] takes back as
    a whole; it fails only when the allocator refuses to enlarge the
    buffer, and then leaves the buffer exactly as it was. *)
Theorem stringbuffer_append_separated_correct (b : StringBuffer)
    (s : list ascii) (sep : ascii) (tail : string)
    (env : realloc_result ascii) :
  holds b s → sep ≠ Ascii.zero → length s + strlen tail + 1 < SIZE_MAX →
  let '(ok, b') := stringbuffer_append_separated b sep tail env in
  (if ok then
     holds b' (s ++ sep :: chars_of tail)
     ∧ holds (stringbuffer_undo b') s
   else b' = b)
  ∧ (ok = false →
     env = ReallocFail ∧ buffer_size b ≤ length s + strlen tail + 1).
Proof.
  intros Hholds Hsep Hfit. unfold stringbuffer_append_separated.
  rewrite !size_add_small by lia.
  pose proof (prepare_append_spec b s (strlen tail + 2) env Hholds) as Hprep.
  destruct (stringbuffer_prepare_append b (strlen tail + 2) env)
    as [[[p |] avail] b1].
  - destruct Hprep as (-> & _ & Hmax & Hlen & Hroom & chars & Hbuf & Hsize
                       & Htake); [lia | lia |].
    split; [| done]. rewrite Hbuf. cbn [default from_option id].
    replace (1 + strlen tail) with (length (sep :: chars_of tail))
      by (cbn; by rewrite chars_of_length).
    apply finish_append_holds.
    + done.
    + done.
    + by rewrite memcpy_length, length_insert.
    + cbn [length]. rewrite chars_of_length. lia.
    + cbn [length]. rewrite chars_of_length.
      replace (length s + S (strlen tail)) with (length s + 1 + strlen tail)
        by lia.
      rewrite memcpy_take by (rewrite ?length_insert; lia).
      replace (length s + 1) with (S (length s)) by lia.
      rewrite (take_S_r _ _ sep) by (apply list_lookup_insert_eq; lia).
      rewrite take_insert_ge by lia. rewrite Htake.
      rewrite take_ge by (rewrite chars_of_length; lia).
      by rewrite <- app_assoc.
    + by destruct Hholds as (_ & _ & ? & _).
    + constructor; [done | apply chars_of_nonzero].
  - destruct Hprep as (-> & _ & -> & Hsmall); [lia | lia |].
    split; [done |]. intros _. split; [done | lia].
Qed.

(** [stringbuffer_minimize] keeps the string and never enlarges the
    storage: when the allocator agrees the storage shrinks to the string
    and its terminator, and an empty string gives all storage up whatever
    the allocator says.  [stringbuffer_undo] afterwards takes nothing
    back. *)
Theorem stringbuffer_minimize_correct (b : StringBuffer) (s : list ascii)
    (env : realloc_result ascii) :
  holds b s →
  let b' := stringbuffer_minimize b env in
  holds b' s
  ∧ holds (stringbuffer_undo b') s
  ∧ buffer_size b' ≤ buffer_size b
  ∧ (s = [] → buffer_size b' = 0 ∧ buffer b' = None)
  ∧ (s ≠ [] → env ≠ ReallocFail → buffer_size b' = length s + 1).
Proof.
  intros Hholds. pose proof Hholds as (Hmax & Hlen & Hnz & Hbuf).
  unfold stringbuffer_minimize.
  set (min_size := if 0 <? string_len b then size_add (string_len b) 1
                   else 0).
  set (b1 := set_undo_len (string_len b) b).
  assert (Hkeep : ∀ b2, buffer_size b2 = buffer_size b →
                        string_len b2 = string_len b →
                        buffer b2 = buffer b →
                        undo_len b2 = string_len b →
                        holds b2 s ∧ holds (stringbuffer_undo b2) s).
  { intros b2 Hsize2 Hlen2 Hbuf2 Hundo2.
    unfold holds, stringbuffer_undo.
    cbn [buffer string_len buffer_size undo_len undo_char].
    rewrite Hundo2, Hlen2, Nat.ltb_irrefl, Hsize2, Hbuf2. done. }
  assert (Hmin : min_size = if decide (s = []) then 0 else length s + 1).
  { subst min_size. rewrite Hlen. destruct s as [| c s]; [done |].
    cbn [length Nat.ltb Nat.leb]. rewrite decide_False by done.
    destruct (buffer b) as [chars |].
    - destruct Hbuf as (_ & Hlt & _). cbn [length] in Hlt.
      rewrite size_add_small by lia. done.
    - by destruct Hbuf as [_ ?]. }
  destruct (min_size <? buffer_size b1) eqn:Hshrink; bool_to_prop;
    cbn [b1 set_undo_len buffer_size] in Hshrink.
  - unfold realloc_buffer.
    destruct (decide (s = [])) as [-> | Hsome].
    + rewrite Hmin. cbn [Nat.eqb snd].
      unfold holds, stringbuffer_undo.
      cbn [buffer string_len buffer_size undo_len undo_char b1 set_undo_len].
      cbn [length] in Hlen. rewrite Hlen, Nat.ltb_irrefl.
      repeat split; try done; lia.
    + assert (Hlen_pos : 0 < length s) by (destruct s; [done | cbn; lia]).
      replace (min_size =? 0) with false
        by (symmetry; apply Nat.eqb_neq; lia).
      destruct env as [| fresh]; cbn [realloc snd].
      * destruct (Hkeep b1) as [Hnew Hundo]; [done | done | done | done |].
        split; [done |]. split; [done |]. split; [done |]. split; done.
      * destruct (buffer b) as [chars |] eqn:Hchars;
          [| by destruct Hbuf as [_ ?]].
        destruct Hbuf as (Hsize & Hlt & Htake & Hterm).
        unfold holds, stringbuffer_undo.
        cbn [buffer string_len buffer_size undo_len undo_char b1
               set_undo_len].
        rewrite Hlen, Nat.ltb_irrefl, Hmin, Hchars.
        cbn [default from_option id].
        rewrite resize_app_le, resize_le by lia.
        rewrite length_take, Nat.min_l by lia.
        rewrite take_take, Nat.min_l by lia.
        rewrite lookup_total_take_lt by lia.
        repeat split; try done; lia.
  - destruct (Hkeep b1) as [Hnew Hundo]; [done | done | done | done |].
    split; [done |]. split; [done |]. split; [done |].
    destruct (decide (s = [])) as [-> | Hsome].
    + split; [| done]. intros _.
      destruct (buffer b) as [chars |] eqn:Hchars.
      * destruct Hbuf as (_ & Hlt & _). cbn [length] in Hlt. lia.
      * by destruct Hbuf as [? _].
    + split; [done |]. intros _ _.
      destruct (buffer b) as [chars |] eqn:Hchars.
      * destruct Hbuf as (_ & Hlt & _). cbn [b1 set_undo_len buffer_size].
        lia.
      * by destruct Hbuf as [_ ?].
Qed.

End WithSizeT.
End StringBuffMore.

(** ** The string dictionary *)

Lemma stricmp_lt_le_trans (s1 s2 s3 : string) :
  (stricmp s1 s2 < 0)%Z → (stricmp s2 s3 ≤ 0)%Z → (stricmp s1 s3 < 0)%Z.
Proof.
  intros H12 H23.
  destruct (Z.lt_ge_cases (stricmp s1 s3) 0) as [Hlt | Hge]; [done |].
  exfalso.
  assert (H31 : (stricmp s3 s1 ≤ 0)%Z)
    by (rewrite (stricmp_antisym s1 s3); lia).
  pose proof (stricmp_le_lt_trans s3 s1 s2 H31 H12) as H32.
  rewrite (stricmp_antisym s2 s3) in H32. lia.
Qed.

(** Keys that compare equal stand in the same order to every string. *)
Lemma stricmp_equal_keys (s k k' : string) :
  stricmp k' k = 0%Z →
  ((stricmp s k' < 0)%Z ↔ (stricmp s k < 0)%Z)
  ∧ ((stricmp s k' ≤ 0)%Z ↔ (stricmp s k ≤ 0)%Z).
Proof.
  intros Heq.
  assert (Heq' : stricmp k k' = 0%Z)
    by (rewrite (stricmp_antisym k' k); lia).
  split; split; intros Hcmp.
  - apply (stricmp_lt_le_trans s k' k); [done | lia].
  - apply (stricmp_lt_le_trans s k k'); [done | lia].
  - apply (stricmp_le_trans s k' k); [done | lia].
  - apply (stricmp_le_trans s k k'); [done | lia].
Qed.


Module StrDictMore.
Import StringBuff StrDict StringBuffFacts StrDictFacts.

Section WithSizeT.
Context `{SizeT}.

(** The indices [strdict_bisect_left] and [strdict_bisect_right] return
    for a sorted dictionary, whatever its search cache holds and whether
    or not the key can be copied: the first is the number of entries
    whose key compares below [k] and the position of the first entry
    whose key does not; the second is the position of the first entry
    whose key compares above [k]; the entries from the first up to the
    second are those whose key compares equal to [k], the case of letters
    being ignored. *)
Theorem strdict_bisect_contract dict (k : charp)
    (env env' : realloc_result ascii) :
  wf dict →
  let left := (strdict_bisect_left dict k env).1 in
  let right := (strdict_bisect_right dict k env').1 in
  left ≤ right
  ∧ left = length (filter (λ e, (stricmp (text (key e)) (text k) < 0)%Z)
                     (entries dict))
  ∧ first_position (λ e, (0 <=? stricmp (text (key e)) (text k))%Z)
      (entries dict) left
  ∧ first_position (λ e, (0 <? stricmp (text (key e)) (text k))%Z)
      (entries dict) right
  ∧ ∀ j, j < nitems dict →
         (left ≤ j ∧ j < right)
         ↔ stricmp (text (key (entries dict !!! j))) (text k) = 0%Z.
Proof.
  intros Hwf left right.
  destruct (str_bisect_left_spec dict k env Hwf)
    as ((Hl & Hbelow & Habove) & _).
  destruct (str_bisect_right_spec dict k env' Hwf)
    as ((Hr & Hbelow' & Habove') & Hle & _).
  rewrite (str_bisect_left_same_store dict dict k env' env Hwf Hwf
             (str_same_store_refl dict)) in Hle.
  fold left in Hl, Hbelow, Habove, Hle.
  fold right in Hr, Hbelow', Habove', Hle.
  pose proof (str_entries_length dict Hwf) as Hlen.
  split; [done |]. split; [| split; [| split]].
  - symmetry. apply filter_length_boundary; [lia | |].
    + intros i Hi. rewrite str_entries_lookup by lia.
      apply Hbelow in Hi. by bool_to_prop.
    + intros i Hli Hi. rewrite str_entries_lookup by lia.
      apply Habove in Hli; [| lia]. bool_to_prop. lia.
  - split; [lia |]. split.
    + intros j Hj. rewrite str_entries_lookup by lia.
      apply Hbelow in Hj. bool_to_prop. apply Z.leb_gt. lia.
    + intros Hlt. rewrite str_entries_lookup by lia.
      specialize (Habove left). cbn beta in Habove.
      rewrite Z.leb_antisym. rewrite Habove; [done | lia | lia].
  - split; [lia |]. split.
    + intros j Hj. rewrite str_entries_lookup by lia.
      apply Hbelow' in Hj. bool_to_prop. apply Z.ltb_ge. lia.
    + intros Hlt. rewrite str_entries_lookup by lia.
      specialize (Habove' right). cbn beta in Habove'.
      rewrite Z.ltb_antisym. rewrite Habove'; [done | lia | lia].
  - intros j Hj. rewrite str_entries_lookup by done.
    specialize (Hbelow j). specialize (Habove j).
    specialize (Hbelow' j). specialize (Habove' j). cbn beta in *.
    destruct (decide (left ≤ j)), (decide (j < right)).
    all: repeat match goal with
         | Hx : ?a ≤ ?b → _, Hy : ?a ≤ ?b |- _ => specialize (Hx Hy)
         | Hx : ?a < ?b → _, Hy : ?a < ?b |- _ => specialize (Hx Hy)
         | Hx : ?a < ?b → _, Hy : ¬ ?b ≤ ?a |- _ =>
             specialize (Hx ltac:(lia))
         | Hx : ?a ≤ ?b → _, Hy : ¬ ?b < ?a |- _ =>
             specialize (Hx ltac:(lia))
         end.
    all: bool_to_prop; lia.
Qed.

Lemma str_same_store_entries dict dict' :
  same_store dict dict' → entries dict' = entries dict.
Proof.
  intros Hsame. unfold entries.
  rewrite (str_same_store_slots dict dict') by done.
  destruct Hsame as (_ & <- & _). done.
Qed.

(** Where the entries whose key compares equal to [k] are. *)
Lemma str_key_positions dict (k : charp) (env : realloc_result ascii)
    (j : nat) :
  wf dict → j < nitems dict →
  stricmp (text (key (entries dict !!! j))) (text k) = 0%Z →
  let i := (strdict_bisect_left dict k env).1 in
  i ≤ j ∧ i < nitems dict
  ∧ stricmp (text (key (entries dict !!! i))) (text k) = 0%Z.
Proof.
  intros Hwf Hj Hkey i.
  destruct (str_bisect_left_spec dict k env Hwf)
    as ((Hi & Hbelow & Habove) & _).
  fold i in Hi, Hbelow, Habove.
  rewrite str_entries_lookup in Hkey by done.
  assert (Hij : i ≤ j).
  { destruct (decide (i ≤ j)); [done |].
    specialize (Hbelow j). cbn beta in Hbelow.
    assert (Hlow : (stricmp (text (key (slots dict !!! j))) (text k) <? 0)%Z
                   = true) by (apply Hbelow; lia).
    bool_to_prop. lia. }
  split; [done |]. split; [lia |].
  rewrite str_entries_lookup by lia.
  specialize (Habove i). cbn beta in Habove.
  assert (Hhigh : (stricmp (text (key (slots dict !!! i))) (text k) <? 0)%Z
                  = false) by (apply Habove; lia).
  bool_to_prop.
  pose proof (str_sorted_le dict i j (wf_sorted dict Hwf) Hij Hj) as Hle.
  assert (Hle' : (stricmp (text (key (slots dict !!! i))) (text k) ≤ 0)%Z)
    by (apply (stricmp_le_trans _ _ _ Hle); lia).
  lia.
Qed.

(** [strdict_find] in terms of the index [strdict_bisect_left] returns. *)
Lemma str_find_unfold dict (k : charp) (env : realloc_result ascii) :
  wf dict →
  strdict_find dict k env =
    let '(i, dict1) := strdict_bisect_left dict k env in
    if decide (i < nitems dict
               ∧ stricmp (text (key (entries dict !!! i))) (text k) = 0%Z)
    then (true, Some i, dict1) else (false, None, dict1).
Proof.
  intros Hwf.
  destruct (str_bisect_left_spec dict k env Hwf) as ((Hi & _) & Hsame & Hwf').
  unfold strdict_find.
  destruct (strdict_bisect_left dict k env) as [i dict1].
  cbn [fst snd] in *.
  pose proof Hsame as (_ & Hn & Harr). rewrite <- Hn, <- Harr.
  destruct (array dict) as [array |] eqn:Harr0.
  - assert (Harray : array = slots dict)
      by (unfold slots; by rewrite Harr0).
    subst array.
    case_test; bool_to_prop; case_decide as Hdec; try done.
    + destruct Hdec as [Hlt Hkey].
      rewrite str_entries_lookup in Hkey by done.
      destruct E as [E | E]; bool_to_prop; [lia | done].
    + exfalso. apply Hdec. split; [lia |].
      by rewrite str_entries_lookup by lia.
  - pose proof (wf_array dict Hwf) as Hzero. rewrite Harr0 in Hzero.
    pose proof (wf_nitems dict Hwf).
    case_decide as Hdec; [lia | done].
Qed.

(** [strdict_find] reports a key as found exactly when the key of an
    entry compares equal to it, the case of letters being ignored; the
    index it stores is that of the first such entry; the entries, their
    count and the capacity are left as they were, also when the key
    cannot be copied into the key buffer. *)
Theorem strdict_find_correct dict (k : charp) (env : realloc_result ascii) :
  wf dict →
  let '(found, pos, dict') := strdict_find dict k env in
  same_store dict dict'
  ∧ (found = true
     ↔ ∃ e, e ∈ entries dict ∧ stricmp (text (key e)) (text k) = 0%Z)
  ∧ match pos with
    | Some p =>
        found = true ∧ p < nitems dict
        ∧ stricmp (text (key (entries dict !!! p))) (text k) = 0%Z
        ∧ ∀ j, j < p →
               (stricmp (text (key (entries dict !!! j))) (text k) < 0)%Z
    | None => found = false
    end.
Proof.
  intros Hwf.
  destruct (str_bisect_left_spec dict k env Hwf)
    as ((Hi & Hbelow & Habove) & Hsame & Hwf').
  assert (Hpos : ∀ j, j < nitems dict →
                      stricmp (text (key (entries dict !!! j))) (text k)
                      = 0%Z →
                      (strdict_bisect_left dict k env).1 < nitems dict
                      ∧ stricmp
                          (text (key (entries dict
                                      !!! (strdict_bisect_left dict k env).1)))
                          (text k) = 0%Z).
  { intros j Hj Hk.
    by destruct (str_key_positions dict k env j Hwf Hj Hk) as (_ & ? & ?). }
  rewrite str_find_unfold by done.
  destruct (strdict_bisect_left dict k env) as [i dict1].
  cbn [fst snd] in *.
  case_decide as Hdec.
  - destruct Hdec as [Hlt Hkey]. split; [done |]. split.
    + split; [| done]. intros _. exists (entries dict !!! i).
      split; [| done]. apply list_elem_of_lookup_total_2.
      rewrite str_entries_length by done. lia.
    + split; [done |]. split; [done |]. split; [done |].
      intros j Hj. rewrite str_entries_lookup by lia.
      apply Z.ltb_lt. by apply Hbelow.
  - split; [done |]. split; [| done]. split; [done |].
    intros (e & He & Hk). exfalso.
    apply list_elem_of_lookup_total in He as (j & Hj & <-).
    rewrite str_entries_length in Hj by done.
    apply Hdec. by apply (Hpos j).
Qed.

(** [strdict_remove] removes the first entry whose key compares equal to
    [k] and stores its former index, or changes nothing but the search
    cache when there is none; [strdict_remove_value] does the same and
    returns the value of the entry it removed, null when there was none.
    The capacity stays. *)
Theorem strdict_remove_correct dict (k : charp)
    (env : realloc_result ascii) :
  wf dict →
  let '(found, pos, dict') := strdict_remove dict k env in
  strdict_remove_value dict k env =
    (match pos with
     | Some p => value (entries dict !!! p)
     | None => NULL
     end, pos, dict')
  ∧ match pos with
    | Some p =>
        found = true ∧ p < nitems dict
        ∧ stricmp (text (key (entries dict !!! p))) (text k) = 0%Z
        ∧ (∀ j, j < p →
                (stricmp (text (key (entries dict !!! j))) (text k) < 0)%Z)
        ∧ entries dict' = delete p (entries dict)
        ∧ nitems dict' = nitems dict - 1
        ∧ nalloc dict' = nalloc dict
    | None =>
        found = false ∧ same_store dict dict'
        ∧ ∀ e, e ∈ entries dict →
               stricmp (text (key e)) (text k) ≠ 0%Z
    end.
Proof.
  intros Hwf.
  destruct (str_bisect_left_spec dict k env Hwf)
    as ((Hi & Hbelow & Habove) & Hsame & Hwf1).
  assert (Hpos : ∀ j, j < nitems dict →
                      stricmp (text (key (entries dict !!! j))) (text k)
                      = 0%Z →
                      (strdict_bisect_left dict k env).1 < nitems dict
                      ∧ stricmp
                          (text (key (entries dict
                                      !!! (strdict_bisect_left dict k env).1)))
                          (text k) = 0%Z).
  { intros j Hj Hk.
    by destruct (str_key_positions dict k env j Hwf Hj Hk) as (_ & ? & ?). }
  unfold strdict_remove, strdict_remove_value, strdict_remove_value_at.
  rewrite str_find_unfold by done.
  destruct (strdict_bisect_left dict k env) as [i dict1].
  cbn [fst snd] in *.
  case_decide as Hdec.
  - destruct Hdec as [Hlt Hkey].
    pose proof Hsame as (Hcap & Hn & Harr).
    destruct (str_remove_at_spec dict1 i Hwf1)
      as (Hn' & Hcap' & _ & _ & _ & Hdel & _); [lia |].
    rewrite (str_same_store_entries dict dict1) in Hdel by done.
    split.
    + f_equal. f_equal. rewrite <- Harr.
      destruct (array dict) as [array |] eqn:Harr0.
      * rewrite str_entries_lookup by done. unfold slots. by rewrite Harr0.
      * pose proof (wf_array dict Hwf) as Hzero. rewrite Harr0 in Hzero.
        pose proof (wf_nitems dict Hwf). lia.
    + split; [done |]. split; [done |]. split; [done |].
      split; [| split; [done |]; split; [lia | congruence]].
      intros j Hj. rewrite str_entries_lookup by lia.
      apply Z.ltb_lt. by apply Hbelow.
  - split; [done |]. split; [done |]. split; [done |].
    intros e He Hk.
    apply list_elem_of_lookup_total in He as (j & Hj & <-).
    rewrite str_entries_length in Hj by done.
    apply Hdec. by apply (Hpos j).
Qed.

End WithSizeT.

Section WithGrowth.
Context `{SizeT}.

Hypothesis init_size_fits : ArrayInitSize ≤ SIZE_MAX.

(** The entries are in the order of their keys, the case of letters
    ignored, and their count is within the capacity, in every string
    dictionary that calls from [strdict_init] on lead to, whatever the
    allocator answers. *)
Theorem strdict_ordering_invariant dict :
  reachable dict →
  (∀ i, i + 1 < nitems dict →
        (stricmp (text (key (entries dict !!! i)))
                 (text (key (entries dict !!! (i + 1)%nat))) ≤ 0)%Z)
  ∧ nitems dict ≤ nalloc dict ∧ nalloc dict ≤ SIZE_MAX.
Proof.
  intros Hreach.
  pose proof (str_reachable_wf init_size_fits dict Hreach) as Hwf.
  split; [| split; [apply Hwf | apply Hwf]].
  intros i Hi. rewrite !str_entries_lookup by lia.
  replace (i + 1) with (S i) by lia. by apply (wf_sorted dict Hwf).
Qed.

(** A successful [strdict_insert], and where [strdict_bisect_left] finds
    a key that compares equal to the inserted one afterwards. *)
Lemma str_bisect_left_after_insert dict (k k' : charp) v benv env env' pos
    dict1 :
  wf dict → strdict_insert dict k v benv env = (true, pos, dict1) →
  stricmp (text k') (text k) = 0%Z →
  let ins := (strdict_bisect_left dict k benv).1 in
  pos = Some ins ∧ wf dict1 ∧ nitems dict1 = S (nitems dict)
  ∧ ins ≤ nitems dict
  ∧ entries dict1 = insert_at ins {| key := k; value := v |} (entries dict)
  ∧ (strdict_bisect_left dict1 k' env').1 = ins.
Proof.
  intros Hwf Hins Hequal ins.
  destruct (str_classic_refused dict env) as [Href | Hok].
  { rewrite (str_insert_failure init_size_fits dict k v benv env Hwf Href)
      in Hins. discriminate. }
  destruct (str_insert_success init_size_fits dict k v benv env Hwf Hok)
    as (dict' & Heq & Hn & _ & _ & _ & _ & Hentries & Hwf').
  rewrite Heq in Hins. injection Hins as <- <-. fold ins in Hentries.
  destruct (str_bisect_left_spec dict k benv Hwf)
    as ((Hi & Hbelow & Habove) & _).
  fold ins in Hi, Hbelow, Habove.
  pose proof (str_entries_length dict Hwf) as Hlen.
  repeat (split; [done |]).
  eapply partition_point_unique; [by apply str_bisect_left_spec |].
  split; [lia |]. split.
  - intros j Hj. rewrite <- str_entries_lookup by lia.
    rewrite Hentries. unfold insert_at.
    rewrite lookup_total_app_l by (rewrite length_take; lia).
    rewrite lookup_total_take_lt by done. rewrite str_entries_lookup by lia.
    apply Z.ltb_lt. apply (stricmp_equal_keys _ (text k) (text k') Hequal).
    apply Z.ltb_lt. by apply Hbelow.
  - intros j Hj Hjn. rewrite <- str_entries_lookup by lia.
    rewrite Hentries. unfold insert_at.
    rewrite lookup_total_app_r by (rewrite length_take; lia).
    rewrite length_take, Nat.min_l by lia.
    apply Z.ltb_ge.
    destruct (j - ins) as [| d] eqn:Hd.
    + cbn. rewrite (stricmp_antisym (text k') (text k)). lia.
    + rewrite lookup_total_cons_ne_0 by done. cbn [Nat.pred].
      rewrite lookup_total_drop. rewrite str_entries_lookup by lia.
      specialize (Habove (ins + d)). cbn beta in Habove.
      set (e := slots dict !!! (ins + d)) in *.
      assert (Hhigh : (stricmp (text (key e)) (text k) <? 0)%Z = false)
        by (apply Habove; lia).
      bool_to_prop.
      destruct (Z.lt_ge_cases (stricmp (text (key e)) (text k')) 0)
        as [Hlt | Hge]; [| lia].
      apply (stricmp_equal_keys _ (text k) (text k') Hequal) in Hlt. lia.
Qed.

(** After a successful [strdict_insert] of [k] and [v], a search for any
    key that compares equal to [k] (so also for [k] in another case of
    letters) finds the new entry, at the index the insertion reported:
    [strdict_find_value] returns [v], also when other entries have such a
    key. *)
Theorem strdict_insert_then_find dict (k k' : charp) v benv env env' pos
    dict1 :
  wf dict → strdict_insert dict k v benv env = (true, pos, dict1) →
  stricmp (text k') (text k) = 0%Z →
  ∃ dict2,
    strdict_find dict1 k' env' = (true, pos, dict2)
    ∧ strdict_find_value dict1 k' env' = (v, pos, dict2)
    ∧ same_store dict1 dict2.
Proof.
  intros Hwf Hins Hequal.
  destruct (str_bisect_left_after_insert dict k k' v benv env env' pos dict1
              Hwf Hins Hequal)
    as (-> & Hwf1 & Hn & Hle & Hentries & Hfound).
  assert (Hnew : entries dict1 !!! (strdict_bisect_left dict k benv).1
                 = {| key := k; value := v |}).
  { rewrite Hentries. apply list_lookup_total_middle.
    rewrite length_take, str_entries_length by done. lia. }
  destruct (str_bisect_left_spec dict1 k' env' Hwf1) as (_ & Hsame & _).
  unfold strdict_find_value. rewrite str_find_unfold by done.
  destruct (strdict_bisect_left dict1 k' env') as [i dict2].
  cbn [fst snd] in *.
  subst i. exists dict2.
  rewrite decide_True.
  - split; [done |]. split; [| done].
    unfold strdict_get_value_at.
    rewrite (str_same_store_slots dict1 dict2) by done.
    rewrite <- str_entries_lookup by lia. by rewrite Hnew.
  - split; [lia |]. rewrite Hnew. cbn [key].
    rewrite (stricmp_antisym (text k') (text k)). lia.
Qed.

(** Removing a key that compares equal to the one just inserted takes
    out the very entry that the successful [strdict_insert] put in and
    gives back the entries there were before, whatever other entries have
    such a key; [strdict_remove_value] returns the inserted value.  The
    capacity is not given back. *)
Theorem strdict_insert_then_remove dict (k k' : charp) v benv env env' pos
    dict1 :
  wf dict → strdict_insert dict k v benv env = (true, pos, dict1) →
  stricmp (text k') (text k) = 0%Z →
  ∃ dict2,
    strdict_remove dict1 k' env' = (true, pos, dict2)
    ∧ strdict_remove_value dict1 k' env' = (v, pos, dict2)
    ∧ entries dict2 = entries dict
    ∧ nitems dict2 = nitems dict
    ∧ nalloc dict2 = nalloc dict1.
Proof.
  intros Hwf Hins Hequal.
  destruct (str_bisect_left_after_insert dict k k' v benv env env' pos dict1
              Hwf Hins Hequal)
    as (-> & Hwf1 & Hn & Hle & Hentries & Hfound).
  assert (Hnew : entries dict1 !!! (strdict_bisect_left dict k benv).1
                 = {| key := k; value := v |}).
  { rewrite Hentries. apply list_lookup_total_middle.
    rewrite length_take, str_entries_length by done. lia. }
  destruct (str_bisect_left_spec dict1 k' env' Hwf1) as (_ & Hsame & Hwf2).
  unfold strdict_remove, strdict_remove_value, strdict_remove_value_at.
  rewrite str_find_unfold by done.
  destruct (strdict_bisect_left dict1 k' env') as [i dict2].
  cbn [fst snd] in *.
  subst i. set (ins := (strdict_bisect_left dict k benv).1) in *.
  rewrite decide_True; cycle 1.
  { split; [lia |]. rewrite Hnew. cbn [key].
    rewrite (stricmp_antisym (text k') (text k)). lia. }
  pose proof Hsame as (Hcap & Hn2 & Harr).
  destruct (str_remove_at_spec dict2 ins Hwf2)
    as (Hn' & Hcap' & _ & _ & _ & Hdel & _); [lia |].
  rewrite (str_same_store_entries dict1 dict2) in Hdel by done.
  exists (strdict_remove_at dict2 ins).
  split; [done |]. split.
  - f_equal. f_equal.
    destruct (array dict2) as [array |] eqn:Harr2.
    + change array with (default [] (Some array)). rewrite <- Harr2.
      fold (slots dict2). rewrite (str_same_store_slots dict1 dict2) by done.
      rewrite <- str_entries_lookup by lia. by rewrite Hnew.
    + pose proof (wf_array dict2 Hwf2) as Hzero. rewrite Harr2 in Hzero.
      pose proof (wf_nitems dict2 Hwf2). lia.
  - split; [| lia].
    rewrite Hdel, Hentries. unfold insert_at.
    replace ins with (length (take ins (entries dict))) at 1
      by (rewrite length_take, str_entries_length by done; lia).
    by rewrite delete_middle, take_drop.
Qed.

End WithGrowth.
Section Iteration.
Context `{SizeT}.

Lemma str_get_value_at_entries dict (i : nat) :
  i < nitems dict → strdict_get_value_at dict i = value (entries dict !!! i).
Proof.
  intros Hi. unfold strdict_get_value_at. by rewrite str_entries_lookup.
Qed.

Lemma str_viter_remove_spec (iter : StrDictVIter) dict :
  wf dict →
  0 < next_index iter → next_index iter ≤ end_ iter →
  end_ iter ≤ nitems dict →
  strdictviter_remove iter dict =
    (next_index iter - 1,
     {| next_index := next_index iter - 1; end_ := end_ iter - 1 |},
     strdict_remove_at dict (next_index iter - 1))
  ∧ entries (strdict_remove_at dict (next_index iter - 1)) =
      delete (next_index iter - 1) (entries dict)
  ∧ nitems (strdict_remove_at dict (next_index iter - 1)) = nitems dict - 1
  ∧ wf (strdict_remove_at dict (next_index iter - 1)).
Proof.
  intros Hwf Hpos Hle Hend. unfold strdictviter_remove.
  rewrite !IntDictFacts.size_dec_pos by lia.
  destruct (str_remove_at_spec dict (next_index iter - 1) Hwf)
    as (Hn & _ & _ & _ & _ & Hentries & Hwf'); [lia |].
  done.
Qed.

(** The loop of test40 inside a range: [kept] are the entries in front of
    the one just yielded, [x], [rest] those of the range still to come
    and [tail] the entries behind the range. *)
Lemma str_iterate_from_spec (selected : nat → bool)
    (rest : list StrDictItem) :
  ∀ (fuel count : nat) (x : StrDictItem) (kept tail : list StrDictItem)
    (iter : StrDictVIter) dict,
    wf dict →
    length rest < fuel →
    Forall (λ e, value e ≠ NULL) (x :: rest) →
    entries dict = kept ++ x :: rest ++ tail →
    next_index iter = length kept + 1 →
    end_ iter = length kept + 1 + length rest →
    ∃ iter' dict',
      iterate_from selected fuel (value x) iter dict count =
        (value <$> (x :: rest), iter', dict')
      ∧ entries dict' = kept ++ unselected selected count (x :: rest) ++ tail
      ∧ wf dict'.
Proof.
  induction rest as [| y rest IH];
    intros fuel count x kept tail iter dict Hwf Hfuel Hnonnull Hentries
      Hnext Hend.
  - destruct fuel as [| fuel]; [simpl in Hfuel; lia |].
    pose proof (str_entries_length dict Hwf) as Hlen.
    rewrite Hentries, length_app in Hlen. cbn [length app] in Hlen.
    apply Forall_cons in Hnonnull as [Hx _].
    cbn [iterate_from]. rewrite IntDictFacts.unselected_cons.
    cbn [unselected length] in *.
    replace (value x =? NULL)%N with false
      by (symmetry; by apply N.eqb_neq).
    destruct (selected count) eqn:Hsel.
    + destruct (str_viter_remove_spec iter dict Hwf)
        as (-> & Hdel & Hn & Hwf'); [lia | lia | lia |].
      unfold strdictviter_advance. cbn [next_index end_].
      replace (next_index iter - 1 <? end_ iter - 1) with false
        by (symmetry; apply Nat.ltb_ge; lia).
      destruct fuel; cbn [iterate_from]; eexists _, _;
        (split; [reflexivity |]); (split; [| done]).
      all: rewrite Hdel, Hentries, Hnext.
      all: replace (length kept + 1 - 1) with (length kept) by lia.
      all: by rewrite delete_middle.
    + unfold strdictviter_advance.
      replace (next_index iter <? end_ iter) with false
        by (symmetry; apply Nat.ltb_ge; lia).
      destruct fuel; cbn [iterate_from]; eexists _, _;
        (split; [reflexivity |]); done.
  - destruct fuel as [| fuel]; [simpl in Hfuel; lia |].
    pose proof (str_entries_length dict Hwf) as Hlen.
    rewrite Hentries, length_app in Hlen.
    cbn [length app] in Hlen, Hend. rewrite length_app in Hlen.
    pose proof Hnonnull as Hnonnull'.
    apply Forall_cons in Hnonnull' as [Hx Hrest].
    cbn [iterate_from]. rewrite IntDictFacts.unselected_cons.
    replace (value x =? NULL)%N with false
      by (symmetry; by apply N.eqb_neq).
    destruct (selected count) eqn:Hsel.
    + destruct (str_viter_remove_spec iter dict Hwf)
        as (-> & Hdel & Hn & Hwf'); [lia | lia | lia |].
      set (dict1 := strdict_remove_at dict (next_index iter - 1)) in *.
      assert (Hentries1 : entries dict1 = kept ++ y :: rest ++ tail).
      { rewrite Hdel, Hentries, Hnext.
        replace (length kept + 1 - 1) with (length kept) by lia.
        by rewrite delete_middle. }
      unfold strdictviter_advance. cbn [next_index end_].
      replace (next_index iter - 1 <? end_ iter - 1) with true
        by (symmetry; apply Nat.ltb_lt; lia).
      rewrite str_get_value_at_entries by lia.
      assert (Hy : entries dict1 !!! (next_index iter - 1) = y).
      { rewrite Hentries1, Hnext. apply list_lookup_total_middle. lia. }
      rewrite Hy, Hnext.
      replace (length kept + 1 - 1) with (length kept) by lia.
      destruct (IH fuel (count + 1) y kept tail
                  {| next_index := length kept + 1;
                     end_ := end_ iter - 1 |} dict1)
        as (iter' & dict' & -> & Hfinal & Hwf'');
        [done | simpl in Hfuel; lia | done | done | done | cbn; lia |].
      eexists _, _. split; [reflexivity |]. done.
    + unfold strdictviter_advance.
      replace (next_index iter <? end_ iter) with true
        by (symmetry; apply Nat.ltb_lt; lia).
      rewrite str_get_value_at_entries by lia.
      assert (Hentries1 : entries dict = (kept ++ [x]) ++ y :: rest ++ tail)
        by (by rewrite <- app_assoc).
      assert (Hy : entries dict !!! next_index iter = y).
      { rewrite Hentries1, Hnext. apply list_lookup_total_middle.
        rewrite length_app. simpl. lia. }
      rewrite Hy.
      destruct (IH fuel (count + 1) y (kept ++ [x]) tail
                  {| next_index := next_index iter + 1;
                     end_ := end_ iter |} dict)
        as (iter' & dict' & -> & Hfinal & Hwf'');
        [done | simpl in Hfuel; lia | done | done
        | cbn; rewrite length_app; simpl; lia
        | cbn; rewrite length_app; simpl; lia |].
      eexists _, _. split; [reflexivity |].
      by rewrite Hfinal, <- app_assoc.
Qed.

Lemma str_destroy_loop_spec {C : Type} (destructor : charp → voidp → C → C)
    (array : list StrDictItem) (n : nat) :
  ∀ (fuel i : nat) (arg : C),
    n ≤ length array → n ≤ fuel + i →
    destroy_loop destructor array n fuel i arg =
      foldl (λ a e, destructor (key e) (value e) a) arg
        (drop i (take n array)).
Proof.
  induction fuel as [| fuel IH]; intros i arg Hlen Hfuel.
  - cbn [destroy_loop]. rewrite drop_ge; [done |].
    rewrite length_take. lia.
  - cbn [destroy_loop]. case_test; bool_to_prop.
    + rewrite IH by lia.
      rewrite (drop_S (take n array) (array !!! i) i).
      * cbn [foldl]. by replace (i + 1) with (S i) by lia.
      * rewrite lookup_take_lt by done.
        apply list_lookup_lookup_total_lt. lia.
    + rewrite drop_ge; [done |]. rewrite length_take. lia.
Qed.

Lemma str_destroy_fold {C : Type} dict
    (destructor : charp → voidp → C → C) (arg : C) :
  wf dict →
  strdict_destroy dict (Some destructor) arg =
    foldl (λ a e, destructor (key e) (value e) a) arg (entries dict).
Proof.
  intros Hwf. unfold strdict_destroy, entries, slots.
  pose proof (str_wf_slots_length dict Hwf) as Hlen. unfold slots in Hlen.
  destruct (array dict) as [array |] eqn:Harr.
  - cbn [default from_option id] in *.
    rewrite str_destroy_loop_spec by lia. by rewrite drop_0.
  - cbn in Hlen. by replace (nitems dict) with 0 by lia.
Qed.

Lemma record_callbacks_fold (l : list StrDictItem)
    (callbacks : list (charp * voidp)) :
  foldl (λ a e, record_callbacks (key e) (value e) a) callbacks l =
    callbacks ++ ((λ e, (key e, value e)) <$> l).
Proof.
  revert callbacks. induction l as [| e l IH]; intros callbacks.
  - by rewrite app_nil_r.
  - cbn [foldl fmap list_fmap]. rewrite IH. unfold record_callbacks.
    by rewrite <- app_assoc.
Qed.

(** [strdict_destroy] calls the destructor once for each entry, in index
    order, which is the order of the keys, with the entry's key and
    value, and for no slot of the array beyond the entries; the
    destructor of the tests so records the keys and values of the entries
    in their order.  Without a destructor nothing is called. *)
Theorem strdict_destroy_calls {C : Type} dict
    (destructor : charp → voidp → C → C) (arg : C) :
  wf dict →
  strdict_destroy dict (Some destructor) arg =
    foldl (λ a e, destructor (key e) (value e) a) arg (entries dict)
  ∧ strdict_destroy dict (Some record_callbacks) [] =
      (λ e, (key e, value e)) <$> entries dict
  ∧ strdict_destroy dict None arg = arg.
Proof.
  intros Hwf. split; [by apply str_destroy_fold |]. split; [| done].
  rewrite str_destroy_fold by done. by rewrite record_callbacks_fold.
Qed.

(** test40.  The loop that starts with [strdictviter_all_init], removes
    with [strdictviter_remove] the entries it selects by their count and
    goes on with [strdictviter_advance] until the null result sees the
    values of all entries, in their order, when none of them is null;
    it leaves the entries it did not select, in their order, and those
    are what [strdict_destroy] then hands to the destructor. *)
Theorem strdict_iterate_all_correct (selected : nat → bool) dict :
  wf dict →
  Forall (λ e, value e ≠ NULL) (entries dict) →
  let '(seen, _, dict') := iterate_all selected dict in
  seen = value <$> entries dict
  ∧ entries dict' = unselected selected 0 (entries dict)
  ∧ strdict_destroy dict' (Some record_callbacks) [] =
      (λ e, (key e, value e)) <$> unselected selected 0 (entries dict).
Proof.
  intros Hwf Hnonnull. unfold iterate_all, strdictviter_all_init.
  pose proof (str_entries_length dict Hwf) as Hlen.
  unfold strdictviter_advance, strdict_count. cbn [next_index end_].
  destruct (entries dict) as [| x rest] eqn:Hentries.
  - cbn [length] in Hlen. rewrite <- Hlen. cbn [Nat.ltb Nat.leb Nat.add].
    cbn [iterate_from]. rewrite N.eqb_refl. cbn [fmap list_fmap unselected].
    split; [done |]. split; [done |].
    rewrite str_destroy_fold by done. by rewrite Hentries.
  - cbn [length] in Hlen.
    replace (0 <? nitems dict) with true
      by (symmetry; apply Nat.ltb_lt; lia).
    rewrite str_get_value_at_entries by lia. rewrite Hentries.
    change ((x :: rest) !!! 0) with x.
    destruct (str_iterate_from_spec selected rest (nitems dict + 1) 0 x []
                [] {| next_index := 0 + 1; end_ := nitems dict |} dict)
      as (iter' & dict' & -> & Hfinal & Hwf');
      [done | lia | done | by rewrite Hentries, app_nil_r | done
      | cbn; lia |].
    rewrite app_nil_r in Hfinal. cbn [app] in Hfinal.
    split; [done |]. split; [done |].
    rewrite str_destroy_fold by done.
    by rewrite record_callbacks_fold, Hfinal.
Qed.

(** What the loop of test39 collects with the value of [x] in hand, when
    the entries of the range still to come are [rest]. *)
Lemma collect_from_spec dict (rest : list StrDictItem) :
  ∀ (fuel : nat) (x : StrDictItem) (front tail : list StrDictItem)
    (iter : StrDictVIter),
    length (entries dict) = nitems dict →
    length rest < fuel →
    Forall (λ e, value e ≠ NULL) (x :: rest) →
    entries dict = front ++ rest ++ tail →
    next_index iter = length front →
    end_ iter = length front + length rest →
    collect_from fuel (value x) iter dict = value <$> (x :: rest).
Proof.
  induction rest as [| y rest IH];
    intros fuel x front tail iter Hlen Hfuel Hnonnull Hentries Hnext Hend.
  - destruct fuel as [| fuel]; [simpl in Hfuel; lia |].
    apply Forall_cons in Hnonnull as [Hx _].
    cbn [collect_from length] in *.
    replace (value x =? NULL)%N with false
      by (symmetry; by apply N.eqb_neq).
    unfold strdictviter_advance.
    replace (next_index iter <? end_ iter) with false
      by (symmetry; apply Nat.ltb_ge; lia).
    destruct fuel; cbn [collect_from]; [done |]. by rewrite N.eqb_refl.
  - destruct fuel as [| fuel]; [simpl in Hfuel; lia |].
    pose proof Hlen as Hlen'.
    rewrite Hentries, length_app in Hlen'.
    cbn [length app] in Hlen', Hend.
    pose proof Hnonnull as Hnonnull'.
    apply Forall_cons in Hnonnull' as [Hx Hrest].
    cbn [collect_from].
    replace (value x =? NULL)%N with false
      by (symmetry; by apply N.eqb_neq).
    unfold strdictviter_advance.
    replace (next_index iter <? end_ iter) with true
      by (symmetry; apply Nat.ltb_lt; lia).
    rewrite str_get_value_at_entries by lia.
    assert (Hy : entries dict !!! next_index iter = y).
    { rewrite Hentries, Hnext. cbn [app]. by apply list_lookup_total_middle. }
    rewrite Hy.
    rewrite (IH fuel y (front ++ [y]) tail
               {| next_index := next_index iter + 1; end_ := end_ iter |});
      [done | done | simpl in Hfuel; lia | done
      | by rewrite Hentries, <- app_assoc
      | cbn; rewrite length_app; simpl; lia
      | cbn; rewrite length_app; simpl; lia].
Qed.

(** test39.  Iterating over a range of keys with [strdictviter_init] and
    [strdictviter_advance] until the null result collects the values of
    exactly the entries whose key compares between [min_key] and
    [max_key], both included and the case of letters ignored, in the
    order of the dictionary, provided none of these values is null.
    Their number is the difference of the indices [strdict_bisect_right]
    returns for [max_key] and [strdict_bisect_left] for [min_key], and 0
    if the former is the smaller one; the entries stay as they are. *)
Theorem collect_range_correct dict (min_key max_key : charp)
    (env1 env2 : realloc_result ascii) :
  wf dict →
  let in_range :=
    filter (λ e, (0 ≤ stricmp (text (key e)) (text min_key)
                  ∧ stricmp (text (key e)) (text max_key) ≤ 0)%Z)
      (entries dict) in
  let min_index := (strdict_bisect_left dict min_key env1).1 in
  let max_index := (strdict_bisect_right dict max_key env2).1 in
  Forall (λ e, value e ≠ NULL) in_range →
  let '(got_values, dict') :=
    collect_range dict min_key max_key env1 env2 in
  got_values = value <$> in_range
  ∧ in_range = take (max_index - min_index) (drop min_index (entries dict))
  ∧ length got_values = max_index - min_index
  ∧ same_store dict dict'.
Proof.
  intros Hwf in_range min_index max_index Hnonnull.
  assert (Hrange : in_range = take (max_index - min_index)
                                (drop min_index (entries dict))).
  { apply filter_interval. intros j Hj.
    rewrite str_entries_length in Hj by done. by apply str_range. }
  pose proof (str_entries_length dict Hwf) as Hlen.
  destruct (str_bisect_right_spec dict max_key env2 Hwf)
    as ((Hlast_le & _) & _). fold max_index in Hlast_le.
  assert (Hcount : length in_range = max_index - min_index).
  { rewrite Hrange, length_take, length_drop. lia. }
  unfold collect_range.
  destruct (str_viter_init_effect dict min_key max_key env1 env2 Hwf)
    as (dict' & Hsame & ->).
  fold min_index max_index.
  pose proof (str_same_store_entries dict dict' Hsame) as Hentries.
  pose proof Hsame as (_ & Hn & _).
  unfold strdictviter_advance. cbn [next_index end_].
  destruct (decide (min_index < max_index)) as [Hlt | Hge].
  - replace (min_index <? max_index) with true
      by (symmetry; by apply Nat.ltb_lt).
    rewrite str_get_value_at_entries by lia.
    destruct in_range as [| x rest] eqn:Hin; [cbn in Hcount; lia |].
    assert (Hx : entries dict !! min_index = Some x).
    { pose proof (f_equal (λ l, l !! 0) Hrange) as Hhead. cbn in Hhead.
      rewrite lookup_take_lt, lookup_drop, Nat.add_0_r in Hhead by lia.
      done. }
    rewrite (list_lookup_total_correct _ _ _ Hx).
    assert (Hsplit : entries dict' =
                       (take min_index (entries dict) ++ [x]) ++ rest
                       ++ drop max_index (entries dict)).
    { rewrite Hentries, <- app_assoc.
      change ([x] ++ rest ++ drop max_index (entries dict))
        with ((x :: rest) ++ drop max_index (entries dict)).
      rewrite Hrange.
      rewrite <- (take_drop min_index (entries dict)) at 1. f_equal.
      rewrite <- (take_drop (max_index - min_index)
                    (drop min_index (entries dict))) at 1.
      rewrite drop_drop. f_equal. f_equal. lia. }
    rewrite (collect_from_spec dict' rest (nitems dict' + 1) x
               (take min_index (entries dict) ++ [x])
               (drop max_index (entries dict))).
    + split; [done |]. split; [done |]. split; [| done].
      rewrite length_fmap. done.
    + by rewrite Hentries, Hlen.
    + cbn [length] in Hcount. lia.
    + done.
    + done.
    + cbn [next_index]. rewrite length_app, length_take. cbn. lia.
    + cbn [end_ length] in *. rewrite length_app, length_take. cbn. lia.
  - replace (min_index <? max_index) with false
      by (symmetry; apply Nat.ltb_ge; lia).
    replace (nitems dict' + 1) with (S (nitems dict')) by lia.
    cbn [collect_from]. rewrite N.eqb_refl.
    assert (Hempty : in_range = []).
    { rewrite Hrange. replace (max_index - min_index) with 0 by lia.
      apply take_0. }
    rewrite Hempty in *. cbn [length] in Hcount. done.
Qed.

End Iteration.

Section Specific.
Context `{SizeT}.

Lemma str_find_specific_loop_spec array (k : charp) v (n : nat) :
  ∀ (fuel index : nat) (diff : Z),
    index < n → n ≤ fuel + index + 1 →
    diff = stricmp (text (key (array !!! index))) (text k) →
    let '(r, d) := find_specific_loop array k v n fuel index diff in
    d = stricmp (text (key (array !!! r))) (text k)
    ∧ index ≤ r ∧ r < n
    ∧ (∀ j, index ≤ j → j < r →
            stricmp (text (key (array !!! j))) (text k) = 0%Z
            ∧ value (array !!! j) ≠ v)
    ∧ (d ≠ 0%Z ∨ value (array !!! r) = v ∨ r + 1 = n).
Proof.
  induction fuel as [| fuel IH]; intros index diff Hindex Hfuel Hdiff.
  - cbn [find_specific_loop].
    split; [done |]. split; [lia |]. split; [lia |].
    split; [intros; lia |]. right. right. lia.
  - cbn [find_specific_loop]. case_test; bool_to_prop.
    + specialize (IH (index + 1)
                    (stricmp (text (key (array !!! (index + 1)))) (text k))).
      destruct (find_specific_loop array k v n fuel (index + 1) _)
        as [r d].
      destruct IH as (Hd & Hle & Hlt & Hrun & Hstop); [lia | lia | done |].
      split; [done |]. split; [lia |]. split; [lia |]. split; [| done].
      intros j Hj Hjr. destruct (decide (j = index)) as [-> | Hne].
      * split; [congruence | done].
      * apply Hrun; lia.
    + split; [done |]. split; [lia |]. split; [lia |].
      split; [intros; lia |].
      destruct E as [E | E]; bool_to_prop.
      * destruct E as [E | E]; bool_to_prop; [by left | by right; left].
      * right. right. lia.
Qed.

Lemma str_find_specific_cases dict (k : charp) v
    (env : realloc_result ascii) :
  wf dict →
  let '(found, pos, dict') := strdict_find_specific dict k v env in
  same_store dict dict'
  ∧ (found = true
     ↔ ∃ e, e ∈ entries dict
            ∧ stricmp (text (key e)) (text k) = 0%Z ∧ value e = v)
  ∧ match pos with
    | Some p =>
        found = true ∧ p < nitems dict
        ∧ stricmp (text (key (entries dict !!! p))) (text k) = 0%Z
        ∧ value (entries dict !!! p) = v
        ∧ ∀ j, j < p →
               ¬ (stricmp (text (key (entries dict !!! j))) (text k) = 0%Z
                  ∧ value (entries dict !!! j) = v)
    | None => found = false
    end.
Proof.
  intros Hwf.
  destruct (str_bisect_left_spec dict k env Hwf)
    as ((Hi & Hbelow & Habove) & Hsame & Hwf').
  assert (Hpos : ∀ j, j < nitems dict →
                      stricmp (text (key (entries dict !!! j))) (text k)
                      = 0%Z →
                      (strdict_bisect_left dict k env).1 ≤ j
                      ∧ (strdict_bisect_left dict k env).1 < nitems dict
                      ∧ stricmp
                          (text (key (entries dict
                                      !!! (strdict_bisect_left dict k env).1)))
                          (text k) = 0%Z)
    by (intros j; by apply str_key_positions).
  assert (Hmem : (∃ e, e ∈ entries dict
                       ∧ stricmp (text (key e)) (text k) = 0%Z
                       ∧ value e = v) →
                 ∃ j, j < nitems dict
                      ∧ stricmp (text (key (entries dict !!! j))) (text k)
                        = 0%Z
                      ∧ value (entries dict !!! j) = v).
  { intros (e & He & Hk & Hv).
    apply list_elem_of_lookup_total in He as (j & Hj & <-).
    rewrite str_entries_length in Hj by done. by exists j. }
  unfold strdict_find_specific.
  destruct (array dict) as [array |] eqn:Harr.
  - destruct (strdict_bisect_left dict k env) as [i dict1].
    cbn [fst snd] in *.
    pose proof Hsame as (_ & Hn & _). rewrite <- Hn.
    assert (Harray : array = slots dict)
      by (unfold slots; by rewrite Harr).
    subst array.
    case_test; bool_to_prop.
    { split; [done |]. split; [| done]. split; [done |].
      intros (j & Hj & Hk & _)%Hmem.
      destruct (Hpos j Hj Hk) as (_ & Hlt & _). lia. }
    case_test; bool_to_prop.
    { split; [done |]. split; [| done]. split; [done |].
      intros (j & Hj & Hk & _)%Hmem.
      destruct (Hpos j Hj Hk) as (_ & _ & Hkey).
      rewrite str_entries_lookup in Hkey by lia. done. }
    pose proof (str_find_specific_loop_spec (slots dict) k v (nitems dict)
                  (nitems dict) i
                  (stricmp (text (key (slots dict !!! i))) (text k)))
      as Hloop.
    destruct (find_specific_loop (slots dict) k v (nitems dict)
                (nitems dict) i _) as [r d].
    destruct Hloop as (Hd & Hle & Hlt & Hrun & Hstop); [lia | lia | done |].
    assert (Hkeys : ∀ j, j < r →
                         stricmp (text (key (slots dict !!! j))) (text k)
                         = 0%Z →
                         value (slots dict !!! j) ≠ v).
    { intros j Hj Hkey. destruct (decide (i ≤ j)) as [Hij | Hij].
      - by apply Hrun.
      - specialize (Hbelow j). cbn beta in Hbelow.
        assert (Hlow : (stricmp (text (key (slots dict !!! j))) (text k)
                        <? 0)%Z = true) by (apply Hbelow; lia).
        bool_to_prop. lia. }
    case_test; bool_to_prop.
    + split; [done |]. split; [| done]. split; [done |].
      intros (j & Hj & Hk & Hv)%Hmem.
      rewrite str_entries_lookup in Hk, Hv by done.
      assert (Hrj : r ≤ j).
      { destruct (decide (r ≤ j)); [done |]. exfalso.
        apply (Hkeys j); [lia | done | done]. }
      assert (Hkey : d = 0%Z).
      { subst d.
        pose proof (str_sorted_le dict r j (wf_sorted dict Hwf) Hrj Hj)
          as Hrj'.
        assert (Hle' : (stricmp (text (key (slots dict !!! r))) (text k)
                        ≤ 0)%Z)
          by (apply (stricmp_le_trans _ _ _ Hrj'); lia).
        specialize (Habove r). cbn beta in Habove.
        assert (Hhigh : (stricmp (text (key (slots dict !!! r))) (text k)
                         <? 0)%Z = false) by (apply Habove; lia).
        bool_to_prop. lia. }
      assert (Hvalue : value (slots dict !!! r) = v).
      { destruct Hstop as [Hstop | [Hstop | Hstop]]; [done | done |].
        by assert (j = r) as -> by lia. }
      destruct E1 as [Hbad | Hbad]; bool_to_prop; done.
    + split; [done |].
      assert (Hk : stricmp (text (key (entries dict !!! r))) (text k) = 0%Z)
        by (rewrite str_entries_lookup by done; congruence).
      assert (Hv : value (entries dict !!! r) = v)
        by (by rewrite str_entries_lookup by done).
      split.
      * split; [| done]. intros _. exists (entries dict !!! r).
        split; [| done]. apply list_elem_of_lookup_total_2.
        rewrite str_entries_length by done. lia.
      * split; [done |]. split; [done |]. split; [done |]. split; [done |].
        intros j Hj [Hbad Hbad']. rewrite str_entries_lookup in * by lia.
        by apply (Hkeys j).
  - split; [apply str_same_store_refl |]. split; [| done]. split; [done |].
    intros (j & Hj & _)%Hmem.
    pose proof (wf_array dict Hwf) as Hzero. rewrite Harr in Hzero.
    pose proof (wf_nitems dict Hwf). lia.
Qed.

(** [strdict_find_specific] reports a key and value as found exactly
    when an entry has the value and a key that compares equal, the case
    of letters ignored, and the index it stores is that of the first such
    entry; [strdict_remove_specific] removes that entry and no other, and
    keeps the capacity. *)
Theorem strdict_specific_correct dict (k : charp) v
    (env : realloc_result ascii) :
  wf dict →
  let '(found, pos, dict1) := strdict_find_specific dict k v env in
  let '(removed, rpos, dict2) := strdict_remove_specific dict k v env in
  same_store dict dict1
  ∧ (found = true
     ↔ ∃ e, e ∈ entries dict
            ∧ stricmp (text (key e)) (text k) = 0%Z ∧ value e = v)
  ∧ removed = found ∧ rpos = pos
  ∧ match pos with
    | Some p =>
        found = true ∧ p < nitems dict
        ∧ stricmp (text (key (entries dict !!! p))) (text k) = 0%Z
        ∧ value (entries dict !!! p) = v
        ∧ (∀ j, j < p →
                ¬ (stricmp (text (key (entries dict !!! j))) (text k) = 0%Z
                   ∧ value (entries dict !!! j) = v))
        ∧ entries dict2 = delete p (entries dict)
        ∧ nitems dict2 = nitems dict - 1
        ∧ nalloc dict2 = nalloc dict
    | None => found = false ∧ dict2 = dict1
    end.
Proof.
  intros Hwf.
  pose proof (str_find_specific_cases dict k v env Hwf) as Hcases.
  pose proof (str_find_specific_state dict k v env Hwf) as [_ Hwf1].
  unfold strdict_remove_specific.
  destruct (strdict_find_specific dict k v env) as [[found pos] dict1].
  cbn [fst snd] in Hwf1.
  destruct Hcases as (Hsame & Hiff & Hpos).
  destruct pos as [p |].
  - destruct Hpos as (-> & Hp & Hkey & Hvalue & Hfirst).
    pose proof Hsame as (Hcap0 & Hn & _).
    destruct (str_remove_at_spec dict1 p Hwf1)
      as (Hn' & Hcap & _ & _ & _ & Hdel & _); [lia |].
    rewrite (str_same_store_entries dict dict1) in Hdel by done.
    repeat (split; [done || lia || congruence |]). congruence.
  - subst found. done.
Qed.

End Specific.

Section Repeated.
Context `{SizeT}.



End Repeated.

End StrDictMore.


(** ** Removal by index *)
Section RemoveAt.
Context `{SizeT}.

(** Removing the entry at an index below the count, in both dictionaries:
    the entries in front of it stay, those behind it move down by one,
    the count goes down by one and the capacity stays; the order of the
    keys is kept and the search cache is emptied.
    [intdict_remove_value_at] and [strdict_remove_value_at] return the
    value of the entry removed. *)
Theorem remove_at_correct :
  (∀ dict (index : nat),
     IntDict.wf dict → index < IntDict.nitems dict →
     let '(v, dict') := IntDict.intdict_remove_value_at dict index in
     dict' = IntDict.intdict_remove_at dict index
     ∧ v = IntDict.value (IntDict.entries dict !!! index)
     ∧ IntDict.entries dict' = delete index (IntDict.entries dict)
     ∧ IntDict.nitems dict' = IntDict.nitems dict - 1
     ∧ IntDict.nalloc dict' = IntDict.nalloc dict
     ∧ IntDict.candidate dict' = None
     ∧ IntDict.wf dict')
  ∧ (∀ dict (index : nat),
       StrDict.wf dict → index < StrDict.nitems dict →
       let '(v, dict') := StrDict.strdict_remove_value_at dict index in
       dict' = StrDict.strdict_remove_at dict index
       ∧ v = StrDict.value (StrDict.entries dict !!! index)
       ∧ StrDict.entries dict' = delete index (StrDict.entries dict)
       ∧ StrDict.nitems dict' = StrDict.nitems dict - 1
       ∧ StrDict.nalloc dict' = StrDict.nalloc dict
       ∧ StrDict.candidate dict' = None
       ∧ StrDict.wf dict').
Proof.
  split.
  - intros dict index Hwf Hindex.
    destruct (IntDictFacts.remove_at_spec dict index Hwf Hindex)
      as (Hn & Hcap & _ & Hcand & Hdel & Hwf').
    unfold IntDict.intdict_remove_value_at.
    split; [done |]. split; [| done].
    rewrite IntDictFacts.entries_lookup by done. unfold IntDict.slots.
    destruct (IntDict.array dict) as [array |] eqn:Harr; [done |].
    pose proof (IntDict.wf_array dict Hwf) as Hzero. rewrite Harr in Hzero.
    pose proof (IntDict.wf_nitems dict Hwf). lia.
  - intros dict index Hwf Hindex.
    destruct (StrDictFacts.str_remove_at_spec dict index Hwf Hindex)
      as (Hn & Hcap & _ & _ & Hcand & Hdel & Hwf').
    unfold StrDict.strdict_remove_value_at.
    split; [done |]. split; [| done].
    rewrite StrDictFacts.str_entries_lookup by done. unfold StrDict.slots.
    destruct (StrDict.array dict) as [array |] eqn:Harr; [done |].
    pose proof (StrDict.wf_array dict Hwf) as Hzero. rewrite Harr in Hzero.
    pose proof (StrDict.wf_nitems dict Hwf). lia.
Qed.

End RemoveAt.

(** ** The properties at the sample dictionaries *)
Module IntWitnesses.
Import Samples SampleFacts IntDict IntDictFacts IntDictMore.

#[local] Existing Instance size16.

Lemma int_inserted_eq :
  intdict_insert int_sample 4 15 (ReallocOk []) = (true, Some 1, int_inserted).
Proof. reflexivity. Qed.

Lemma intdict_find_correct_witness :
  wf int_sample
  ∧ (let '(found, pos, dict') := intdict_find int_sample 5 in
     same_store int_sample dict'
     ∧ (found = true ↔ ∃ e, e ∈ entries int_sample ∧ key e = 5%Z)
     ∧ match pos with
       | Some p =>
           found = true ∧ p < nitems int_sample
           ∧ key (entries int_sample !!! p) = 5%Z
           ∧ ∀ j, j < p → (key (entries int_sample !!! j) < 5)%Z
       | None => found = false
       end).
Proof.
  split; [exact int_sample_wf |].
  exact (intdict_find_correct int_sample 5%Z int_sample_wf).
Defined.

Lemma intdict_specific_correct_witness :
  wf int_sample
  ∧ (let '(found, pos, dict1) := intdict_find_specific int_sample 5 11 in
     let '(removed, rpos, dict2) :=
       intdict_remove_specific int_sample 5 11 in
     same_store int_sample dict1
     ∧ (found = true ↔ {| key := 5; value := 11 |} ∈ entries int_sample)
     ∧ removed = found ∧ rpos = pos
     ∧ match pos with
       | Some p =>
           found = true ∧ p < nitems int_sample
           ∧ entries int_sample !!! p = {| key := 5; value := 11 |}
           ∧ (∀ j, j < p →
                   entries int_sample !!! j ≠ {| key := 5; value := 11 |})
           ∧ entries dict2 = delete p (entries int_sample)
           ∧ nitems dict2 = nitems int_sample - 1
           ∧ nalloc dict2 = nalloc int_sample
       | None => found = false ∧ dict2 = dict1
       end).
Proof.
  split; [exact int_sample_wf |].
  exact (intdict_specific_correct int_sample 5%Z 11%N int_sample_wf).
Defined.

Lemma intdict_remove_correct_witness :
  wf int_sample
  ∧ (let '(found, pos, dict') := intdict_remove int_sample 5 in
     intdict_remove_value int_sample 5 =
       (match pos with
        | Some p => value (entries int_sample !!! p)
        | None => NULL
        end, pos, dict')
     ∧ match pos with
       | Some p =>
           found = true ∧ p < nitems int_sample
           ∧ key (entries int_sample !!! p) = 5%Z
           ∧ (∀ j, j < p → (key (entries int_sample !!! j) < 5)%Z)
           ∧ entries dict' = delete p (entries int_sample)
           ∧ nitems dict' = nitems int_sample - 1
           ∧ nalloc dict' = nalloc int_sample
       | None =>
           found = false ∧ same_store int_sample dict'
           ∧ ∀ e, e ∈ entries int_sample → key e ≠ 5%Z
       end).
Proof.
  split; [exact int_sample_wf |].
  exact (intdict_remove_correct int_sample 5%Z int_sample_wf).
Defined.

Lemma insert_then_find_witness :
  ArrayInitSize ≤ SIZE_MAX
  ∧ wf int_sample
  ∧ intdict_insert int_sample 4 15 (ReallocOk []) =
      (true, Some 1, int_inserted)
  ∧ ∃ dict2,
      intdict_find int_inserted 4 = (true, Some 1, dict2)
      ∧ intdict_find_value int_inserted 4 = (15%N, Some 1, dict2)
      ∧ same_store int_inserted dict2.
Proof.
  split; [exact size16_fits |]. split; [exact int_sample_wf |].
  split; [exact int_inserted_eq |].
  exact (insert_then_find size16_fits int_sample 4%Z 15%N (ReallocOk [])
           (Some 1) int_inserted int_sample_wf int_inserted_eq).
Defined.

Lemma insert_then_remove_witness :
  ArrayInitSize ≤ SIZE_MAX
  ∧ wf int_sample
  ∧ intdict_insert int_sample 4 15 (ReallocOk []) =
      (true, Some 1, int_inserted)
  ∧ ∃ dict2,
      intdict_remove int_inserted 4 = (true, Some 1, dict2)
      ∧ intdict_remove_value int_inserted 4 = (15%N, Some 1, dict2)
      ∧ entries dict2 = entries int_sample
      ∧ nitems dict2 = nitems int_sample
      ∧ nalloc dict2 = nalloc int_inserted.
Proof.
  split; [exact size16_fits |]. split; [exact int_sample_wf |].
  split; [exact int_inserted_eq |].
  exact (insert_then_remove size16_fits int_sample 4%Z 15%N (ReallocOk [])
           (Some 1) int_inserted int_sample_wf int_inserted_eq).
Defined.

Lemma int_sample_in_range :
  Forall (λ e, value e ≠ NULL)
    (filter (λ e, (4 ≤ key e ∧ key e ≤ 7)%Z) (entries int_sample)).
Proof. vm_compute. repeat constructor; discriminate. Qed.

Lemma iterate_range_correct_witness :
  wf int_sample
  ∧ Forall (λ e, value e ≠ NULL)
      (filter (λ e, (4 ≤ key e ∧ key e ≤ 7)%Z) (entries int_sample))
  ∧ (let '(seen, _, dict') := iterate_range Nat.odd int_sample 4 7 in
     seen = value <$>
              filter (λ e, (4 ≤ key e ∧ key e ≤ 7)%Z) (entries int_sample)
     ∧ entries dict' =
         take (intdict_bisect_left int_sample 4).1 (entries int_sample)
         ++ unselected Nat.odd 0
              (filter (λ e, (4 ≤ key e ∧ key e ≤ 7)%Z) (entries int_sample))
         ++ drop ((intdict_bisect_left int_sample 4).1
                  + length (filter (λ e, (4 ≤ key e ∧ key e ≤ 7)%Z)
                              (entries int_sample)))
              (entries int_sample)).
Proof.
  split; [exact int_sample_wf |]. split; [exact int_sample_in_range |].
  exact (iterate_range_correct Nat.odd int_sample 4%Z 7%Z int_sample_wf
           int_sample_in_range).
Defined.

Lemma empty_dictionary_witness :
  nitems intdict_init = 0
  ∧ intdict_bisect_left intdict_init 5 = (0, intdict_init)
  ∧ intdict_bisect_right intdict_init 5 = (0, intdict_init)
  ∧ intdict_find intdict_init 5 = (false, None, intdict_init)
  ∧ intdict_find_value intdict_init 5 = (NULL, None, intdict_init)
  ∧ intdict_find_specific intdict_init 5 11 = (false, None, intdict_init)
  ∧ intdict_remove intdict_init 5 = (false, None, intdict_init)
  ∧ intdict_remove_value intdict_init 5 = (NULL, None, intdict_init)
  ∧ intdict_remove_specific intdict_init 5 11 = (false, None, intdict_init)
  ∧ intdictviter_all_init intdict_init =
      (NULL, {| next_index := 0; end_ := 0 |})
  ∧ intdictviter_init intdict_init 5 7 =
      (NULL, {| next_index := 0; end_ := 0 |}, intdict_init).
Proof.
  split; [reflexivity |].
  exact (empty_dictionary intdict_init 5%Z 7%Z 11%N eq_refl).
Defined.

Lemma repeated_search_witness :
  wf int_sample
  ∧ (let '(i, dict1) := intdict_bisect_left int_sample 5 in
     intdict_bisect_left dict1 5 = (i, dict1)
     ∧ intdict_bisect_right dict1 5 =
         ((intdict_bisect_right int_sample 5).1, dict1)
     ∧ intdict_find dict1 5 = ((intdict_find int_sample 5).1, dict1)).
Proof.
  split; [exact int_sample_wf |].
  exact (repeated_search int_sample 5%Z int_sample_wf).
Defined.

Lemma intdict_destroy_calls_witness :
  wf int_sample
  ∧ intdict_destroy int_sample (Some count_and_sum) (0, 0%Z) =
      foldl (λ a e, count_and_sum (key e) (value e) a) (0, 0%Z)
        (entries int_sample)
  ∧ intdict_destroy int_sample None (0, 0%Z) = (0, 0%Z).
Proof.
  split; [exact int_sample_wf |].
  exact (intdict_destroy_calls int_sample count_and_sum (0, 0%Z)
           int_sample_wf).
Defined.

Lemma capacity_never_shrinks_witness :
  ArrayInitSize ≤ SIZE_MAX
  ∧ wf intdict_init
  ∧ run step intdict_init int_calls = Some (int_outs, int_sample)
  ∧ nalloc intdict_init ≤ nalloc int_sample
  ∧ (array intdict_init ≠ None → array int_sample ≠ None).
Proof.
  split; [exact size16_fits |].
  split; [exact (init_wf size16_fits) |].
  split; [exact int_sample_run |].
  exact (capacity_never_shrinks size16_fits int_calls intdict_init int_outs
           int_sample (init_wf size16_fits) int_sample_run).
Defined.

End IntWitnesses.

Module BufferWitnesses.
Import Samples SampleFacts StringBuff StringBuffMore.

#[local] Existing Instance size16.

Lemma buffer_sample_holds :
  holds buffer_sample (list_ascii_of_string "Aardvark").
Proof.
  split; [apply Nat.leb_le; vm_compute; reflexivity |].
  split; [reflexivity |].
  split; [repeat constructor; discriminate |].
  cbn. split; [reflexivity |]. split; [lia |]. split; reflexivity.
Qed.

Lemma buffer_sample_room : length (list_ascii_of_string "Aardvark")
                           + strlen "bison" < SIZE_MAX.
Proof. apply Nat.ltb_lt. vm_compute. reflexivity. Qed.

Lemma buffer_sample_room_separated :
  length (list_ascii_of_string "Aardvark") + strlen "bison" + 1 < SIZE_MAX.
Proof. apply Nat.ltb_lt. vm_compute. reflexivity. Qed.

Lemma stringbuffer_append_correct_witness :
  holds buffer_sample (list_ascii_of_string "Aardvark")
  ∧ length (list_ascii_of_string "Aardvark") + strlen "bison" < SIZE_MAX
  ∧ (let '(ok, b') :=
       stringbuffer_append buffer_sample "bison" 3 (ReallocOk []) in
     (if ok then
        holds b' (list_ascii_of_string "Aardvark"
                  ++ take 3 (chars_of "bison"))
        ∧ stringbuffer_get_pointer b' =
            string_of_list_ascii
              (list_ascii_of_string "Aardvark" ++ take 3 (chars_of "bison"))
        ∧ stringbuffer_get_length b' =
            length (list_ascii_of_string "Aardvark") + strlen "bison" `min` 3
      else b' = buffer_sample)
     ∧ (ok = false →
        @ReallocOk ascii [] = ReallocFail
        ∧ buffer_size buffer_sample
          ≤ length (list_ascii_of_string "Aardvark")
            + strlen "bison" `min` 3)).
Proof.
  split; [exact buffer_sample_holds |]. split; [exact buffer_sample_room |].
  exact (stringbuffer_append_correct buffer_sample _ "bison" 3 (ReallocOk [])
           buffer_sample_holds buffer_sample_room).
Defined.

Lemma stringbuffer_truncate_correct_witness :
  holds buffer_sample (list_ascii_of_string "Aardvark")
  ∧ (let b' := stringbuffer_truncate buffer_sample 3 in
     holds b' (take 3 (list_ascii_of_string "Aardvark"))
     ∧ stringbuffer_get_pointer b' =
         string_of_list_ascii (take 3 (list_ascii_of_string "Aardvark"))
     ∧ stringbuffer_get_length b' =
         length (list_ascii_of_string "Aardvark") `min` 3
     ∧ buffer_size b' = buffer_size buffer_sample).
Proof.
  split; [exact buffer_sample_holds |].
  exact (stringbuffer_truncate_correct buffer_sample _ 3
           buffer_sample_holds).
Defined.

Lemma stringbuffer_undo_restores_witness :
  holds buffer_sample (list_ascii_of_string "Aardvark")
  ∧ length (list_ascii_of_string "Aardvark") + strlen "bison" < SIZE_MAX
  ∧ ((stringbuffer_append buffer_sample "bison" 3 (ReallocOk [])).1 = true →
     holds (stringbuffer_undo
              (stringbuffer_append buffer_sample "bison" 3 (ReallocOk [])).2)
       (list_ascii_of_string "Aardvark"))
  ∧ holds (stringbuffer_undo (stringbuffer_truncate buffer_sample 3))
      (list_ascii_of_string "Aardvark")
  ∧ stringbuffer_undo (stringbuffer_undo buffer_sample) =
      stringbuffer_undo buffer_sample.
Proof.
  split; [exact buffer_sample_holds |]. split; [exact buffer_sample_room |].
  exact (stringbuffer_undo_restores buffer_sample _ "bison" 3 3 (ReallocOk [])
           buffer_sample_holds buffer_sample_room).
Defined.

Lemma separator_not_null : "/"%char ≠ Ascii.zero.
Proof. discriminate. Qed.

Lemma stringbuffer_append_separated_correct_witness :
  holds buffer_sample (list_ascii_of_string "Aardvark")
  ∧ "/"%char ≠ Ascii.zero
  ∧ length (list_ascii_of_string "Aardvark") + strlen "bison" + 1 < SIZE_MAX
  ∧ (let '(ok, b') :=
       stringbuffer_append_separated buffer_sample "/" "bison"
         (ReallocOk []) in
     (if ok then
        holds b' (list_ascii_of_string "Aardvark"
                  ++ "/"%char :: chars_of "bison")
        ∧ holds (stringbuffer_undo b') (list_ascii_of_string "Aardvark")
      else b' = buffer_sample)
     ∧ (ok = false →
        @ReallocOk ascii [] = ReallocFail
        ∧ buffer_size buffer_sample
          ≤ length (list_ascii_of_string "Aardvark") + strlen "bison" + 1)).
Proof.
  split; [exact buffer_sample_holds |]. split; [exact separator_not_null |].
  split; [exact buffer_sample_room_separated |].
  exact (stringbuffer_append_separated_correct buffer_sample _ "/" "bison"
           (ReallocOk []) buffer_sample_holds separator_not_null
           buffer_sample_room_separated).
Defined.

Lemma stringbuffer_minimize_correct_witness :
  holds (stringbuffer_truncate buffer_sample 3)
    (take 3 (list_ascii_of_string "Aardvark"))
  ∧ (let b' :=
       stringbuffer_minimize (stringbuffer_truncate buffer_sample 3)
         (ReallocOk []) in
     holds b' (take 3 (list_ascii_of_string "Aardvark"))
     ∧ holds (stringbuffer_undo b') (take 3 (list_ascii_of_string "Aardvark"))
     ∧ buffer_size b' ≤ buffer_size (stringbuffer_truncate buffer_sample 3)
     ∧ (take 3 (list_ascii_of_string "Aardvark") = [] →
        buffer_size b' = 0 ∧ buffer b' = None)
     ∧ (take 3 (list_ascii_of_string "Aardvark") ≠ [] →
        @ReallocOk ascii [] ≠ ReallocFail →
        buffer_size b' = length (take 3 (list_ascii_of_string "Aardvark")) + 1)).
Proof.
  assert (Hholds : holds (stringbuffer_truncate buffer_sample 3)
                     (take 3 (list_ascii_of_string "Aardvark"))).
  { split; [apply Nat.leb_le; vm_compute; reflexivity |].
    split; [reflexivity |].
    split; [repeat constructor; discriminate |].
    cbn. split; [reflexivity |]. split; [lia |]. split; reflexivity. }
  split; [exact Hholds |].
  exact (stringbuffer_minimize_correct _ _ (ReallocOk []) Hholds).
Defined.

End BufferWitnesses.

Module StrWitnesses.
Import Samples SampleFacts StringBuff StrDict StrDictFacts StrDictMore.

#[local] Existing Instance size16.

Lemma str_inserted_eq :
  strdict_insert str_sample (key_at 300 "camel") 13 (ReallocOk [])
    (ReallocOk []) = (true, Some 2, str_inserted).
Proof. reflexivity. Qed.

Lemma camel_equal : stricmp "CAMEL" "camel" = 0%Z.
Proof. reflexivity. Qed.

Lemma strdict_bisect_contract_witness :
  wf str_sample
  ∧ (let left :=
       (strdict_bisect_left str_sample (key_at 300 "BISON")
          (ReallocOk [])).1 in
     let right :=
       (strdict_bisect_right str_sample (key_at 300 "BISON")
          ReallocFail).1 in
     left ≤ right
     ∧ left = length (filter (λ e, (stricmp (text (key e)) "BISON" < 0)%Z)
                        (entries str_sample))
     ∧ first_position (λ e, (0 <=? stricmp (text (key e)) "BISON")%Z)
         (entries str_sample) left
     ∧ first_position (λ e, (0 <? stricmp (text (key e)) "BISON")%Z)
         (entries str_sample) right
     ∧ ∀ j, j < nitems str_sample →
            (left ≤ j ∧ j < right)
            ↔ stricmp (text (key (entries str_sample !!! j))) "BISON" = 0%Z).
Proof.
  split; [exact str_sample_wf |].
  exact (strdict_bisect_contract str_sample (key_at 300 "BISON")
           (ReallocOk []) ReallocFail str_sample_wf).
Defined.

Lemma strdict_find_correct_witness :
  wf str_sample
  ∧ (let '(found, pos, dict') :=
       strdict_find str_sample (key_at 300 "BISON") (ReallocOk []) in
     same_store str_sample dict'
     ∧ (found = true
        ↔ ∃ e, e ∈ entries str_sample
               ∧ stricmp (text (key e)) "BISON" = 0%Z)
     ∧ match pos with
       | Some p =>
           found = true ∧ p < nitems str_sample
           ∧ stricmp (text (key (entries str_sample !!! p))) "BISON" = 0%Z
           ∧ ∀ j, j < p →
                  (stricmp (text (key (entries str_sample !!! j))) "BISON"
                   < 0)%Z
       | None => found = false
       end).
Proof.
  split; [exact str_sample_wf |].
  exact (strdict_find_correct str_sample (key_at 300 "BISON") (ReallocOk [])
           str_sample_wf).
Defined.

Lemma strdict_remove_correct_witness :
  wf str_sample
  ∧ (let '(found, pos, dict') :=
       strdict_remove str_sample (key_at 300 "BISON") (ReallocOk []) in
     strdict_remove_value str_sample (key_at 300 "BISON") (ReallocOk []) =
       (match pos with
        | Some p => value (entries str_sample !!! p)
        | None => NULL
        end, pos, dict')
     ∧ match pos with
       | Some p =>
           found = true ∧ p < nitems str_sample
           ∧ stricmp (text (key (entries str_sample !!! p))) "BISON" = 0%Z
           ∧ (∀ j, j < p →
                   (stricmp (text (key (entries str_sample !!! j))) "BISON"
                    < 0)%Z)
           ∧ entries dict' = delete p (entries str_sample)
           ∧ nitems dict' = nitems str_sample - 1
           ∧ nalloc dict' = nalloc str_sample
       | None =>
           found = false ∧ same_store str_sample dict'
           ∧ ∀ e, e ∈ entries str_sample →
                  stricmp (text (key e)) "BISON" ≠ 0%Z
       end).
Proof.
  split; [exact str_sample_wf |].
  exact (strdict_remove_correct str_sample (key_at 300 "BISON")
           (ReallocOk []) str_sample_wf).
Defined.

Lemma strdict_ordering_invariant_witness :
  ArrayInitSize ≤ SIZE_MAX
  ∧ reachable str_sample
  ∧ (∀ i, i + 1 < nitems str_sample →
          (stricmp (text (key (entries str_sample !!! i)))
                   (text (key (entries str_sample !!! (i + 1)%nat))) ≤ 0)%Z)
  ∧ nitems str_sample ≤ nalloc str_sample
  ∧ nalloc str_sample ≤ SIZE_MAX.
Proof.
  split; [exact size16_fits |]. split; [exact str_sample_reachable |].
  exact (strdict_ordering_invariant size16_fits str_sample
           str_sample_reachable).
Defined.

Lemma strdict_insert_then_find_witness :
  ArrayInitSize ≤ SIZE_MAX
  ∧ wf str_sample
  ∧ strdict_insert str_sample (key_at 300 "camel") 13 (ReallocOk [])
      (ReallocOk []) = (true, Some 2, str_inserted)
  ∧ stricmp "CAMEL" "camel" = 0%Z
  ∧ ∃ dict2,
      strdict_find str_inserted (key_at 400 "CAMEL") ReallocFail =
        (true, Some 2, dict2)
      ∧ strdict_find_value str_inserted (key_at 400 "CAMEL") ReallocFail =
          (13%N, Some 2, dict2)
      ∧ same_store str_inserted dict2.
Proof.
  split; [exact size16_fits |]. split; [exact str_sample_wf |].
  split; [exact str_inserted_eq |]. split; [exact camel_equal |].
  exact (strdict_insert_then_find size16_fits str_sample (key_at 300 "camel")
           (key_at 400 "CAMEL") 13%N (ReallocOk []) (ReallocOk [])
           ReallocFail (Some 2) str_inserted str_sample_wf str_inserted_eq
           camel_equal).
Defined.

Lemma strdict_insert_then_remove_witness :
  ArrayInitSize ≤ SIZE_MAX
  ∧ wf str_sample
  ∧ strdict_insert str_sample (key_at 300 "camel") 13 (ReallocOk [])
      (ReallocOk []) = (true, Some 2, str_inserted)
  ∧ stricmp "CAMEL" "camel" = 0%Z
  ∧ ∃ dict2,
      strdict_remove str_inserted (key_at 400 "CAMEL") ReallocFail =
        (true, Some 2, dict2)
      ∧ strdict_remove_value str_inserted (key_at 400 "CAMEL") ReallocFail =
          (13%N, Some 2, dict2)
      ∧ entries dict2 = entries str_sample
      ∧ nitems dict2 = nitems str_sample
      ∧ nalloc dict2 = nalloc str_inserted.
Proof.
  split; [exact size16_fits |]. split; [exact str_sample_wf |].
  split; [exact str_inserted_eq |]. split; [exact camel_equal |].
  exact (strdict_insert_then_remove size16_fits str_sample
           (key_at 300 "camel") (key_at 400 "CAMEL") 13%N (ReallocOk [])
           (ReallocOk []) ReallocFail (Some 2) str_inserted str_sample_wf
           str_inserted_eq camel_equal).
Defined.

Lemma strdict_destroy_calls_witness :
  wf str_sample
  ∧ strdict_destroy str_sample (Some record_callbacks) [] =
      foldl (λ a e, record_callbacks (key e) (value e) a) []
        (entries str_sample)
  ∧ strdict_destroy str_sample (Some record_callbacks) [] =
      (λ e, (key e, value e)) <$> entries str_sample
  ∧ strdict_destroy str_sample None (@nil (charp * voidp)) = [].
Proof.
  split; [exact str_sample_wf |].
  exact (strdict_destroy_calls str_sample record_callbacks [] str_sample_wf).
Defined.

Lemma str_sample_nonnull :
  Forall (λ e, value e ≠ NULL) (entries str_sample).
Proof. repeat constructor; discriminate. Qed.

Lemma strdict_iterate_all_correct_witness :
  wf str_sample
  ∧ Forall (λ e, value e ≠ NULL) (entries str_sample)
  ∧ (let '(seen, _, dict') := iterate_all Nat.odd str_sample in
     seen = value <$> entries str_sample
     ∧ entries dict' = unselected Nat.odd 0 (entries str_sample)
     ∧ strdict_destroy dict' (Some record_callbacks) [] =
         (λ e, (key e, value e))
           <$> unselected Nat.odd 0 (entries str_sample)).
Proof.
  split; [exact str_sample_wf |]. split; [exact str_sample_nonnull |].
  exact (strdict_iterate_all_correct Nat.odd str_sample str_sample_wf
           str_sample_nonnull).
Defined.

Lemma str_sample_in_range :
  Forall (λ e, value e ≠ NULL)
    (filter (λ e, (0 ≤ stricmp (text (key e)) "b"
                   ∧ stricmp (text (key e)) "c" ≤ 0)%Z)
       (entries str_sample)).
Proof. vm_compute. repeat constructor; discriminate. Qed.

Lemma collect_range_correct_witness :
  wf str_sample
  ∧ Forall (λ e, value e ≠ NULL)
      (filter (λ e, (0 ≤ stricmp (text (key e)) "b"
                     ∧ stricmp (text (key e)) "c" ≤ 0)%Z)
         (entries str_sample))
  ∧ (let '(got_values, dict') :=
       collect_range str_sample (key_at 300 "b") (key_at 400 "c")
         (ReallocOk []) (ReallocOk []) in
     got_values =
       value <$> filter (λ e, (0 ≤ stricmp (text (key e)) "b"
                               ∧ stricmp (text (key e)) "c" ≤ 0)%Z)
                   (entries str_sample)
     ∧ filter (λ e, (0 ≤ stricmp (text (key e)) "b"
                     ∧ stricmp (text (key e)) "c" ≤ 0)%Z)
         (entries str_sample) =
         take ((strdict_bisect_right str_sample (key_at 400 "c")
                  (ReallocOk [])).1
               - (strdict_bisect_left str_sample (key_at 300 "b")
                    (ReallocOk [])).1)
           (drop (strdict_bisect_left str_sample (key_at 300 "b")
                    (ReallocOk [])).1 (entries str_sample))
     ∧ length got_values =
         (strdict_bisect_right str_sample (key_at 400 "c") (ReallocOk [])).1
         - (strdict_bisect_left str_sample (key_at 300 "b") (ReallocOk [])).1
     ∧ same_store str_sample dict').
Proof.
  split; [exact str_sample_wf |]. split; [exact str_sample_in_range |].
  exact (collect_range_correct str_sample (key_at 300 "b") (key_at 400 "c")
           (ReallocOk []) (ReallocOk []) str_sample_wf str_sample_in_range).
Defined.

Lemma strdict_specific_correct_witness :
  wf str_sample
  ∧ (let '(found, pos, dict1) :=
       strdict_find_specific str_sample (key_at 300 "BISON") 11
         (ReallocOk []) in
     let '(removed, rpos, dict2) :=
       strdict_remove_specific str_sample (key_at 300 "BISON") 11
         (ReallocOk []) in
     same_store str_sample dict1
     ∧ (found = true
        ↔ ∃ e, e ∈ entries str_sample
               ∧ stricmp (text (key e)) "BISON" = 0%Z ∧ value e = 11%N)
     ∧ removed = found ∧ rpos = pos
     ∧ match pos with
       | Some p =>
           found = true ∧ p < nitems str_sample
           ∧ stricmp (text (key (entries str_sample !!! p))) "BISON" = 0%Z
           ∧ value (entries str_sample !!! p) = 11%N
           ∧ (∀ j, j < p →
                   ¬ (stricmp (text (key (entries str_sample !!! j))) "BISON"
                      = 0%Z
                      ∧ value (entries str_sample !!! j) = 11%N))
           ∧ entries dict2 = delete p (entries str_sample)
           ∧ nitems dict2 = nitems str_sample - 1
           ∧ nalloc dict2 = nalloc str_sample
       | None => found = false ∧ dict2 = dict1
       end).
Proof.
  split; [exact str_sample_wf |].
  exact (strdict_specific_correct str_sample (key_at 300 "BISON") 11%N
           (ReallocOk []) str_sample_wf).
Defined.






Lemma remove_at_correct_witness :
  IntDict.wf int_sample
  ∧ 1 < IntDict.nitems int_sample
  ∧ (let '(v, dict') := IntDict.intdict_remove_value_at int_sample 1 in
     dict' = IntDict.intdict_remove_at int_sample 1
     ∧ v = IntDict.value (IntDict.entries int_sample !!! 1)
     ∧ IntDict.entries dict' = delete 1 (IntDict.entries int_sample)
     ∧ IntDict.nitems dict' = IntDict.nitems int_sample - 1
     ∧ IntDict.nalloc dict' = IntDict.nalloc int_sample
     ∧ IntDict.candidate dict' = None
     ∧ IntDict.wf dict')
  ∧ wf str_sample
  ∧ 1 < nitems str_sample
  ∧ (let '(v, dict') := strdict_remove_value_at str_sample 1 in
     dict' = strdict_remove_at str_sample 1
     ∧ v = value (entries str_sample !!! 1)
     ∧ entries dict' = delete 1 (entries str_sample)
     ∧ nitems dict' = nitems str_sample - 1
     ∧ nalloc dict' = nalloc str_sample
     ∧ candidate dict' = None
     ∧ wf dict').
Proof.
  destruct (remove_at_correct (H := size16)) as [Hint Hstr].
  assert (Hone : 1 < 3) by lia. assert (Htwo : 1 < 2) by lia.
  split; [exact int_sample_wf |]. split; [exact Hone |].
  split; [exact (Hint int_sample 1 int_sample_wf Hone) |].
  split; [exact str_sample_wf |]. split; [exact Htwo |].
  exact (Hstr str_sample 1 str_sample_wf Htwo).
Defined.

End StrWitnesses.

Module StricmpWitnesses.

Lemma stricmp_total_preorder_witness :
  (stricmp "aardvark" "AARDVARK" ≤ 0)%Z
  ∧ (stricmp "AARDVARK" "bison" < 0)%Z
  ∧ (stricmp "aardvark" "bison" < 0)%Z.
Proof.
  destruct (stricmp_total_preorder "aardvark" "AARDVARK" "bison")
    as (_ & _ & _ & Hlt & _).
  assert (Hle : (stricmp "aardvark" "AARDVARK" ≤ 0)%Z)
    by (vm_compute; discriminate).
  assert (Hlt' : (stricmp "AARDVARK" "bison" < 0)%Z) by reflexivity.
  split; [exact Hle |]. split; [exact Hlt' |]. exact (Hlt Hle Hlt').
Defined.

End StricmpWitnesses.
